(** * trpc-redis-cache: the caching middleware, its key deriver and its
      serialization guard, embedded from the TypeScript sources

    - the utility module    : [isSerializable], [safeStringify], [sanitizeForCache]
    - [cache-middleware.ts] : [createCacheKey], [createCacheMiddleware], [invalidateCache]

    JavaScript values are modelled twice, each time the way the function
    under study looks at them: as finite trees (module-level [value]) for
    everything that recurses structurally over a result or an input, and as
    a heap of objects addressed by reference (module [Graph]) for
    [safeStringify], whose whole point is object identity and cycles. *)

From Stdlib Require Import ZArith Ascii String List Bool Lia.
From stdpp Require Import base option list strings gmap fin_maps pretty.

Set Warnings "-clear-no-such-hyp,-register-all".

Open Scope Z_scope.
Open Scope string_scope.

(** ** Completions: a JavaScript call either returns or throws *)

Inductive exn : Type :=
  | TypeError (msg : string)      (* thrown by the runtime: JSON.stringify, redis client arguments *)
  | SyntaxError (msg : string)    (* thrown by JSON.parse *)
  | RangeError (msg : string)     (* call stack exhausted *)
  | ZodError (msg : string)       (* thrown by cacheConfigSchema.parse *)
  | RedisError (msg : string)     (* thrown by a backend client or by the connection factory *)
  | ProcedureError (msg : string) (* thrown by the wrapped operation *)
  | CustomError (msg : string).   (* thrown by user callbacks such as getCacheKey *)

Inductive completion (A : Type) : Type :=
  | Normal (a : A)
  | Throw (e : exn).
Arguments Normal {A} a.
Arguments Throw {A} e.

(** ** JavaScript values as trees *)

(** Numbers: the integer-valued doubles and NaN.  Nothing below depends on
    fractional parts; what matters is which numbers are falsy (0 and NaN) and
    that every finite number has a non-empty decimal text. *)
Inductive number : Type :=
  | Int (z : Z)
  | NaN.

(** [Object.getPrototypeOf(obj)], as far as [isSerializable] distinguishes it. *)
Inductive proto : Type :=
  | ObjectPrototype    (* object literals, JSON.parse results, [{}] *)
  | NullPrototype      (* Object.create(null) *)
  | OtherPrototype.    (* class instances, Map, Set, Error, ... *)

(** An object is its prototype tag and its own enumerable string-keyed
    properties in [Object.entries] order. *)
Unset Elimination Schemes.
Inductive value : Type :=
  | VUndefined
  | VNull
  | VBool (b : bool)
  | VNumber (n : number)
  | VString (s : string)
  | VBigInt (z : Z)
  | VSymbol (description : string)
  | VFunction (name : string)
  | VDate (iso : string)
  | VArray (items : list value)
  | VObject (p : proto) (props : list (string * value)).
Set Elimination Schemes.

Section value_induction.
Variable P : value → Prop.
Hypothesis Hundefined : P VUndefined.
Hypothesis Hnull : P VNull.
Hypothesis Hbool : ∀ b, P (VBool b).
Hypothesis Hnumber : ∀ n, P (VNumber n).
Hypothesis Hstring : ∀ s, P (VString s).
Hypothesis Hbigint : ∀ z, P (VBigInt z).
Hypothesis Hsymbol : ∀ d, P (VSymbol d).
Hypothesis Hfunction : ∀ n, P (VFunction n).
Hypothesis Hdate : ∀ iso, P (VDate iso).
Hypothesis Harray : ∀ items, Forall P items → P (VArray items).
Hypothesis Hobject : ∀ p props, Forall (λ kv, P kv.2) props → P (VObject p props).

Fixpoint value_ind' (v : value) : P v :=
  match v with
  | VUndefined => Hundefined
  | VNull => Hnull
  | VBool b => Hbool b
  | VNumber n => Hnumber n
  | VString s => Hstring s
  | VBigInt z => Hbigint z
  | VSymbol d => Hsymbol d
  | VFunction n => Hfunction n
  | VDate iso => Hdate iso
  | VArray items =>
      Harray items
        ((fix go (l : list value) : Forall P l :=
            match l with
            | [] => @List.Forall_nil _ P
            | x :: r => @List.Forall_cons _ P x r (value_ind' x) (go r)
            end) items)
  | VObject p props =>
      Hobject p props
        ((fix go (l : list (string * value)) : Forall (λ kv, P kv.2) l :=
            match l with
            | [] => @List.Forall_nil _ (λ kv, P kv.2)
            | kv :: r => @List.Forall_cons _ (λ kv, P kv.2) kv r (value_ind' kv.2) (go r)
            end) props)
  end.
End value_induction.

(** [if (x)]: ToBoolean. *)
Definition truthy (v : value) : bool :=
  match v with
  | VUndefined | VNull => false
  | VBool b => b
  | VNumber (Int z) => negb (Z.eqb z 0)
  | VNumber NaN => false
  | VString s => negb (String.eqb s EmptyString)
  | VBigInt z => negb (Z.eqb z 0)
  | VSymbol _ | VFunction _ | VDate _ | VArray _ | VObject _ _ => true
  end.

(** ** The utility module: the serialization guard *)

(** [isSerializable(obj)], line by line. *)
Fixpoint isSerializable (obj : value) : bool :=
  match obj with
  | VNull | VUndefined => true
  | VNumber _ | VString _ | VBool _ => true
  | VDate _ => true
  | VArray items => forallb isSerializable items
  | VObject p props =>
      match p with
      | OtherPrototype => false
      | ObjectPrototype | NullPrototype =>
          forallb (λ kv : string * value, isSerializable kv.2) props
      end
  | VBigInt _ | VSymbol _ | VFunction _ => false
  end.

(** The type of JavaScript objects under construction ([const clean = {}]). *)
Record object : Type := Obj { obj_proto : proto; obj_props : list (string * value) }.

Definition empty_object : object := Obj ObjectPrototype [].

Definition value_of_object (o : object) : value := VObject (obj_proto o) (obj_props o).

(** [typeof v === 'object' || typeof v === 'function'], the test the
    [__proto__] setter applies to its argument (null is handled apart). *)
Definition is_object (v : value) : bool :=
  match v with
  | VFunction _ | VDate _ | VArray _ | VObject _ _ => true
  | _ => false
  end.

(** Define-or-overwrite of an own data property, keeping insertion order. *)
Fixpoint put_own (k : string) (v : value) (props : list (string * value))
  : list (string * value) :=
  match props with
  | [] => [(k, v)]
  | (k', v') :: rest =>
      if String.eqb k k' then (k, v) :: rest else (k', v') :: put_own k v rest
  end.

Definition proto_key : string := "__proto__".

(** [o[key] = v] on an ordinary object.  While the object still inherits
    from [Object.prototype] (as [clean = {}] does), the key [__proto__]
    reaches the accessor of [Object.prototype]: an object or null argument
    replaces the prototype, anything else is ignored, and no own property is
    created.  Every other assignment defines or overwrites an own data
    property.  Of the object that becomes the prototype only the fact that it
    is neither [null] nor [Object.prototype] is kept; what the object would
    inherit from it (from a [Date], its [toJSON] method) is not modelled, so
    statements about what is done with the output of the loop are made for
    data without a [__proto__] key, where this branch is never taken. *)
Definition assign (o : object) (key : string) (v : value) : object :=
  if String.eqb key proto_key
     && match obj_proto o with ObjectPrototype => true | _ => false end
  then
    match v with
    | VNull => Obj NullPrototype (obj_props o)
    | _ => if is_object v then Obj OtherPrototype (obj_props o) else o
    end
  else Obj (obj_proto o) (put_own key v (obj_props o)).

(** [sanitizeForCache(obj)], line by line; the [for ... of Object.entries]
    loop is the left fold that fills [clean]. *)
Fixpoint sanitizeForCache (obj : value) : value :=
  if negb (isSerializable obj) then
    match obj with
    | VArray items => VArray (map sanitizeForCache items)
    | VObject _ props =>
        value_of_object
          (fold_left
             (λ (clean : object) (kv : string * value),
                if isSerializable kv.2
                then assign clean kv.1 kv.2
                else assign clean kv.1 (sanitizeForCache kv.2))
             props empty_object)
    | _ => VNull
    end
  else obj.

(** No object anywhere in [v] has an own property named [__proto__]. *)
Fixpoint no_proto_key (v : value) : bool :=
  match v with
  | VArray items => forallb no_proto_key items
  | VObject _ props =>
      forallb (λ kv : string * value,
                 negb (String.eqb kv.1 proto_key) && no_proto_key kv.2) props
  | _ => true
  end.

Definition props_serializable (props : list (string * value)) : bool :=
  forallb (λ kv : string * value, isSerializable kv.2) props.

(** ** The runtime's JSON.stringify on tree values *)

Definition dquote : string := String (ascii_of_nat 34) EmptyString.
Definition backslash : string := String (ascii_of_nat 92) EmptyString.

Definition hex_digit (n : nat) : ascii :=
  ascii_of_nat (if Nat.ltb n 10 then 48 + n else 87 + n).

(** One code unit inside QuoteJSONString. *)
Definition escape_char (c : ascii) : string :=
  let n := nat_of_ascii c in
  if Nat.eqb n 8 then backslash ++ "b"
  else if Nat.eqb n 9 then backslash ++ "t"
  else if Nat.eqb n 10 then backslash ++ "n"
  else if Nat.eqb n 12 then backslash ++ "f"
  else if Nat.eqb n 13 then backslash ++ "r"
  else if Nat.eqb n 34 then backslash ++ dquote
  else if Nat.eqb n 92 then backslash ++ backslash
  else if Nat.ltb n 32 then
    backslash ++ "u00" ++ String (hex_digit (n / 16)) (String (hex_digit (n mod 16)) EmptyString)
  else String c EmptyString.

Fixpoint escape (s : string) : string :=
  match s with
  | EmptyString => EmptyString
  | String c rest => escape_char c ++ escape rest
  end.

Definition QuoteJSONString (s : string) : string := dquote ++ escape s ++ dquote.

(** The text of a number: decimal digits for a finite number, and the text
    null for NaN.  [Int z] stands for an integer that JavaScript prints in
    decimal, which it does below 10^21; fractions, infinities and the
    exponent form of larger numbers are not modelled, and the general
    statements below use no more of this text than that it is not empty. *)
Definition number_text (n : number) : string :=
  match n with
  | Int z => pretty z
  | NaN => "null"
  end.

Definition bigint_error : exn := TypeError "Do not know how to serialize a BigInt".

(** SerializeJSONProperty with no replacer and no indentation.  The result
    [None] is JavaScript's [undefined]: the property is left out of an object
    and printed as null inside an array.  The nested loops are
    SerializeJSONArray and SerializeJSONObject; the first exception wins. *)
Fixpoint SerializeJSONProperty (v : value) : completion (option string) :=
  match v with
  | VUndefined | VSymbol _ | VFunction _ => Normal None
  | VNull => Normal (Some "null")
  | VBool true => Normal (Some "true")
  | VBool false => Normal (Some "false")
  | VNumber n => Normal (Some (number_text n))
  | VString s => Normal (Some (QuoteJSONString s))
  | VBigInt _ => Throw bigint_error
  | VDate iso => Normal (Some (QuoteJSONString iso))   (* Date.prototype.toJSON *)
  | VArray items =>
      match
        (fix elements (l : list value) : completion (list string) :=
           match l with
           | [] => Normal []
           | x :: rest =>
               match SerializeJSONProperty x with
               | Throw e => Throw e
               | Normal strP =>
                   match elements rest with
                   | Throw e => Throw e
                   | Normal partial => Normal (default "null" strP :: partial)
                   end
               end
           end) items
      with
      | Throw e => Throw e
      | Normal partial => Normal (Some ("[" ++ String.concat "," partial ++ "]"))
      end
  | VObject _ props =>
      match
        (fix members (l : list (string * value)) : completion (list string) :=
           match l with
           | [] => Normal []
           | kv :: rest =>
               match SerializeJSONProperty kv.2 with
               | Throw e => Throw e
               | Normal strP =>
                   match members rest with
                   | Throw e => Throw e
                   | Normal partial =>
                       Normal (match strP with
                               | Some str => (QuoteJSONString kv.1 ++ ":" ++ str) :: partial
                               | None => partial
                               end)
                   end
               end
           end) props
      with
      | Throw e => Throw e
      | Normal partial => Normal (Some ("{" ++ String.concat "," partial ++ "}"))
      end
  end.

Definition JSON_stringify (v : value) : completion (option string) :=
  SerializeJSONProperty v.

(** A template literal prints [undefined] as the text undefined. *)
Definition template_text (s : option string) : string := default "undefined" s.

(** ** cache-middleware.ts: configuration and key derivation *)

Record User : Type := { id : option string }.
Record Session : Type := { user : option User }.
(** [TRPCContext]: [session] may be an object, null or undefined. *)
Record TRPCContext : Type := { session : option Session }.

(** [ctx.session?.user?.id ?? 'anonymous'] *)
Definition userId_of (ctx : TRPCContext) : string :=
  match session ctx with
  | Some s =>
      match user s with
      | Some u => default "anonymous" (id u)
      | None => "anonymous"
      end
  | None => "anonymous"
  end.

Definition keyfn : Type := string → value → completion string.

(** The merged configuration the middleware closes over.  A field is [None]
    when its value is [undefined]. *)
Record CacheConfig : Type := {
  ttl : option Z;
  useUpstash : option bool;
  userSpecific : option bool;
  globalCache : option bool;
  getCacheKey : option keyfn;
  debug : option bool;
}.

(** [if (flag)] on a [boolean | undefined] field. *)
Definition enabled (flag : option bool) : bool := default false flag.

(** [const inputString = input ? JSON.stringify(input) : ''] *)
Definition inputString_of (input : value) : completion (option string) :=
  if truthy input then JSON_stringify input else Normal (Some EmptyString).

(** [createCacheKey(path, input, ctx, config)] *)
Definition createCacheKey (path : string) (input : value) (ctx : TRPCContext)
    (config : CacheConfig) : completion string :=
  match getCacheKey config with
  | Some custom => custom path input
  | None =>
      match inputString_of input with
      | Throw e => Throw e
      | Normal inputString =>
          if enabled (globalCache config) then
            Normal ("trpc:global:" ++ path ++ ":" ++ template_text inputString)
          else
            let userId := userId_of ctx in
            if enabled (userSpecific config) then
              Normal ("trpc:user:" ++ path ++ ":" ++ userId ++ ":" ++ template_text inputString)
            else
              Normal ("trpc:" ++ path ++ ":" ++ template_text inputString)
      end
  end.

Definition sample_input : value :=
  VObject ObjectPrototype [("query", VString "test")].

Definition ctx_of (uid : option string) : TRPCContext :=
  {| session := Some {| user := Some {| id := uid |} |} |}.

Definition ctx_anonymous : TRPCContext := {| session := None |}.

(** [defaultCacheConfig] *)
Definition defaultCacheConfig : CacheConfig :=
  {| ttl := Some 60; useUpstash := Some true; userSpecific := Some true;
     globalCache := Some false; getCacheKey := None; debug := Some false |}.

(** ** The outside world: two backends, the wrapped procedure

    The backend clients are external services.  They are modelled the way the
    repository's own test doubles ([MockUpstashRedis], [MockRedisClient])
    behave: an in-memory table per backend, here with the expiry that was
    requested recorded next to the payload, and with switches that make the
    connection factory or a client call throw. *)

Record entry (A : Type) : Type := Entry { payload : A; expires_in : option Z }.
Arguments Entry {A} payload expires_in.
Arguments payload {A} e.
Arguments expires_in {A} e.

Record faults : Type := {
  connect_throws : bool;   (* RedisConnectionFactory.getUpstashRedis / getStandardRedis *)
  get_throws : bool;
  set_throws : bool;
  del_throws : bool;
}.

Definition healthy : faults :=
  {| connect_throws := false; get_throws := false; set_throws := false; del_throws := false |}.

Record world : Type := World {
  upstash : gmap string (entry value);    (* native-value store *)
  redis : gmap string (entry string);     (* string store *)
  broken : faults;
  calls : nat;                            (* how often the wrapped procedure has run *)
}.

Definition with_upstash (w : world) (m : gmap string (entry value)) : world :=
  World m (redis w) (broken w) (calls w).
Definition with_redis (w : world) (m : gmap string (entry string)) : world :=
  World (upstash w) m (broken w) (calls w).
Definition with_calls (w : world) (n : nat) : world :=
  World (upstash w) (redis w) (broken w) n.

Definition fresh : world := World ∅ ∅ healthy 0.

(** Asynchronous code that may throw, awaited step by step: a state and
    exception monad over [world]. *)
Definition M (A : Type) : Type := world → completion A * world.

#[global] Instance M_ret : MRet M := λ A a w, (Normal a, w).
#[global] Instance M_bind : MBind M := λ A B f m w,
  match m w with
  | (Normal a, w') => f a w'
  | (Throw e, w') => (Throw e, w')
  end.

Definition throw {A} (e : exn) : M A := λ w, (Throw e, w).
Definition lift {A} (c : completion A) : M A := λ w, (c, w).

(** [try { body } catch (error) { handler }] *)
Definition try_catch {A} (body : M A) (handler : exn → M A) : M A := λ w,
  match body w with
  | (Normal a, w') => (Normal a, w')
  | (Throw e, w') => handler e w'
  end.

Definition connection_error : exn := RedisError "Redis connection failed".
Definition command_error : exn := RedisError "Redis command failed".
Definition argument_error : exn := TypeError "Invalid argument type".

(** [RedisConnectionFactory.getUpstashRedis(...)] and
    [await RedisConnectionFactory.getStandardRedis(...)]: both hand out the
    process-wide client or throw. *)
Definition getUpstashRedis : M unit := λ w,
  if connect_throws (broken w) then (Throw connection_error, w) else (Normal tt, w).
Definition getStandardRedis : M unit := λ w,
  if connect_throws (broken w) then (Throw connection_error, w) else (Normal tt, w).

(** The native-value client. [get] answers [null] for a missing key. *)
Definition upstash_get (key : string) : M value := λ w,
  if get_throws (broken w) then (Throw command_error, w)
  else (Normal (match upstash w !! key with Some e => payload e | None => VNull end), w).

Definition upstash_set (key : string) (v : value) (ex : option Z) : M unit := λ w,
  if set_throws (broken w) then (Throw command_error, w)
  else (Normal tt, with_upstash w (<[key := Entry v ex]> (upstash w))).

Definition upstash_del (key : string) : M unit := λ w,
  if del_throws (broken w) then (Throw command_error, w)
  else (Normal tt, with_upstash w (delete key (upstash w))).

(** The string client: [get] answers a string or [null]; [set] and [setEx]
    accept a string only, which is what the client library enforces on the
    [string | undefined] that [JSON.stringify] hands over. *)
Definition redis_get (key : string) : M (option string) := λ w,
  if get_throws (broken w) then (Throw command_error, w)
  else (Normal (payload <$> redis w !! key), w).

Definition redis_write (key : string) (text : option string) (ex : option Z) : M unit := λ w,
  match text with
  | None => (Throw argument_error, w)
  | Some s =>
      if set_throws (broken w) then (Throw command_error, w)
      else (Normal tt, with_redis w (<[key := Entry s ex]> (redis w)))
  end.
Definition redis_set (key : string) (text : option string) : M unit :=
  redis_write key text None.
Definition redis_setEx (key : string) (seconds : Z) (text : option string) : M unit :=
  redis_write key text (Some seconds).

Definition redis_del (key : string) : M unit := λ w,
  if del_throws (broken w) then (Throw command_error, w)
  else (Normal tt, with_redis w (delete key (redis w))).

(** The wrapped procedure [next: () => Promise<unknown>].  Its outcome may
    depend on how often it has run before; every call is counted. *)
Definition procedure : Type := nat → completion value.

Definition call (next : procedure) : M value := λ w,
  (next (calls w), with_calls w (S (calls w))).

(** [if (cachedData)] on the [string | null] the string client returns. *)
Definition nonempty (cachedData : option string) : bool :=
  match cachedData with
  | Some s => negb (String.eqb s EmptyString)
  | None => false
  end.

(** ** cache-middleware.ts: the middleware and the invalidation entry point *)

Section Middleware.
(** The runtime's [JSON.parse], used on the text read from the string store. *)
Variable JSON_parse : string → completion value.

(** The async function [createCacheMiddleware] returns, with
    [validatedConfig] as its first argument.  Logging and timing have no
    effect on what is returned or stored and are left out. *)
Definition middleware (validatedConfig : CacheConfig)
    (ctx : TRPCContext) (path : string) (next : procedure) (input : value) : M value :=
  cacheKey ← lift (createCacheKey path input ctx validatedConfig);
  let ttl := ttl validatedConfig in
  try_catch
    (if enabled (useUpstash validatedConfig) then
       _ ← getUpstashRedis;
       cachedData ← upstash_get cacheKey;
       if truthy cachedData then mret cachedData
       else
         result ← call next;
         let sanitizedResult := sanitizeForCache result in
         _ ← match ttl with
             | None => upstash_set cacheKey sanitizedResult None
             | Some seconds => upstash_set cacheKey sanitizedResult (Some seconds)
             end;
         mret result
     else
       _ ← getStandardRedis;
       cachedData ← redis_get cacheKey;
       if nonempty cachedData then lift (JSON_parse (default EmptyString cachedData))
       else
         result ← call next;
         let sanitizedResult := sanitizeForCache result in
         text ← lift (JSON_stringify sanitizedResult);
         _ ← match ttl with
             | None => redis_set cacheKey text
             | Some seconds => redis_setEx cacheKey seconds text
             end;
         mret result)
    (λ error, call next).
End Middleware.

(** A property of an options object handed in by the caller: left out,
    written with the value [undefined], or given. *)
Inductive field (A : Type) : Type :=
  | Absent
  | Undefined
  | Given (a : A).
Arguments Absent {A}.
Arguments Undefined {A}.
Arguments Given {A} a.

(** One key of [{ ...defaults, ...overrides }]: a key that is present in
    [overrides] wins, also when its value is [undefined]. *)
Definition spread {A} (dflt : option A) (override : field A) : option A :=
  match override with
  | Absent => dflt
  | Undefined => None
  | Given a => Some a
  end.

(** The [config?: CacheConfig] argument of [createCacheMiddleware]. *)
Record CacheConfigInput : Type := {
  in_ttl : field Z;
  in_useUpstash : field bool;
  in_userSpecific : field bool;
  in_globalCache : field bool;
  in_getCacheKey : field keyfn;
  in_debug : field bool;
}.

Definition no_config : CacheConfigInput :=
  {| in_ttl := Absent; in_useUpstash := Absent; in_userSpecific := Absent;
     in_globalCache := Absent; in_getCacheKey := Absent; in_debug := Absent |}.

(** [cacheConfigSchema.parse]: every key is optional and [ttl] must be a
    positive number.  The object handed back has the keys of the argument: a
    key that is present with the value [undefined] stays present. *)
Definition cacheConfigSchema_parse (config : CacheConfigInput) : completion CacheConfigInput :=
  match in_ttl config with
  | Given seconds =>
      if Z.leb seconds 0 then Throw (ZodError "Number must be greater than 0")
      else Normal config
  | _ => Normal config
  end.

(** [{ ...defaultCacheConfig, ...parsed }] *)
Definition merge_config (dflt : CacheConfig) (parsed : CacheConfigInput) : CacheConfig :=
  {| ttl := spread (ttl dflt) (in_ttl parsed);
     useUpstash := spread (useUpstash dflt) (in_useUpstash parsed);
     userSpecific := spread (userSpecific dflt) (in_userSpecific parsed);
     globalCache := spread (globalCache dflt) (in_globalCache parsed);
     getCacheKey := spread (getCacheKey dflt) (in_getCacheKey parsed);
     debug := spread (debug dflt) (in_debug parsed) |}.

Definition interceptor : Type := TRPCContext → string → procedure → value → M value.

(** [createCacheMiddleware(config?)]: validation happens once, here. *)
Definition createCacheMiddleware (JSON_parse : string → completion value)
    (config : option CacheConfigInput) : completion interceptor :=
  match cacheConfigSchema_parse (default no_config config) with
  | Throw e => Throw e
  | Normal parsed => Normal (middleware JSON_parse (merge_config defaultCacheConfig parsed))
  end.

(** The [options] argument of [invalidateCache].  The declared type has no
    [getCacheKey], but the spread below copies every own property of the
    object that is passed, and an object with more properties than the
    declared ones is accepted wherever it is not written as a literal (a
    [CacheConfig] kept for the middleware, say); [createCacheKey] then finds
    the function in the merged configuration. *)
Record InvalidateOptions : Type := {
  opt_useUpstash : field bool;
  opt_globalCache : field bool;
  opt_userSpecific : field bool;
  opt_userId : field string;
  opt_getCacheKey : field keyfn;
}.

Definition no_options : InvalidateOptions :=
  {| opt_useUpstash := Absent; opt_globalCache := Absent;
     opt_userSpecific := Absent; opt_userId := Absent; opt_getCacheKey := Absent |}.

(** [{ ...defaultOptions, ...options }] seen as a [CacheConfig]: the keys
    [createCacheKey] and the backend choice read. *)
Definition invalidate_config (options : InvalidateOptions) : CacheConfig :=
  {| ttl := None;
     useUpstash := spread (Some true) (opt_useUpstash options);
     userSpecific := spread (Some true) (opt_userSpecific options);
     globalCache := spread (Some false) (opt_globalCache options);
     getCacheKey := spread None (opt_getCacheKey options);
     debug := None |}.

(** [config.userId ? { user: { id: config.userId } } : undefined] *)
Definition mockCtx (options : InvalidateOptions) : TRPCContext :=
  match spread None (opt_userId options) with
  | Some uid =>
      if negb (String.eqb uid EmptyString)
      then {| session := Some {| user := Some {| id := Some uid |} |} |}
      else {| session := None |}
  | None => {| session := None |}
  end.

(** The key [invalidateCache] deletes. *)
Definition invalidate_key (path : string) (input : value) (options : InvalidateOptions)
  : completion string :=
  createCacheKey path input (mockCtx options) (invalidate_config options).

(** [invalidateCache(path, input?, options?)]: the handler logs and rethrows. *)
Definition invalidateCache (path : string) (input : value)
    (options : option InvalidateOptions) : M unit :=
  let opts := default no_options options in
  let config := invalidate_config opts in
  cacheKey ← lift (invalidate_key path input opts);
  try_catch
    (if enabled (useUpstash config) then
       _ ← getUpstashRedis;
       upstash_del cacheKey
     else
       _ ← getStandardRedis;
       redis_del cacheKey)
    (λ error, throw error).

(** ** Object graphs: values with identity, for [safeStringify]

    Arrays and records live in a heap and are referred to by address, so that
    two properties can hold the very same object and an object can contain
    itself. *)
Module Graph.

Abbreviation addr := positive.

Inductive gvalue : Type :=
  | GUndefined
  | GNull
  | GBool (b : bool)
  | GNumber (n : number)
  | GString (s : string)
  | GBigInt (z : Z)
  | GSymbol (description : string)
  | GFunction (name : string)
  | GDate (iso : string)
  | GRef (a : addr).

Inductive cell : Type :=
  | CArray (items : list gvalue)
  | CRecord (props : list (string * gvalue)).

Abbreviation heap := (gmap positive cell).

Definition circular_error : exn := TypeError "Converting circular structure to JSON".
Definition stack_overflow : exn := RangeError "Maximum call stack size exceeded".
Definition dangling_error : exn := TypeError "reference to an object that was never allocated".

Definition circular_marker : string := "[Circular Reference]".

(** Step 2 of SerializeJSONProperty: a value with a [toJSON] method is
    replaced by what the method returns.  Of the values modelled here only
    dates have one. *)
Definition toJSON (v : gvalue) : gvalue :=
  match v with
  | GDate iso => GString iso
  | _ => v
  end.

Section Stringify.
(** A replacer function is a closure: it is called with the key and the
    value and may read and update the state it closes over. *)
Context {St : Type}.
Variable replacer : St → string → gvalue → gvalue * St.
Variable h : heap.

Section Loops.
(** The recursive call for a property of the object being printed. *)
Variable property : St → string → gvalue → completion (option string * St).

(** The loop of SerializeJSONArray: [undefined] prints as null. *)
Fixpoint array_elements (items : list gvalue) (index : nat) (st : St)
  : completion (list string * St) :=
  match items with
  | [] => Normal ([], st)
  | x :: rest =>
      match property st (pretty index) x with
      | Throw e => Throw e
      | Normal (strP, st1) =>
          match array_elements rest (S index) st1 with
          | Throw e => Throw e
          | Normal (partial, st2) => Normal (default "null" strP :: partial, st2)
          end
      end
  end.

(** The loop of SerializeJSONObject: [undefined] leaves the member out. *)
Fixpoint object_members (props : list (string * gvalue)) (st : St)
  : completion (list string * St) :=
  match props with
  | [] => Normal ([], st)
  | kv :: rest =>
      match property st kv.1 kv.2 with
      | Throw e => Throw e
      | Normal (strP, st1) =>
          match object_members rest st1 with
          | Throw e => Throw e
          | Normal (partial, st2) =>
              Normal (match strP with
                      | Some str => (QuoteJSONString kv.1 ++ ":" ++ str) :: partial
                      | None => partial
                      end, st2)
          end
      end
  end.
End Loops.

(** SerializeJSONProperty with a replacer function.  [depth] is what is
    left of the call stack, [stack] the objects being printed (the
    runtime's own cycle check), [st] the replacer's state. *)
Fixpoint serialize (depth : nat) (stack : gset addr) (st : St) (key : string)
    (v : gvalue) : completion (option string * St) :=
  match depth with
  | O => Throw stack_overflow
  | S depth' =>
      let '(val, st1) := replacer st key (toJSON v) in
      match val with
      | GUndefined | GSymbol _ | GFunction _ => Normal (None, st1)
      | GNull => Normal (Some "null", st1)
      | GBool true => Normal (Some "true", st1)
      | GBool false => Normal (Some "false", st1)
      | GNumber n => Normal (Some (number_text n), st1)
      | GString s => Normal (Some (QuoteJSONString s), st1)
      | GBigInt _ => Throw bigint_error
      | GDate _ => Normal (Some "{}", st1)   (* an object without enumerable properties *)
      | GRef a =>
          if decide (a ∈ stack) then Throw circular_error
          else
            match h !! a with
            | None => Throw dangling_error
            | Some (CArray items) =>
                match array_elements (serialize depth' ({[a]} ∪ stack)) items 0 st1 with
                | Throw e => Throw e
                | Normal (partial, st2) =>
                    Normal (Some ("[" ++ String.concat "," partial ++ "]"), st2)
                end
            | Some (CRecord props) =>
                match object_members (serialize depth' ({[a]} ∪ stack)) props st1 with
                | Throw e => Throw e
                | Normal (partial, st2) =>
                    Normal (Some ("{" ++ String.concat "," partial ++ "}"), st2)
                end
            end
      end
  end.

(** [JSON.stringify(value, replacer)] with the replacer's initial state. *)
Definition JSON_stringify_with (depth : nat) (st : St) (v : gvalue)
  : completion (option string) :=
  match serialize depth ∅ st EmptyString v with
  | Throw e => Throw e
  | Normal (text, _) => Normal text
  end.
End Stringify.

(** [JSON.stringify(value)] *)
Definition JSON_stringify_plain (h : heap) (depth : nat) (v : gvalue)
  : completion (option string) :=
  JSON_stringify_with (λ (st : unit) _ val, (val, st)) h depth tt v.

(** The arrow function handed to [JSON.stringify] in [safeStringify]; its
    state is the [WeakSet] named [seen]. *)
Definition seen_replacer (seen : gset addr) (key : string) (val : gvalue)
  : gvalue * gset addr :=
  match val with
  | GRef a =>
      if decide (a ∈ seen) then (GString circular_marker, seen)
      else (val, {[a]} ∪ seen)
  | _ => (val, seen)
  end.

(** [safeStringify(value)]: a string, or [null] from the catch block, or
    the [undefined] that [JSON.stringify] returns for a value that has no
    JSON text.  [depth] is the number of nested calls the stack has room for;
    running out of it is one more exception that ends in the catch block. *)
Definition safeStringify (depth : nat) (h : heap) (v : gvalue) : gvalue :=
  match JSON_stringify_with seen_replacer h depth ∅ v with
  | Normal (Some text) => GString text
  | Normal None => GUndefined
  | Throw err => GNull
  end.

(** Well-formed heaps: every reference that is stored points to an
    allocated object. *)
Definition allocated (h : heap) (v : gvalue) : Prop :=
  match v with
  | GRef a => a ∈ dom h
  | _ => True
  end.

Definition cell_values (c : cell) : list gvalue :=
  match c with
  | CArray items => items
  | CRecord props => props.*2
  end.

Definition closed (h : heap) : Prop :=
  ∀ a c, h !! a = Some c → Forall (allocated h) (cell_values c).

Definition not_bigint (v : gvalue) : Prop :=
  match v with
  | GBigInt _ => False
  | _ => True
  end.

Definition bigint_free (h : heap) : Prop :=
  ∀ a c, h !! a = Some c → Forall not_bigint (cell_values c).

(** A value that may occur in the graph. *)
Definition graph_value (h : heap) (v : gvalue) : Prop := allocated h v ∧ not_bigint v.

(** [o = { name: "loop", self: o, list: [o, 7] }] *)
Definition loop_heap : heap :=
  {[ 1%positive := CRecord [("name", GString "loop"); ("self", GRef 1%positive); ("list", GRef 2%positive)];
     2%positive := CArray [GRef 1%positive; GNumber (Int 7)] ]}.

(** [p = { x: 1 }; pair = [p, p]]: one object held twice, no cycle. *)
Definition shared_heap : heap :=
  {[ 1%positive := CRecord [("x", GNumber (Int 1))];
     2%positive := CArray [GRef 1%positive; GRef 1%positive] ]}.

End Graph.

(** ** Vocabulary of the properties *)

(** The world after one more run of the wrapped procedure. *)
Definition bump (w : world) : world := with_calls w (S (calls w)).

(** Two worlds whose backends hold the same entries and fail the same way. *)
Definition same_backends (w w' : world) : Prop :=
  upstash w' = upstash w ∧ redis w' = redis w ∧ broken w' = broken w.

Section Lookup.
Variable JSON_parse : string → completion value.
Variables (config : CacheConfig) (key : string) (w : world).

(** The lookup of the middleware succeeds and passes its hit test
    [if (cachedData)]; [cached] is what the hit branch returns: the value
    itself on the native store, the parsed text on the string store. *)
Inductive cache_hit : value → Prop :=
  | hit_upstash cached :
      enabled (useUpstash config) = true →
      getUpstashRedis w = (Normal tt, w) →
      upstash_get key w = (Normal cached, w) →
      truthy cached = true →
      cache_hit cached
  | hit_redis text cached :
      enabled (useUpstash config) = false →
      getStandardRedis w = (Normal tt, w) →
      redis_get key w = (Normal (Some text), w) →
      nonempty (Some text) = true →
      JSON_parse text = Normal cached →
      cache_hit cached.

(** The lookup succeeds and what it reads is falsy. *)
Inductive cache_miss : Prop :=
  | miss_upstash cachedData :
      enabled (useUpstash config) = true →
      getUpstashRedis w = (Normal tt, w) →
      upstash_get key w = (Normal cachedData, w) →
      truthy cachedData = false →
      cache_miss
  | miss_redis cachedData :
      enabled (useUpstash config) = false →
      getStandardRedis w = (Normal tt, w) →
      redis_get key w = (Normal cachedData, w) →
      nonempty cachedData = false →
      cache_miss.

(** [sanitized] is the entry under [key], with the configured expiry: as a
    value on the native store, as its JSON text on the string store. *)
Definition cached_as (sanitized : value) : Prop :=
  if enabled (useUpstash config)
  then upstash w !! key = Some (Entry sanitized (ttl config))
  else ∃ text, JSON_stringify sanitized = Normal (Some text)
               ∧ redis w !! key = Some (Entry text (ttl config)).

(** The expiry recorded with the entry under [key], if there is one. *)
Definition expiry_of : option (option Z) :=
  if enabled (useUpstash config)
  then expires_in <$> upstash w !! key
  else expires_in <$> redis w !! key.

(** The string client takes a text; the native client takes any value. *)
Definition storable (sanitized : value) : Prop :=
  enabled (useUpstash config) = true
  ∨ ∃ text, JSON_stringify sanitized = Normal (Some text).
End Lookup.

(** ** What the specification asks of [safeStringify]

    The text the specification describes, in its own words: one set of
    objects already visited per call; a visit to an object that is in the
    set is the marker; a first visit puts the object into the set and prints
    it member by member, in order; everything that is not an object prints
    as [JSON.stringify] prints it.  [marks h seen v text seen'] says that
    [text] is that text for [v] when [seen] has been visited before, and
    that [seen'] has been visited afterwards.  There is no call stack and no
    exception in it. *)

Definition primitive (v : Graph.gvalue) : option value :=
  match v with
  | Graph.GUndefined => Some VUndefined
  | Graph.GNull => Some VNull
  | Graph.GBool b => Some (VBool b)
  | Graph.GNumber n => Some (VNumber n)
  | Graph.GString s => Some (VString s)
  | Graph.GBigInt z => Some (VBigInt z)
  | Graph.GSymbol d => Some (VSymbol d)
  | Graph.GFunction f => Some (VFunction f)
  | Graph.GDate iso => Some (VDate iso)
  | Graph.GRef _ => None
  end.

Inductive marks (h : Graph.heap)
  : gset positive → Graph.gvalue → option string → gset positive → Prop :=
  | marks_primitive seen v p text :
      primitive v = Some p →
      JSON_stringify p = Normal text →
      marks h seen v text seen
  | marks_second_visit seen a :
      a ∈ seen →
      marks h seen (Graph.GRef a) (Some (QuoteJSONString "[Circular Reference]")) seen
  | marks_array seen a items parts seen' :
      a ∉ seen →
      h !! a = Some (Graph.CArray items) →
      marks_elements h ({[a]} ∪ seen) items parts seen' →
      marks h seen (Graph.GRef a) (Some ("[" ++ String.concat "," parts ++ "]")) seen'
  | marks_object seen a props parts seen' :
      a ∉ seen →
      h !! a = Some (Graph.CRecord props) →
      marks_members h ({[a]} ∪ seen) props parts seen' →
      marks h seen (Graph.GRef a) (Some ("{" ++ String.concat "," parts ++ "}")) seen'
with marks_elements (h : Graph.heap)
  : gset positive → list Graph.gvalue → list string → gset positive → Prop :=
  | marks_elements_nil seen :
      marks_elements h seen [] [] seen
  | marks_elements_cons seen x text seen1 rest parts seen2 :
      marks h seen x text seen1 →
      marks_elements h seen1 rest parts seen2 →
      marks_elements h seen (x :: rest) (default "null" text :: parts) seen2
with marks_members (h : Graph.heap)
  : gset positive → list (string * Graph.gvalue) → list string → gset positive → Prop :=
  | marks_members_nil seen :
      marks_members h seen [] [] seen
  | marks_members_cons seen kv text seen1 rest parts seen2 :
      marks h seen kv.2 text seen1 →
      marks_members h seen1 rest parts seen2 →
      marks_members h seen (kv :: rest)
        (match text with
         | Some str => (QuoteJSONString kv.1 ++ ":" ++ str) :: parts
         | None => parts
         end) seen2.

Scheme marks_mut := Induction for marks Sort Prop
  with marks_elements_mut := Induction for marks_elements Sort Prop
  with marks_members_mut := Induction for marks_members Sort Prop.

(** ** Sample calls, after the repository's tests *)

(** A stand-in for [JSON.parse] on the native-store branch, which never
    calls it. *)
Definition parse_unavailable : string → completion value :=
  λ text, Throw (SyntaxError text).

Definition sample_data : value :=
  VObject ObjectPrototype [("id", VNumber (Int 1)); ("name", VString "Test")].

(** What [createMockNext(mockData)] resolves to. *)
Definition sample_result : value :=
  VObject ObjectPrototype
    [("ok", VBool true); ("marker", VString "middlewareMarker");
     ("data", sample_data); ("error", VNull)].

Definition succeeding : procedure := λ _, Normal sample_result.

Definition sample_ctx : TRPCContext := ctx_of (Some "user-1").
Definition sample_path : string := "test.procedure".

Definition sample_key : string :=
  Eval vm_compute in
    match createCacheKey sample_path sample_input sample_ctx defaultCacheConfig with
    | Normal key => key
    | Throw _ => EmptyString
    end.

(** The same calls on the string store.  [parse_sample] is [JSON.parse] on
    the one text these calls read: the JSON text of the sample result. *)
Definition string_config : CacheConfig :=
  {| ttl := Some 60; useUpstash := Some false; userSpecific := Some true;
     globalCache := Some false; getCacheKey := None; debug := Some false |}.

Definition sample_text : string :=
  Eval vm_compute in
    match JSON_stringify (sanitizeForCache sample_result) with
    | Normal (Some text) => text
    | _ => EmptyString
    end.

Definition parse_sample : string → completion value := λ text,
  if String.eqb text sample_text then Normal sample_result
  else Throw (SyntaxError text).

Definition string_call : completion value * world :=
  middleware parse_sample string_config sample_ctx sample_path succeeding sample_input fresh.

(** A native store that holds the number 0 under the sample key. *)
Definition zero_cached : world :=
  with_upstash fresh {[ sample_key := Entry (VNumber (Int 0)) (Some 60) ]}.

(** [n] calls of the same middleware with the same arguments, one after the
    other. *)
Fixpoint repeatedly (n : nat) (run : M value) (w : world) : world :=
  match n with
  | O => w
  | S n' => repeatedly n' run (run w).2
  end.

(** A procedure whose result is the number 0, a stand-in for [JSON.parse]
    that knows the text 0, and the first call of that procedure through the
    string store. *)
Definition zero_procedure : procedure := λ _, Normal (VNumber (Int 0)).

Definition parse_zero : string → completion value := λ text,
  if String.eqb text "0" then Normal (VNumber (Int 0))
  else Throw (SyntaxError text).

(** A procedure whose result is [undefined]. *)
Definition undefined_procedure : procedure := λ _, Normal VUndefined.

Definition zero_call : completion value * world :=
  middleware parse_zero string_config sample_ctx sample_path zero_procedure sample_input fresh.

(** A [TRPCError] instance: its own enumerable properties.  [cause] and
    [code] are class fields, [name] is assigned in the constructor; the
    message and the stack of an error are not enumerable. *)
Definition trpc_error : value :=
  VObject OtherPrototype
    [("cause", VUndefined); ("code", VString "INTERNAL_SERVER_ERROR");
     ("name", VString "TRPCError")].

(** What [createMockFailingNext()] resolves to: a failure-shaped result. *)
Definition failure_result : value :=
  VObject ObjectPrototype
    [("ok", VBool false); ("marker", VString "middlewareMarker");
     ("data", VNull); ("error", trpc_error)].

Definition failing : procedure := λ _, Normal failure_result.

(** The first two calls of the test that expects failed results not to be
    cached. *)
Definition failing_call : completion value * world :=
  middleware parse_unavailable defaultCacheConfig sample_ctx sample_path failing
    sample_input fresh.
Definition failing_call_again : completion value * world :=
  middleware parse_unavailable defaultCacheConfig sample_ctx sample_path failing
    sample_input failing_call.2.

(** A procedure that throws the first time it runs and returns afterwards. *)
Definition flaky : procedure := λ n,
  match n with
  | O => Throw (ProcedureError "boom")
  | S _ => Normal sample_result
  end.

(** An input that [JSON.stringify] refuses. *)
Definition bigint_input : value := VObject ObjectPrototype [("id", VBigInt 1)].

(** A configuration that spells out [ttl: undefined]. *)
Definition permanent_config : CacheConfigInput :=
  {| in_ttl := Undefined; in_useUpstash := Absent; in_userSpecific := Absent;
     in_globalCache := Absent; in_getCacheKey := Absent; in_debug := Absent |}.

(** A backend whose writes throw. *)
Definition read_only : world :=
  World ∅ ∅ {| connect_throws := false; get_throws := false;
               set_throws := true; del_throws := false |} 0.

Section Outcomes.
Variable JSON_parse : string → completion value.
Variables (config : CacheConfig) (key : string) (next : procedure).

(** Something throws while the middleware talks to the cache.  The second
    world is the one in which the exception is raised: the world of the call
    itself when the client cannot be had or the read fails, the world after
    the first run of the procedure when the write fails.  On the string
    store the write is [set(key, JSON.stringify(sanitizedResult))]: it fails
    when the client does, when [JSON.stringify] throws, and when
    [JSON.stringify] returns [undefined], which the client refuses. *)
Inductive cache_failure (w : world) : world → Prop :=
  | connect_fails :
      connect_throws (broken w) = true →
      cache_failure w w
  | read_fails :
      connect_throws (broken w) = false →
      get_throws (broken w) = true →
      cache_failure w w
  | parse_fails text e :
      enabled (useUpstash config) = false →
      getStandardRedis w = (Normal tt, w) →
      redis_get key w = (Normal (Some text), w) →
      nonempty (Some text) = true →
      JSON_parse text = Throw e →
      cache_failure w w
  | write_fails result :
      cache_miss config key w →
      next (calls w) = Normal result →
      set_throws (broken w) = true →
      cache_failure w (bump w)
  | stringify_fails result e :
      enabled (useUpstash config) = false →
      cache_miss config key w →
      next (calls w) = Normal result →
      JSON_stringify (sanitizeForCache result) = Throw e →
      cache_failure w (bump w)
  | text_missing result :
      enabled (useUpstash config) = false →
      cache_miss config key w →
      next (calls w) = Normal result →
      JSON_stringify (sanitizeForCache result) = Normal None →
      cache_failure w (bump w).

(** What a miss leads to: either the procedure ran once, returned, and its
    sanitized result was written; or something threw after the lookup and
    the handler ran the procedure a second time, leaving the backends
    untouched. *)
Inductive miss_run (w : world) : completion value → world → Prop :=
  | miss_stored result w' :
      next (calls w) = Normal result →
      calls w' = S (calls w) →
      broken w' = broken w →
      cached_as config key w' (sanitizeForCache result) →
      miss_run w (Normal result) w'
  | miss_retried :
      miss_run w (next (S (calls w))) (bump (bump w)).
End Outcomes.

(** The caller identity a context carries, if any: [ctx.session?.user?.id]. *)
Definition caller_identity (ctx : TRPCContext) : option string :=
  match session ctx with
  | Some s => match user s with Some u => id u | None => None end
  | None => None
  end.

(** The configuration of the test named after the global cache. *)
Definition global_config : CacheConfig :=
  {| ttl := Some 60; useUpstash := Some true; userSpecific := Some false;
     globalCache := Some true; getCacheKey := None; debug := Some false |}.

(** A caller whose id is the empty string, and the invalidation options
    that name the same caller. *)
Definition ctx_empty_id : TRPCContext := ctx_of (Some EmptyString).
Definition options_empty_id : InvalidateOptions :=
  {| opt_useUpstash := Absent; opt_globalCache := Absent;
     opt_userSpecific := Absent; opt_userId := Given EmptyString;
     opt_getCacheKey := Absent |}.

(** Store, invalidate, look up again: the three steps of the round trip for
    that caller. *)
Definition empty_id_stored : world :=
  (middleware parse_unavailable defaultCacheConfig ctx_empty_id sample_path succeeding
     sample_input fresh).2.
Definition empty_id_invalidated : world :=
  (invalidateCache sample_path sample_input (Some options_empty_id) empty_id_stored).2.
Definition empty_id_lookup : completion value * world :=
  middleware parse_unavailable defaultCacheConfig ctx_empty_id sample_path succeeding
    sample_input empty_id_invalidated.

(** [{ ["__proto__"]: { a: 1 }, f: () => 1 }]: an object literal with an
    own property named [__proto__] next to a function-valued field. *)
Definition proto_keyed : value :=
  VObject ObjectPrototype
    [("__proto__", VObject ObjectPrototype [("a", VNumber (Int 1))]);
     ("f", VFunction "f")].

(** ** Trees as object graphs

    A tree value stands for an object graph in which no object is held
    twice.  [represents h g v F] says that the graph value [g] in the heap
    [h] is such a graph, that it has the shape and the contents of the tree
    [v], and that [F] is the set of its objects.  (The heap keeps no
    prototypes: the stringifier does not look at them.) *)

Inductive tiled {A B : Type} (R : A → B → gset positive → Prop)
  : list A → list B → gset positive → Prop :=
  | tiled_nil : tiled R [] [] ∅
  | tiled_cons a b F l1 l2 Fs :
      R a b F → tiled R l1 l2 Fs → F ## Fs →
      tiled R (a :: l1) (b :: l2) (F ∪ Fs).

Inductive represents (h : Graph.heap) : Graph.gvalue → value → gset positive → Prop :=
  | rep_undefined : represents h Graph.GUndefined VUndefined ∅
  | rep_null : represents h Graph.GNull VNull ∅
  | rep_bool b : represents h (Graph.GBool b) (VBool b) ∅
  | rep_number n : represents h (Graph.GNumber n) (VNumber n) ∅
  | rep_string s : represents h (Graph.GString s) (VString s) ∅
  | rep_bigint z : represents h (Graph.GBigInt z) (VBigInt z) ∅
  | rep_symbol d : represents h (Graph.GSymbol d) (VSymbol d) ∅
  | rep_function f : represents h (Graph.GFunction f) (VFunction f) ∅
  | rep_date iso : represents h (Graph.GDate iso) (VDate iso) ∅
  | rep_array a gitems items F :
      h !! a = Some (Graph.CArray gitems) →
      tiled (represents h) gitems items F →
      a ∉ F →
      represents h (Graph.GRef a) (VArray items) ({[a]} ∪ F)
  | rep_object a gprops p props F :
      h !! a = Some (Graph.CRecord gprops) →
      tiled (λ gkv kv G, gkv.1 = kv.1 ∧ represents h gkv.2 kv.2 G) gprops props F →
      a ∉ F →
      represents h (Graph.GRef a) (VObject p props) ({[a]} ∪ F).

(** The nesting depth of a tree: the number of nested calls printing it
    takes. *)
Fixpoint height (v : value) : nat :=
  match v with
  | VArray items => S (list_max (map height items))
  | VObject _ props => S (list_max (map (λ kv : string * value, height kv.2) props))
  | _ => 1
  end.

(** The two loops inside [SerializeJSONProperty], by name. *)
Definition serialize_elements : list value → completion (list string) :=
  fix elements (l : list value) : completion (list string) :=
    match l with
    | [] => Normal []
    | x :: rest =>
        match SerializeJSONProperty x with
        | Throw e => Throw e
        | Normal strP =>
            match elements rest with
            | Throw e => Throw e
            | Normal partial => Normal (default "null" strP :: partial)
            end
        end
    end.

Definition serialize_members : list (string * value) → completion (list string) :=
  fix members (l : list (string * value)) : completion (list string) :=
    match l with
    | [] => Normal []
    | kv :: rest =>
        match SerializeJSONProperty kv.2 with
        | Throw e => Throw e
        | Normal strP =>
            match members rest with
            | Throw e => Throw e
            | Normal partial =>
                Normal (match strP with
                        | Some str => (QuoteJSONString kv.1 ++ ":" ++ str) :: partial
                        | None => partial
                        end)
            end
        end
    end.

(** What [safeStringify] makes of the outcome of [JSON.stringify]. *)
Definition caught (outcome : completion (option string)) : Graph.gvalue :=
  match outcome with
  | Normal (Some text) => Graph.GString text
  | Normal None => Graph.GUndefined
  | Throw _ => Graph.GNull
  end.

(** The tree of the record in [Graph.shared_heap]. *)
Definition point_tree : value := VObject ObjectPrototype [("x", VNumber (Int 1))].

(** ** The cache utilities: [getCached], [deleteCached], [setCached] *)

(** The [redis] argument, told apart by [isUpstashRedis]. *)
Inductive client : Type :=
  | UpstashRedis      (* the native-value client *)
  | RedisClient.      (* the string client *)

Definition isUpstashRedis (redis : client) : bool :=
  match redis with
  | UpstashRedis => true
  | RedisClient => false
  end.

(** [safeStringify(value)] on a tree.  No object occurs twice in a tree, so
    the replacer hands every value back as it is and what remains is
    [JSON.stringify] inside a try block.  This is [Graph.safeStringify] on
    the graphs that are trees, and on those only: for a value that holds an
    object twice or contains itself the text has markers in it, and
    [valueStr_of_graph] below is the expression to use. *)
Definition safeStringify (v : value) : value :=
  match JSON_stringify v with
  | Normal (Some text) => VString text
  | Normal None => VUndefined
  | Throw _ => VNull
  end.

(** The object literal in [setCached] that stands in for a value without a
    JSON text. *)
Definition serialization_error : value :=
  VObject ObjectPrototype
    [("__serialization_error", VBool true);
     ("message", VString "Failed to serialize value")].

(** [typeof value === 'string' ? value : safeStringify(value) || JSON.stringify({...})] *)
Definition valueStr (v : value) : completion (option string) :=
  match v with
  | VString s => Normal (Some s)
  | _ =>
      match safeStringify v with
      | VString text =>
          if truthy (VString text) then Normal (Some text)
          else JSON_stringify serialization_error
      | _ => JSON_stringify serialization_error
      end
  end.

(** The same expression on an object graph, with [safeStringify] as it is
    written, replacer and all: the text [setCached] hands to the string
    client for a value that may hold an object twice or contain itself. *)
Definition valueStr_of_graph (depth : nat) (h : Graph.heap) (v : Graph.gvalue)
  : completion (option string) :=
  match v with
  | Graph.GString s => Normal (Some s)
  | _ =>
      match Graph.safeStringify depth h v with
      | Graph.GString text =>
          if negb (String.eqb text EmptyString) then Normal (Some text)
          else JSON_stringify serialization_error
      | _ => JSON_stringify serialization_error
      end
  end.

(** [if (ttl)] on the [number | undefined] argument. *)
Definition ttl_given (ttl : option Z) : bool :=
  match ttl with
  | Some seconds => truthy (VNumber (Int seconds))
  | None => false
  end.

Section CacheUtils.
Variable JSON_parse : string → completion value.

(** [getCached({ redis, key })]: the outer handler logs and answers [null]. *)
Definition getCached (redis : client) (key : string) : M value :=
  try_catch
    (if isUpstashRedis redis then
       upstash_get key
     else
       value ← redis_get key;
       if nonempty value then
         try_catch (lift (JSON_parse (default EmptyString value)))
                   (λ err, mret (VString (default EmptyString value)))
       else mret VNull)
    (λ error, mret VNull).
End CacheUtils.

(** [deleteCached({ redis, key })]: the handler logs and rethrows. *)
Definition deleteCached (redis : client) (key : string) : M unit :=
  try_catch
    (if isUpstashRedis redis then upstash_del key else redis_del key)
    (λ error, throw error).

(** [setCached({ redis, key, value, ttl })]: the handler logs and rethrows. *)
Definition setCached (redis : client) (key : string) (v : value) (ttl : option Z) : M unit :=
  try_catch
    (if isUpstashRedis redis then
       if ttl_given ttl then upstash_set key v ttl
       else upstash_set key v None
     else
       text ← lift (valueStr v);
       if ttl_given ttl then redis_setEx key (default 0 ttl) text
       else redis_set key text)
    (λ error, throw error).

(** The text [setCached] stores for a value that has no JSON text. *)
Definition serialization_error_text : string :=
  Eval vm_compute in
    match JSON_stringify serialization_error with
    | Normal (Some text) => text
    | _ => EmptyString
    end.

(** What a store holds under a key, for either client: the payload as the
    client's [get] answers it, and the expiry it was written with. *)
Definition stored (which : client) (key : string) (w : world) : option (value * option Z) :=
  if isUpstashRedis which then
    (λ e, (payload e, expires_in e)) <$> upstash w !! key
  else
    (λ e, (VString (payload e), expires_in e)) <$> redis w !! key.

(** ** The connection factory and the environment validator *)

Module RedisConnectionFactory.

Record UpstashConfig : Type := { url : string; token : string }.

(** The three variables of [process.env] that are read. *)
Record Env : Type := {
  REDIS_URL : option string;
  UPSTASH_REDIS_REST_URL : option string;
  UPSTASH_REDIS_REST_TOKEN : option string;
}.

(** A client of the [redis] package: the url it was created for and
    whether its [connect()] has completed. *)
Record RedisClientType : Type := { client_url : string; isOpen : bool }.

(** The static fields of the class.  A [connectPromise] that is not [null]
    is the promise of a [connect()] that has completed: one that fails
    resets the field in its handler. *)
Record Factory : Type := {
  standardRedisClient : option RedisClientType;
  upstashRedisClient : option UpstashConfig;
  connectPromise : bool;
}.

Definition initial : Factory :=
  {| standardRedisClient := None; upstashRedisClient := None; connectPromise := false |}.

Definition redis_url_error : exn :=
  RedisError "REDIS_URL environment variable is missing or invalid. Please provide a valid Redis URL.".
Definition upstash_env_error : exn :=
  RedisError "UPSTASH_REDIS_REST_URL and UPSTASH_REDIS_REST_TOKEN environment variables are required for Upstash Redis.".

Definition min1 (s : string) : bool := negb (String.eqb s EmptyString).

Section Factory.
(** [z.string().url()], the network behind [client.connect()] and
    [client.quit()], and the constructor of the Upstash client. *)
Variable is_url : string → bool.
Variable connect : string → completion unit.
Variable quit : string → completion unit.
Variable new_UpstashRedis : UpstashConfig → completion unit.
Variable env : Env.

(** [createRedisEnvValidator().getRedisUrl()] *)
Definition getRedisUrl : completion string :=
  match REDIS_URL env with
  | Some redisUrl =>
      if is_url redisUrl && min1 redisUrl then Normal redisUrl
      else Throw redis_url_error
  | None => Throw redis_url_error
  end.

(** [createRedisEnvValidator().getUpstashConfig()] *)
Definition getUpstashConfig : completion UpstashConfig :=
  match UPSTASH_REDIS_REST_URL env, UPSTASH_REDIS_REST_TOKEN env with
  | Some u, Some t =>
      if is_url u && min1 u && min1 t then Normal {| url := u; token := t |}
      else Throw upstash_env_error
  | _, _ => Throw upstash_env_error
  end.

(** [redisUrl || createRedisEnvValidator().getRedisUrl()] *)
Definition url_or_env (redisUrl : option string) : completion string :=
  match redisUrl with
  | Some u => if min1 u then Normal u else getRedisUrl
  | None => getRedisUrl
  end.

(** [await RedisConnectionFactory.getStandardRedis(redisUrl)], awaited to
    its end before anything else runs. *)
Definition getStandardRedis (redisUrl : option string) (f : Factory)
  : completion RedisClientType * Factory :=
  match standardRedisClient f with
  | Some c => (Normal c, f)
  | None =>
      match url_or_env redisUrl with
      | Throw e => (Throw e, f)
      | Normal u =>
          let created := {| client_url := u; isOpen := false |} in
          if connectPromise f then
            (Normal created,
             {| standardRedisClient := Some created;
                upstashRedisClient := upstashRedisClient f;
                connectPromise := true |})
          else
            match connect u with
            | Normal _ =>
                let opened := {| client_url := u; isOpen := true |} in
                (Normal opened,
                 {| standardRedisClient := Some opened;
                    upstashRedisClient := upstashRedisClient f;
                    connectPromise := true |})
            | Throw err =>
                (Throw err,
                 {| standardRedisClient := None;
                    upstashRedisClient := upstashRedisClient f;
                    connectPromise := false |})
            end
      end
  end.

(** [RedisConnectionFactory.getUpstashRedis(config)]; both handlers log
    and rethrow. *)
Definition getUpstashRedis (config : option UpstashConfig) (f : Factory)
  : completion UpstashConfig * Factory :=
  match upstashRedisClient f with
  | Some c => (Normal c, f)
  | None =>
      match (match config with
             | Some c => Normal c
             | None => getUpstashConfig
             end) with
      | Throw e => (Throw e, f)
      | Normal c =>
          match new_UpstashRedis {| url := url c; token := token c |} with
          | Throw e => (Throw e, f)
          | Normal _ =>
              (Normal {| url := url c; token := token c |},
               {| standardRedisClient := standardRedisClient f;
                  upstashRedisClient := Some {| url := url c; token := token c |};
                  connectPromise := connectPromise f |})
          end
      end
  end.

(** [await RedisConnectionFactory.closeConnections()] *)
Definition closeConnections (f : Factory) : completion unit * Factory :=
  match standardRedisClient f with
  | Some c =>
      match quit (client_url c) with
      | Throw e => (Throw e, f)
      | Normal _ => (Normal tt, initial)
      end
  | None => (Normal tt, initial)
  end.

(** Calls of the three static methods, and what a program that awaits
    them one after the other gets back. *)
Inductive request : Type :=
  | GetStandardRedis (redisUrl : option string)
  | GetUpstashRedis (config : option UpstashConfig)
  | CloseConnections.

Inductive answer : Type :=
  | Standard (c : completion RedisClientType)
  | Upstash (c : completion UpstashConfig)
  | Closed (c : completion unit).

Definition serve (r : request) (f : Factory) : answer * Factory :=
  match r with
  | GetStandardRedis redisUrl => let (c, f') := getStandardRedis redisUrl f in (Standard c, f')
  | GetUpstashRedis config => let (c, f') := getUpstashRedis config f in (Upstash c, f')
  | CloseConnections => let (c, f') := closeConnections f in (Closed c, f')
  end.

Fixpoint run (requests : list request) (f : Factory) : list answer * Factory :=
  match requests with
  | [] => ([], f)
  | r :: rest =>
      let (a, f') := serve r f in
      let (answers, f'') := run rest f' in
      (a :: answers, f'')
  end.

Definition is_close (r : request) : bool :=
  match r with
  | CloseConnections => true
  | _ => false
  end.

End Factory.

(** What holds of the static fields between two awaited calls. *)
Definition settled (f : Factory) : Prop :=
  match standardRedisClient f with
  | Some c => isOpen c = true ∧ connectPromise f = true
  | None => connectPromise f = false
  end.

(** A network in which every host answers, and one in which none does. *)
Definition all_up : string → completion unit := λ _, Normal tt.
Definition all_down : string → completion unit := λ _, Throw connection_error.
Definition any_url : string → bool := λ _, true.
Definition no_env : Env :=
  {| REDIS_URL := None; UPSTASH_REDIS_REST_URL := None; UPSTASH_REDIS_REST_TOKEN := None |}.
Definition test_env : Env :=
  {| REDIS_URL := Some "redis://localhost:6379";
     UPSTASH_REDIS_REST_URL := Some "https://test-redis.upstash.io";
     UPSTASH_REDIS_REST_TOKEN := Some "test-token" |}.
Definition accept_config : UpstashConfig → completion unit := λ _, Normal tt.

End RedisConnectionFactory.

(** ** The logger *)

Module Logger.

Inductive level : Type := Info | Warn | Error.

(** One call of [console.info], [console.warn] or [console.error]: the
    text and the metadata argument, which is the empty string when the
    caller gave none. *)
Record line : Type := { line_level : level; line_text : string; line_metadata : option value }.

(** The [Logger] interface, with the console as a list of lines, newest
    last. *)
Record Logger : Type := {
  info : string → option value → list line → list line;
  warn : string → option value → list line → list line;
  error : string → option value → list line → list line;
}.

Record LogEntry : Type := { message : string; metadata : option value }.

Definition console (l : level) (text : string) (meta : option value) (out : list line)
  : list line :=
  (out ++ [{| line_level := l; line_text := text; line_metadata := meta |}])%list.

(** [new ConsoleLogger(namespace)] *)
Definition ConsoleLogger (namespace : string) : Logger :=
  {| info := λ message meta, console Info ("[" ++ namespace ++ "] " ++ message) meta;
     warn := λ message meta, console Warn ("[" ++ namespace ++ "] " ++ message) meta;
     error := λ message meta, console Error ("[" ++ namespace ++ "] " ++ message) meta |}.

(** [new NoopLogger()] *)
Definition NoopLogger : Logger :=
  {| info := λ _ _ out, out; warn := λ _ _ out, out; error := λ _ _ out, out |}.

(** The object [createConditionalLogger] returns. *)
Record ConditionalLogger : Type := {
  cinfo : LogEntry → list line → list line;
  cwarn : LogEntry → list line → list line;
  cerror : LogEntry → list line → list line;
}.

(** [createConditionalLogger(logger, options = {})]; [debug] is the
    [options.debug] that may be missing. *)
Definition createConditionalLogger (logger : Logger) (debug : option bool) : ConditionalLogger :=
  {| cinfo := λ entry out,
       if enabled debug then info logger (message entry) (metadata entry) out else out;
     cwarn := λ entry out,
       if enabled debug then warn logger (message entry) (metadata entry) out else out;
     cerror := λ entry out,
       error logger (message entry) (metadata entry) out |}.

(** A program's calls of the conditional logger, in order. *)
Definition emit (l : ConditionalLogger) (calls : list (level * LogEntry)) (out : list line)
  : list line :=
  fold_left (λ out call,
    match call.1 with
    | Info => cinfo l call.2 out
    | Warn => cwarn l call.2 out
    | Error => cerror l call.2 out
    end) calls out.

Definition is_error (l : line) : bool :=
  match line_level l with
  | Error => true
  | _ => false
  end.

End Logger.

(** A stand-in for [JSON.parse] that knows one text, the numeral 42. *)
Definition parse_numeral : string → completion value := λ text,
  if String.eqb text "42" then Normal (VNumber (Int 42))
  else Throw (SyntaxError text).

(** A string store whose writes and deletes fail. *)
Definition writes_fail : world :=
  World ∅ ∅ {| connect_throws := false; get_throws := false;
               set_throws := true; del_throws := true |} 0.

(** ** Vocabulary of the further properties *)

(** A result that is not serializable three times over: a BigInt, a
    function and a class instance. *)
Definition bigint_result : value :=
  VObject ObjectPrototype
    [("count", VBigInt 7); ("refresh", VFunction "refresh"); ("error", trpc_error)].

(** The footprint of a call on the world it started in. *)
Definition footprint (cfg : CacheConfig) (key : string) (w w' : world) : Prop :=
  broken w' = broken w
  ∧ (∀ k, k ≠ key → upstash w' !! k = upstash w !! k ∧ redis w' !! k = redis w !! k)
  ∧ (enabled (useUpstash cfg) = true → redis w' = redis w)
  ∧ (enabled (useUpstash cfg) = false → upstash w' = upstash w)
  ∧ (is_Some (upstash w !! key) → is_Some (upstash w' !! key))
  ∧ (is_Some (redis w !! key) → is_Some (redis w' !! key))
  ∧ (calls w ≤ calls w' ≤ calls w + 2)%nat.

(** What the graph printer does on the graph of a tree, when it agrees
    with the tree printer: the same text or the same exception, and every
    object of the graph marked as seen. *)
Definition agrees (h : Graph.heap) (depth : nat) (g : Graph.gvalue) (v : value)
    (F : gset positive) : Prop :=
  ∀ stack seen key,
    F ## seen → stack ⊆ seen →
    Graph.serialize Graph.seen_replacer h depth stack seen key g =
    match SerializeJSONProperty v with
    | Normal text => Normal (text, F ∪ seen)
    | Throw e => Throw e
    end.


(** No BigInt anywhere in [v]. *)
Fixpoint bigint_free_value (v : value) : bool :=
  match v with
  | VBigInt _ => false
  | VArray items => forallb bigint_free_value items
  | VObject _ props => forallb (λ kv : string * value, bigint_free_value kv.2) props
  | _ => true
  end.

(** A second caller, the key of the same call made by that caller, and the
    key of the call in the global scope. *)
Definition user2_ctx : TRPCContext := ctx_of (Some "user-2").

Definition user2_key : string :=
  Eval vm_compute in
    match createCacheKey sample_path sample_input user2_ctx defaultCacheConfig with
    | Normal key => key
    | Throw _ => EmptyString
    end.

Definition global_key : string :=
  Eval vm_compute in
    match createCacheKey sample_path sample_input sample_ctx global_config with
    | Normal key => key
    | Throw _ => EmptyString
    end.

(** The first call of the tests, by the first caller, on an empty store. *)
Definition first_call : completion value * world :=
  middleware parse_unavailable defaultCacheConfig sample_ctx sample_path succeeding
    sample_input fresh.

(** A backend that cannot be reached, and one whose delete command throws. *)
Definition unreachable : world :=
  World ∅ ∅ {| connect_throws := true; get_throws := false;
               set_throws := false; del_throws := false |} 0.
Definition delete_fails : world :=
  World ∅ ∅ {| connect_throws := false; get_throws := false;
               set_throws := false; del_throws := true |} 0.

(** The invalidation options of the tests: the first caller, defaults
    otherwise. *)
Definition user1_options : InvalidateOptions :=
  {| opt_useUpstash := Absent; opt_globalCache := Absent;
     opt_userSpecific := Absent; opt_userId := Given "user-1";
     opt_getCacheKey := Absent |}.

(** A middleware with the custom key function of the tests, and the key it
    derives. *)
Definition custom_key_config : CacheConfig :=
  {| ttl := Some 60; useUpstash := Some true; userSpecific := Some true;
     globalCache := Some false;
     getCacheKey := Some (λ path input,
       match JSON_stringify input with
       | Normal text => Normal ("custom:" ++ path ++ ":" ++ template_text text)
       | Throw e => Throw e
       end);
     debug := Some false |}.

Definition custom_key : string :=
  Eval vm_compute in
    match createCacheKey sample_path sample_input sample_ctx custom_key_config with
    | Normal key => key
    | Throw _ => EmptyString
    end.

(** Options that carry the key function of [custom_key_config]. *)
Definition custom_key_options : InvalidateOptions :=
  {| opt_useUpstash := Absent; opt_globalCache := Absent;
     opt_userSpecific := Absent; opt_userId := Given "user-1";
     opt_getCacheKey := match getCacheKey custom_key_config with
                        | Some custom => Given custom
                        | None => Absent
                        end |}.

(** A configuration with neither scope flag set. *)
Definition unscoped_config : CacheConfig :=
  {| ttl := None; useUpstash := Some true; userSpecific := Some false;
     globalCache := Some false; getCacheKey := None; debug := None |}.

(** A class instance with a method-like field, as a procedure might return. *)
Definition instance_with_method : value :=
  VObject OtherPrototype
    [("id", VNumber (Int 7)); ("save", VFunction "save"); ("tags", VArray [VSymbol "t"])].

(** * Properties *)

(** ** The serialization guard *)

Lemma sanitizeForCache_unfold obj :
  sanitizeForCache obj =
  if negb (isSerializable obj) then
    match obj with
    | VArray items => VArray (map sanitizeForCache items)
    | VObject _ props =>
        value_of_object
          (fold_left
             (λ (clean : object) (kv : string * value),
                if isSerializable kv.2
                then assign clean kv.1 kv.2
                else assign clean kv.1 (sanitizeForCache kv.2))
             props empty_object)
    | _ => VNull
    end
  else obj.
Proof. destruct obj; reflexivity. Qed.

Lemma sanitizeForCache_serializable_id v :
  isSerializable v = true → sanitizeForCache v = v.
Proof. intros H. rewrite sanitizeForCache_unfold, H. reflexivity. Qed.

Lemma put_own_serializable k v props :
  isSerializable v = true →
  props_serializable props = true →
  props_serializable (put_own k v props) = true.
Proof.
  intros Hv. unfold props_serializable.
  induction props as [|[k' v'] rest IH]; simpl.
  - rewrite Hv. reflexivity.
  - intros [Hv' Hrest]%andb_prop.
    destruct (String.eqb k k'); simpl.
    + rewrite Hv, Hrest. reflexivity.
    + rewrite Hv', (IH Hrest). reflexivity.
Qed.

Lemma assign_plain_key o key v :
  String.eqb key proto_key = false →
  assign o key v = Obj (obj_proto o) (put_own key v (obj_props o)).
Proof. intros H. unfold assign. rewrite H. reflexivity. Qed.

(** The loop invariant of the [Object.entries] loop: as long as no key is
    [__proto__], [clean] stays a plain object whose values are serializable. *)
Lemma clean_loop_invariant (f : string * value → value) props :
  Forall (λ kv, String.eqb kv.1 proto_key = false ∧ isSerializable (f kv) = true) props →
  ∀ clean,
    obj_proto clean = ObjectPrototype →
    props_serializable (obj_props clean) = true →
    let out := fold_left (λ c kv, assign c kv.1 (f kv)) props clean in
    obj_proto out = ObjectPrototype ∧ props_serializable (obj_props out) = true.
Proof.
  induction 1 as [|kv rest [Hk Hv] _ IH]; intros clean Hp Hs; simpl.
  - split; assumption.
  - apply IH; rewrite (assign_plain_key _ _ _ Hk); simpl.
    + exact Hp.
    + apply put_own_serializable; assumption.
Qed.

Lemma sanitize_loop_as_fold props clean :
  fold_left
    (λ (c : object) (kv : string * value),
       if isSerializable kv.2
       then assign c kv.1 kv.2
       else assign c kv.1 (sanitizeForCache kv.2))
    props clean
  = fold_left (λ c kv, assign c kv.1 (sanitizeForCache kv.2)) props clean.
Proof.
  revert clean. induction props as [|kv rest IH]; intros clean; simpl; [reflexivity|].
  rewrite IH. destruct (isSerializable kv.2) eqn:E; [|reflexivity].
  rewrite (sanitizeForCache_serializable_id _ E). reflexivity.
Qed.

(** On data without [__proto__] keys the guarantee of [sanitizeForCache]
    holds: its output is always accepted by [isSerializable]. *)
Lemma sanitizeForCache_serializable v :
  no_proto_key v = true → isSerializable (sanitizeForCache v) = true.
Proof.
  induction v as [| | | | | | | | |items IH|p props IH] using value_ind'; intros Hnp;
    try reflexivity.
  - rewrite sanitizeForCache_unfold.
    destruct (isSerializable (VArray items)) eqn:E; simpl; [exact E|].
    simpl in Hnp. clear E.
    induction IH as [|x r Hx _ IHr]; simpl; [reflexivity|].
    simpl in Hnp. apply andb_prop in Hnp as [Hx' Hr'].
    rewrite (Hx Hx'), (IHr Hr'). reflexivity.
  - rewrite sanitizeForCache_unfold.
    destruct (isSerializable (VObject p props)) eqn:E; simpl negb; cbv iota; [exact E|].
    rewrite sanitize_loop_as_fold.
    destruct (clean_loop_invariant (λ kv, sanitizeForCache kv.2) props) with (clean := empty_object)
      as [Hp Hs]; try reflexivity.
    + clear E. simpl in Hnp.
      induction IH as [|kv r Hkv _ IHr]; constructor.
      * simpl in Hnp. apply andb_prop in Hnp as [[Hk Hv]%andb_prop _].
        split; [destruct (String.eqb kv.1 proto_key); [discriminate|reflexivity] | auto].
      * apply IHr. simpl in Hnp. apply andb_prop in Hnp as [_ Hr]. exact Hr.
    + unfold value_of_object. simpl. rewrite Hp. exact Hs.
Qed.

(** C8 (the code departs from it).  The first half holds: a serializable
    value is returned unchanged ([sanitizeForCache_serializable_id]), and on
    data without a [__proto__] key the output is serializable
    ([sanitizeForCache_serializable]).  But [clean[key] = value] with the key
    [__proto__] replaces the prototype of [clean] instead of creating a
    property, and the object that comes out is rejected by [isSerializable]. *)
Theorem sanitizeForCache_output_not_serializable :
  isSerializable proto_keyed = false
  ∧ sanitizeForCache proto_keyed = VObject OtherPrototype [("f", VNull)]
  ∧ isSerializable (sanitizeForCache proto_keyed) = false.
Proof. repeat split. Qed.

(** ** The middleware, branch by branch *)

Section MiddlewareFacts.
Variable JSON_parse : string → completion value.
Variables (cfg : CacheConfig) (ctx : TRPCContext) (path : string)
          (next : procedure) (input : value).

Local Ltac run :=
  unfold middleware, try_catch, mbind, M_bind, mret, M_ret, lift,
    getStandardRedis, getUpstashRedis, upstash_get, upstash_set,
    redis_get, redis_set, redis_setEx, redis_write, call, bump; simpl.

Lemma middleware_key_throws e w :
  createCacheKey path input ctx cfg = Throw e →
  middleware JSON_parse cfg ctx path next input w = (Throw e, w).
Proof. intros Hk. run. rewrite Hk. reflexivity. Qed.

(** The native-store branch written out as one decision tree. *)
Lemma middleware_upstash key w :
  createCacheKey path input ctx cfg = Normal key →
  enabled (useUpstash cfg) = true →
  middleware JSON_parse cfg ctx path next input w =
    if connect_throws (broken w) || get_throws (broken w) then call next w
    else
      let cachedData := match upstash w !! key with Some e => payload e | None => VNull end in
      if truthy cachedData then (Normal cachedData, w)
      else
        match next (calls w) with
        | Throw _ => call next (bump w)
        | Normal result =>
            if set_throws (broken w) then call next (bump w)
            else (Normal result,
                  with_upstash (bump w)
                    (<[key := Entry (sanitizeForCache result) (ttl cfg)]> (upstash w)))
        end.
Proof.
  intros Hk Hu. run. rewrite Hk, Hu.
  destruct (connect_throws (broken w)); simpl; [reflexivity|].
  destruct (get_throws (broken w)); simpl; [reflexivity|].
  destruct (truthy _); [reflexivity|].
  destruct (next (calls w)) as [result|e]; [|reflexivity].
  destruct (ttl cfg); simpl; destruct (set_throws (broken w)); reflexivity.
Qed.

(** The string-store branch written out as one decision tree. *)
Lemma middleware_redis key w :
  createCacheKey path input ctx cfg = Normal key →
  enabled (useUpstash cfg) = false →
  middleware JSON_parse cfg ctx path next input w =
    if connect_throws (broken w) || get_throws (broken w) then call next w
    else
      let cachedData := payload <$> redis w !! key in
      if nonempty cachedData then
        match JSON_parse (default EmptyString cachedData) with
        | Normal cached => (Normal cached, w)
        | Throw _ => call next w
        end
      else
        match next (calls w) with
        | Throw _ => call next (bump w)
        | Normal result =>
            match JSON_stringify (sanitizeForCache result) with
            | Normal (Some text) =>
                if set_throws (broken w) then call next (bump w)
                else (Normal result,
                      with_redis (bump w) (<[key := Entry text (ttl cfg)]> (redis w)))
            | _ => call next (bump w)
            end
        end.
Proof.
  intros Hk Hu. run. rewrite Hk, Hu.
  destruct (connect_throws (broken w)); simpl; [reflexivity|].
  destruct (get_throws (broken w)); simpl; [reflexivity|].
  destruct (nonempty _).
  { destruct (JSON_parse _); reflexivity. }
  destruct (next (calls w)) as [result|e]; [|reflexivity].
  destruct (JSON_stringify (sanitizeForCache result)) as [[text|]|e]; simpl;
    destruct (ttl cfg); simpl; try reflexivity;
    destruct (set_throws (broken w)); reflexivity.
Qed.
End MiddlewareFacts.

(** ** Lookups, hits and misses *)

Lemma getUpstashRedis_ok w :
  getUpstashRedis w = (Normal tt, w) ↔ connect_throws (broken w) = false.
Proof.
  unfold getUpstashRedis. destruct (connect_throws (broken w)); split; intros H;
    try reflexivity; discriminate.
Qed.

Lemma upstash_get_ok key w cachedData :
  upstash_get key w = (Normal cachedData, w) ↔
  get_throws (broken w) = false
  ∧ cachedData = match upstash w !! key with Some e => payload e | None => VNull end.
Proof.
  unfold upstash_get. destruct (get_throws (broken w)); split.
  - discriminate.
  - intros [? _]; discriminate.
  - intros [= <-]. split; reflexivity.
  - intros [_ ->]. reflexivity.
Qed.

Lemma redis_get_ok key w cachedData :
  redis_get key w = (Normal cachedData, w) ↔
  get_throws (broken w) = false ∧ cachedData = payload <$> redis w !! key.
Proof.
  unfold redis_get. destruct (get_throws (broken w)); split.
  - discriminate.
  - intros [? _]; discriminate.
  - intros [= <-]. split; reflexivity.
  - intros [_ ->]. reflexivity.
Qed.

Lemma same_backends_bump w : same_backends w (bump w).
Proof. repeat split. Qed.

Lemma same_backends_call next w : same_backends w (call next w).2.
Proof. repeat split. Qed.

Lemma same_backends_trans w1 w2 w3 :
  same_backends w1 w2 → same_backends w2 w3 → same_backends w1 w3.
Proof. intros (?&?&?) (?&?&?). repeat split; congruence. Qed.

Section HitsAndMisses.
Variable JSON_parse : string → completion value.
Variables (cfg : CacheConfig) (ctx : TRPCContext) (path : string)
          (next : procedure) (input : value).
Variable key : string.
Hypothesis Hkey : createCacheKey path input ctx cfg = Normal key.

(** A lookup cannot both pass and fail the hit test, and it depends on the
    backends only. *)
Lemma hit_excludes_miss w w' cached :
  same_backends w w' → cache_hit JSON_parse cfg key w' cached → ¬ cache_miss cfg key w.
Proof.
  intros (Hu & Hr & Hb) Hhit Hmiss.
  destruct Hhit as [c Hup _ Hget Ht | text c Hup _ Hget Ht _];
    destruct Hmiss as [d Hup' _ Hget' Hf | d Hup' _ Hget' Hf]; try congruence.
  - apply upstash_get_ok in Hget as [_ ->]. apply upstash_get_ok in Hget' as [_ ->].
    rewrite Hu in Ht. congruence.
  - apply redis_get_ok in Hget as [_ Hget]. apply redis_get_ok in Hget' as [_ ->].
    rewrite Hr in Hget. rewrite <- Hget in Hf. congruence.
Qed.

(** Step 2 of the orchestrator: a hit is returned at once; the world, and
    with it the call counter of the wrapped procedure, is left as it was. *)
Lemma hit_returns_cached w cached :
  cache_hit JSON_parse cfg key w cached →
  middleware JSON_parse cfg ctx path next input w = (Normal cached, w).
Proof.
  intros [c Hup Hc Hget Ht | text c Hup Hc Hget Ht Hparse].
  - rewrite (middleware_upstash _ _ _ _ _ _ key) by assumption.
    apply getUpstashRedis_ok in Hc. apply upstash_get_ok in Hget as [Hg ->].
    rewrite Hc, Hg. simpl. simpl in Ht. rewrite Ht. reflexivity.
  - rewrite (middleware_redis _ _ _ _ _ _ key) by assumption.
    apply getUpstashRedis_ok in Hc. apply redis_get_ok in Hget as [Hg Hget].
    rewrite Hc, Hg. simpl. rewrite <- Hget. rewrite Ht. simpl. rewrite Hparse.
    reflexivity.
Qed.

Lemma miss_runs w :
  cache_miss cfg key w →
  ∃ r w', middleware JSON_parse cfg ctx path next input w = (r, w') ∧ miss_run cfg key next w r w'.
Proof.
  intros [c Hup Hc Hget Ht | c Hup Hc Hget Ht].
  - rewrite (middleware_upstash _ _ _ _ _ _ key) by assumption.
    apply getUpstashRedis_ok in Hc. apply upstash_get_ok in Hget as [Hg ->].
    rewrite Hc, Hg. simpl. simpl in Ht. rewrite Ht.
    destruct (next (calls w)) as [result|e] eqn:En.
    + destruct (set_throws (broken w)).
      * eexists _, _. split; [reflexivity|]. apply miss_retried.
      * eexists _, _. split; [reflexivity|].
        apply miss_stored; try reflexivity; try assumption.
        unfold cached_as. rewrite Hup. simpl. apply lookup_insert_eq.
    + eexists _, _. split; [reflexivity|]. apply miss_retried.
  - rewrite (middleware_redis _ _ _ _ _ _ key) by assumption.
    apply getUpstashRedis_ok in Hc. apply redis_get_ok in Hget as [Hg ->].
    rewrite Hc, Hg. simpl. rewrite Ht.
    destruct (next (calls w)) as [result|e] eqn:En.
    + destruct (JSON_stringify (sanitizeForCache result)) as [[text|]|e] eqn:Es.
      * destruct (set_throws (broken w)).
        -- eexists _, _. split; [reflexivity|]. apply miss_retried.
        -- eexists _, _. split; [reflexivity|].
           apply miss_stored; try reflexivity; try assumption.
           unfold cached_as. rewrite Hup. exists text. split; [assumption|].
           simpl. apply lookup_insert_eq.
      * eexists _, _. split; [reflexivity|]. apply miss_retried.
      * eexists _, _. split; [reflexivity|]. apply miss_retried.
    + eexists _, _. split; [reflexivity|]. apply miss_retried.
Qed.

(** A miss whose procedure returns and whose write goes through. *)
Lemma miss_stores w result :
  cache_miss cfg key w →
  next (calls w) = Normal result →
  set_throws (broken w) = false →
  storable cfg (sanitizeForCache result) →
  ∃ w', middleware JSON_parse cfg ctx path next input w = (Normal result, w')
        ∧ calls w' = S (calls w)
        ∧ broken w' = broken w
        ∧ cached_as cfg key w' (sanitizeForCache result).
Proof.
  intros [c Hup Hc Hget Ht | c Hup Hc Hget Ht] Hn Hs Hst.
  - rewrite (middleware_upstash _ _ _ _ _ _ key) by assumption.
    apply getUpstashRedis_ok in Hc. apply upstash_get_ok in Hget as [Hg ->].
    rewrite Hc, Hg. simpl. simpl in Ht. rewrite Ht, Hn, Hs.
    eexists. split; [reflexivity|]. repeat split.
    unfold cached_as. rewrite Hup. simpl. apply lookup_insert_eq.
  - destruct Hst as [Hst|[text Htext]]; [congruence|].
    rewrite (middleware_redis _ _ _ _ _ _ key) by assumption.
    apply getUpstashRedis_ok in Hc. apply redis_get_ok in Hget as [Hg ->].
    rewrite Hc, Hg. simpl. rewrite Ht, Hn, Htext, Hs.
    eexists. split; [reflexivity|]. repeat split.
    unfold cached_as. rewrite Hup. exists text. split; [assumption|].
    simpl. apply lookup_insert_eq.
Qed.
End HitsAndMisses.

(** ** C2: a hit short-circuits the call *)

(** C2. When the lookup for the derived key is a hit, the middleware returns
    the cached value at once and leaves the world untouched, so the wrapped
    procedure is not invoked.  Hence in a miss-then-hit sequence of two calls
    with the same arguments the procedure runs exactly once: the first call
    runs it once and returns its result, the second does not run it. *)
Theorem hit_short_circuits_and_miss_then_hit_runs_once
    (JSON_parse : string → completion value) (cfg : CacheConfig) (ctx : TRPCContext)
    (path : string) (next : procedure) (input : value) (key : string) :
  createCacheKey path input ctx cfg = Normal key →
  (∀ w cached,
      cache_hit JSON_parse cfg key w cached →
      middleware JSON_parse cfg ctx path next input w = (Normal cached, w))
  ∧ (∀ w r1 w1 cached,
      cache_miss cfg key w →
      middleware JSON_parse cfg ctx path next input w = (r1, w1) →
      cache_hit JSON_parse cfg key w1 cached →
      r1 = next (calls w)
      ∧ calls w1 = S (calls w)
      ∧ ∃ w2, middleware JSON_parse cfg ctx path next input w1 = (Normal cached, w2)
              ∧ calls w2 = S (calls w)).
Proof.
  intros Hkey. split.
  - intros w cached. exact (hit_returns_cached _ _ _ _ _ _ key Hkey w cached).
  - intros w r1 w1 cached Hmiss Hrun Hhit.
    destruct (miss_runs JSON_parse cfg ctx path next input key Hkey w Hmiss)
      as (r & w' & Hrun' & Hcase).
    rewrite Hrun in Hrun'. injection Hrun' as <- <-.
    destruct Hcase as [result w' Hn Hc Hb Hs|].
    + split; [congruence|]. split; [exact Hc|].
      exists w'. split; [|exact Hc].
      exact (hit_returns_cached _ _ _ _ _ _ key Hkey w' cached Hhit).
    + exfalso. revert Hmiss.
      apply (hit_excludes_miss JSON_parse cfg key w (bump (bump w)) cached); [|exact Hhit].
      repeat split.
Qed.

Lemma hit_short_circuits_witness :
  createCacheKey sample_path sample_input sample_ctx defaultCacheConfig = Normal sample_key
  ∧ calls (middleware parse_unavailable defaultCacheConfig sample_ctx sample_path succeeding
             sample_input
             (middleware parse_unavailable defaultCacheConfig sample_ctx sample_path succeeding
                sample_input fresh).2).2 = 1%nat.
Proof.
  split; [reflexivity|].
  destruct (hit_short_circuits_and_miss_then_hit_runs_once parse_unavailable
              defaultCacheConfig sample_ctx sample_path succeeding sample_input sample_key
              eq_refl) as [_ Hseq].
  destruct (Hseq fresh
              (middleware parse_unavailable defaultCacheConfig sample_ctx sample_path
                 succeeding sample_input fresh).1
              (middleware parse_unavailable defaultCacheConfig sample_ctx sample_path
                 succeeding sample_input fresh).2
              (sanitizeForCache sample_result))
    as (_ & _ & w2 & Hrun & Hcalls).
  - apply (miss_upstash _ _ _ VNull); reflexivity.
  - apply surjective_pairing.
  - apply hit_upstash; vm_compute; reflexivity.
  - rewrite Hrun. exact Hcalls.
Defined.

(** The miss-then-hit sequence of the tests on the string store: the first
    call writes the JSON text with the default expiry, the second returns
    the parsed text and does not run the procedure. *)
Example string_store_miss_then_hit :
  string_call.1 = Normal sample_result
  ∧ redis string_call.2 !! sample_key = Some (Entry sample_text (Some 60))
  ∧ middleware parse_sample string_config sample_ctx sample_path succeeding sample_input
      string_call.2 = (Normal sample_result, string_call.2)
  ∧ calls string_call.2 = 1%nat.
Proof. repeat split; vm_compute; reflexivity. Qed.

(** ** C10: the hit test is JavaScript truthiness *)

(** A lookup that reads a falsy value is a miss: the wrapped procedure is
    invoked, what the caller gets is the outcome of an invocation and never
    the entry, and when the procedure returns and the write goes through its
    sanitized result is written. *)
Lemma falsy_read_is_a_miss
    (JSON_parse : string → completion value) (cfg : CacheConfig) (ctx : TRPCContext)
    (path : string) (next : procedure) (input : value) (key : string) (w : world) :
  createCacheKey path input ctx cfg = Normal key →
  cache_miss cfg key w →
  ∃ r w',
    middleware JSON_parse cfg ctx path next input w = (r, w')
    ∧ (calls w < calls w')%nat
    ∧ r = next (pred (calls w'))
    ∧ ∀ result,
        next (calls w) = Normal result →
        set_throws (broken w) = false →
        storable cfg (sanitizeForCache result) →
        r = Normal result
        ∧ calls w' = S (calls w)
        ∧ cached_as cfg key w' (sanitizeForCache result).
Proof.
  intros Hkey Hmiss.
  destruct (miss_runs JSON_parse cfg ctx path next input key Hkey w Hmiss)
    as (r & w' & Hrun & Hcase).
  exists r, w'. split; [exact Hrun|].
  assert (Hsuccess : ∀ result,
            next (calls w) = Normal result →
            set_throws (broken w) = false →
            storable cfg (sanitizeForCache result) →
            r = Normal result ∧ calls w' = S (calls w)
            ∧ cached_as cfg key w' (sanitizeForCache result)).
  { intros result Hn Hs Hst.
    destruct (miss_stores JSON_parse cfg ctx path next input key Hkey w result Hmiss Hn Hs Hst)
      as (w'' & Hrun' & Hc' & _ & Hs').
    rewrite Hrun in Hrun'. injection Hrun' as -> ->. auto. }
  destruct Hcase as [result w' Hn Hc Hb Hs|].
  - split; [rewrite Hc; lia|]. split; [rewrite Hc; simpl; congruence|exact Hsuccess].
  - simpl. split; [lia|]. split; [reflexivity|exact Hsuccess].
Qed.

(** On the native store a falsy entry stays a miss for as long as the
    results written over it are falsy: every call runs the procedure. *)
Lemma falsy_entries_run_every_time
    (JSON_parse : string → completion value) (cfg : CacheConfig) (ctx : TRPCContext)
    (path : string) (next : procedure) (input : value) (key : string) :
  createCacheKey path input ctx cfg = Normal key →
  enabled (useUpstash cfg) = true →
  (∀ i, ∃ v, next i = Normal v ∧ truthy (sanitizeForCache v) = false) →
  ∀ n w,
    connect_throws (broken w) = false →
    get_throws (broken w) = false →
    set_throws (broken w) = false →
    cache_miss cfg key w →
    let wn := repeatedly n (middleware JSON_parse cfg ctx path next input) w in
    calls wn = (calls w + n)%nat
    ∧ broken wn = broken w
    ∧ cache_miss cfg key wn.
Proof.
  intros Hkey Hup Hnext n.
  induction n as [|n IH]; intros w Hc Hg Hs Hmiss; simpl.
  { split; [lia|]. split; [reflexivity|exact Hmiss]. }
  destruct (Hnext (calls w)) as (v & Hv & Hfalsy).
  destruct (miss_stores JSON_parse cfg ctx path next input key Hkey w v)
    as (w' & Hrun & Hcalls & Hb & Hstored); try assumption.
  { left. exact Hup. }
  rewrite Hrun. simpl.
  unfold cached_as in Hstored. rewrite Hup in Hstored.
  destruct (IH w') as (Hn & Hbn & Hmn); try (rewrite Hb; assumption).
  { apply (miss_upstash _ _ _ (sanitizeForCache v)); try assumption.
    - apply getUpstashRedis_ok. rewrite Hb. exact Hc.
    - apply upstash_get_ok. rewrite Hb, Hstored. split; [exact Hg|reflexivity]. }
  split; [rewrite Hn; lia|]. split; [congruence|exact Hmn].
Qed.

(** C10, as stated, fails on the string store: there the value read is the
    text of the entry, and the text of a falsy value is not falsy.  A
    procedure returns 0; the first call writes the text 0, and the second
    call is served the cached 0 without the procedure being run again. *)
Lemma cached_zero_is_served_by_the_string_store :
  zero_call.1 = Normal (VNumber (Int 0))
  ∧ payload <$> redis zero_call.2 !! sample_key = Some "0"
  ∧ calls zero_call.2 = 1%nat
  ∧ middleware parse_zero string_config sample_ctx sample_path zero_procedure
      sample_input zero_call.2 = (Normal (VNumber (Int 0)), zero_call.2).
Proof. repeat split; vm_compute; reflexivity. Qed.

(** C10, amended.  The hit test is the truthiness of the value read from the
    backend.  On the native store that value is the value that was cached:
    an entry whose value is falsy (0, false, the empty string, null, NaN) is
    never served; a call with its key runs the wrapped procedure, returns
    the outcome of an invocation and, when the procedure returns and the
    write goes through, writes the sanitized result in its place; and as
    long as the results are falsy too this happens on every call.  On the
    string store the value read is the text of the entry: an entry with a
    text that is not empty is served when the text parses, whatever value it
    denotes, a falsy one included. *)
Theorem falsy_cached_value_is_a_miss
    (JSON_parse : string → completion value) (cfg : CacheConfig) (ctx : TRPCContext)
    (path : string) (next : procedure) (input : value) (key : string) (w : world) :
  createCacheKey path input ctx cfg = Normal key →
  connect_throws (broken w) = false →
  get_throws (broken w) = false →
  (∀ e,
     enabled (useUpstash cfg) = true →
     upstash w !! key = Some e →
     truthy (payload e) = false →
     (∃ r w',
        middleware JSON_parse cfg ctx path next input w = (r, w')
        ∧ (calls w < calls w')%nat
        ∧ r = next (pred (calls w'))
        ∧ ∀ result,
            next (calls w) = Normal result →
            set_throws (broken w) = false →
            r = Normal result
            ∧ calls w' = S (calls w)
            ∧ upstash w' !! key = Some (Entry (sanitizeForCache result) (ttl cfg)))
     ∧ (set_throws (broken w) = false →
        (∀ i, ∃ v, next i = Normal v ∧ truthy (sanitizeForCache v) = false) →
        ∀ n,
          let wn := repeatedly n (middleware JSON_parse cfg ctx path next input) w in
          calls wn = (calls w + n)%nat
          ∧ (middleware JSON_parse cfg ctx path next input wn).1 = next (calls w + n)%nat
          ∧ calls (middleware JSON_parse cfg ctx path next input wn).2 = S (calls w + n)))
  ∧ (∀ e cached,
       enabled (useUpstash cfg) = false →
       redis w !! key = Some e →
       payload e ≠ EmptyString →
       JSON_parse (payload e) = Normal cached →
       middleware JSON_parse cfg ctx path next input w = (Normal cached, w)).
Proof.
  intros Hkey Hc Hg. split.
  - intros e Hup He Hfalsy.
    assert (Hmiss : cache_miss cfg key w).
    { apply (miss_upstash _ _ _ (payload e)); try assumption.
      - apply getUpstashRedis_ok. exact Hc.
      - apply upstash_get_ok. rewrite He. split; [exact Hg|reflexivity]. }
    split.
    + destruct (falsy_read_is_a_miss JSON_parse cfg ctx path next input key w Hkey Hmiss)
        as (r & w' & Hrun & Hlt & Hr & Hstored).
      exists r, w'. split; [exact Hrun|]. split; [exact Hlt|]. split; [exact Hr|].
      intros result Hn Hs.
      destruct (Hstored result Hn Hs (or_introl Hup)) as (Hres & Hcalls & Hcached).
      unfold cached_as in Hcached. rewrite Hup in Hcached. auto.
    + intros Hs Hnext n wn.
      destruct (falsy_entries_run_every_time JSON_parse cfg ctx path next input key
                  Hkey Hup Hnext n w Hc Hg Hs Hmiss) as (Hn & Hb & Hmn).
      fold wn in Hn, Hb, Hmn.
      destruct (Hnext (calls wn)) as (v & Hv & _).
      destruct (miss_stores JSON_parse cfg ctx path next input key Hkey wn v)
        as (w' & Hrun & Hcalls & _); try assumption.
      { rewrite Hb. exact Hs. } { left. exact Hup. }
      split; [exact Hn|]. rewrite Hrun. simpl. split; [congruence|congruence].
  - intros e cached Hup He Hne Hparse.
    apply (hit_returns_cached JSON_parse cfg ctx path next input key Hkey).
    apply (hit_redis _ _ _ _ (payload e)); try assumption.
    + apply getUpstashRedis_ok. exact Hc.
    + apply redis_get_ok. rewrite He. split; [exact Hg|reflexivity].
    + simpl. destruct (String.eqb_spec (payload e) EmptyString); [contradiction|reflexivity].
Qed.

Lemma falsy_cached_value_witness :
  createCacheKey sample_path sample_input sample_ctx defaultCacheConfig = Normal sample_key
  ∧ upstash zero_cached !! sample_key = Some (Entry (VNumber (Int 0)) (Some 60))
  ∧ ∃ w', middleware parse_unavailable defaultCacheConfig sample_ctx sample_path succeeding
            sample_input zero_cached = (Normal sample_result, w')
          ∧ calls w' = 1%nat
          ∧ upstash w' !! sample_key
            = Some (Entry (sanitizeForCache sample_result) (Some 60)).
Proof.
  assert (Hentry : upstash zero_cached !! sample_key = Some (Entry (VNumber (Int 0)) (Some 60)))
    by reflexivity.
  split; [reflexivity|]. split; [exact Hentry|].
  destruct (proj1 (falsy_cached_value_is_a_miss parse_unavailable defaultCacheConfig sample_ctx
                     sample_path succeeding sample_input sample_key zero_cached
                     eq_refl eq_refl eq_refl)
              (Entry (VNumber (Int 0)) (Some 60)) eq_refl Hentry eq_refl)
    as [(r & w' & Hrun & _ & _ & Hstored) _].
  destruct (Hstored sample_result eq_refl eq_refl) as (-> & Hc & Hs).
  exists w'. split; [exact Hrun|]. split; [exact Hc|exact Hs].
Defined.

(** The four falsy values the claim names, read from the native store. *)
Lemma falsy_values_miss (cfg : CacheConfig) (key : string) (w : world) (v : value) :
  enabled (useUpstash cfg) = true →
  broken w = healthy →
  payload <$> upstash w !! key = Some v →
  v ∈ [VNumber (Int 0); VBool false; VString EmptyString; VNull] →
  cache_miss cfg key w.
Proof.
  intros Hup Hb Hv Hin. apply (miss_upstash _ _ _ v); try assumption.
  - apply getUpstashRedis_ok. rewrite Hb. reflexivity.
  - apply upstash_get_ok. rewrite Hb. split; [reflexivity|].
    destruct (upstash w !! key); simpl in Hv; congruence.
  - repeat (apply elem_of_cons in Hin as [->|Hin]; [reflexivity|]).
    apply elem_of_nil in Hin as [].
Qed.

(** On the native store a procedure that keeps returning a falsy value is
    run again by every single call. *)
Lemma falsy_result_runs_every_time
    (JSON_parse : string → completion value) (cfg : CacheConfig) (ctx : TRPCContext)
    (path : string) (next : procedure) (input : value) (key : string) (v : value) :
  createCacheKey path input ctx cfg = Normal key →
  enabled (useUpstash cfg) = true →
  (∀ i, next i = Normal v) →
  truthy (sanitizeForCache v) = false →
  ∀ n w,
    broken w = healthy →
    cache_miss cfg key w →
    calls (repeatedly n (middleware JSON_parse cfg ctx path next input) w) = (calls w + n)%nat.
Proof.
  intros Hkey Hup Hnext Hfalsy n.
  induction n as [|n IH]; intros w Hb Hmiss; simpl; [lia|].
  destruct (miss_stores JSON_parse cfg ctx path next input key Hkey w v)
    as (w' & Hrun & Hc & Hb' & Hs); try assumption.
  { apply Hnext. } { rewrite Hb. reflexivity. } { left. exact Hup. }
  rewrite Hrun. simpl. rewrite IH; [lia|congruence|].
  unfold cached_as in Hs. rewrite Hup in Hs.
  apply (miss_upstash _ _ _ (sanitizeForCache v)); try assumption.
  - apply getUpstashRedis_ok. rewrite Hb', Hb. reflexivity.
  - apply upstash_get_ok. rewrite Hb', Hb, Hs. split; reflexivity.
Qed.

(** The string store never reads the number 0: the result 0 is written as
    the one-character text 0, which is truthy, and the next lookup is a hit. *)
Lemma string_store_serves_zero
    (JSON_parse : string → completion value) (cfg : CacheConfig) (ctx : TRPCContext)
    (path : string) (next : procedure) (input : value) (key : string) (w : world) :
  createCacheKey path input ctx cfg = Normal key →
  enabled (useUpstash cfg) = false →
  cache_miss cfg key w →
  next (calls w) = Normal (VNumber (Int 0)) →
  set_throws (broken w) = false →
  JSON_parse "0" = Normal (VNumber (Int 0)) →
  ∃ w', middleware JSON_parse cfg ctx path next input w = (Normal (VNumber (Int 0)), w')
        ∧ cache_hit JSON_parse cfg key w' (VNumber (Int 0)).
Proof.
  intros Hkey Hup Hmiss Hn Hs Hparse.
  destruct (miss_stores JSON_parse cfg ctx path next input key Hkey w _ Hmiss Hn Hs)
    as (w' & Hrun & _ & Hb & Hcached).
  { right. exists "0". reflexivity. }
  exists w'. split; [exact Hrun|].
  unfold cached_as in Hcached. rewrite Hup in Hcached.
  destruct Hcached as (text & [= <-] & Hentry).
  destruct Hmiss as [c Hup' _ _ _ | c _ Hc Hget _]; [congruence|].
  apply getUpstashRedis_ok in Hc. apply redis_get_ok in Hget as [Hg _].
  apply (hit_redis _ _ _ _ "0"); try assumption.
  - apply getUpstashRedis_ok. congruence.
  - apply redis_get_ok. rewrite Hb, Hg, Hentry. split; reflexivity.
  - reflexivity.
Qed.

(** ** C1, C3: what happens when the wrapped procedure fails *)

(** C1 (the code departs from it).  A failure-shaped result, [ok: false], is
    sanitized and written like any other: after one call with the failing
    procedure of the tests the native store holds an entry, and the second
    call is served from it without running the procedure. *)
Theorem failure_shaped_result_is_cached :
  failing_call.1 = Normal failure_result
  ∧ upstash failing_call.2 !! sample_key
    = Some (Entry (sanitizeForCache failure_result) (Some 60))
  ∧ failing_call_again.1 = Normal (sanitizeForCache failure_result)
  ∧ calls failing_call_again.2 = 1%nat.
Proof. repeat split; vm_compute; reflexivity. Qed.

(** When the procedure throws after a miss, the handler runs it again and
    nothing is written. *)
Lemma thrown_failure_runs_twice
    (JSON_parse : string → completion value) (cfg : CacheConfig) (ctx : TRPCContext)
    (path : string) (next : procedure) (input : value) (key : string) (w : world) e :
  createCacheKey path input ctx cfg = Normal key →
  cache_miss cfg key w →
  next (calls w) = Throw e →
  middleware JSON_parse cfg ctx path next input w = (next (S (calls w)), bump (bump w)).
Proof.
  intros Hkey Hmiss Hn.
  destruct (miss_runs JSON_parse cfg ctx path next input key Hkey w Hmiss)
    as (r & w' & Hrun & Hcase).
  destruct Hcase as [result w' Hn' _ _ _|]; [congruence|exact Hrun].
Qed.

(** C3 (the code departs from it).  The wrapped procedure throws on its first
    run; the middleware does not propagate the failure but runs the procedure
    a second time and returns what that run returns. *)
Theorem thrown_failure_is_retried :
  middleware parse_unavailable defaultCacheConfig sample_ctx sample_path flaky
    sample_input fresh = (Normal sample_result, bump (bump fresh))
  ∧ flaky (calls fresh) = Throw (ProcedureError "boom")
  ∧ calls (bump (bump fresh)) = 2%nat.
Proof. repeat split. Qed.

(** ** C4: failures of the cache are isolated, key derivation is not *)

(** C4, as stated, fails: an input that [JSON.stringify] refuses makes the key
    derivation throw, the exception reaches the caller, and the wrapped
    procedure is never run (the world, call counter included, is unchanged). *)
Lemma key_derivation_failure_propagates :
  middleware parse_unavailable defaultCacheConfig sample_ctx sample_path succeeding
    bigint_input fresh = (Throw bigint_error, fresh).
Proof. reflexivity. Qed.

(** The cases of [cache_failure] are all there is: once the key is derived,
    a call is a hit, or a miss whose procedure throws, or a miss whose result
    is written, or one of the failures of the cache. *)
Lemma cache_failure_exhaustive
    (JSON_parse : string → completion value) (cfg : CacheConfig)
    (next : procedure) (key : string) (w : world) :
  (∃ cached, cache_hit JSON_parse cfg key w cached)
  ∨ cache_failure JSON_parse cfg key next w w
  ∨ (cache_miss cfg key w
     ∧ ((∃ e, next (calls w) = Throw e)
        ∨ cache_failure JSON_parse cfg key next w (bump w)
        ∨ ∃ result, next (calls w) = Normal result
                    ∧ set_throws (broken w) = false
                    ∧ storable cfg (sanitizeForCache result))).
Proof.
  destruct (connect_throws (broken w)) eqn:Hc; [right; left; apply connect_fails; exact Hc|].
  destruct (get_throws (broken w)) eqn:Hg; [right; left; apply read_fails; assumption|].
  assert (Hclient : getUpstashRedis w = (Normal tt, w)) by (apply getUpstashRedis_ok; exact Hc).
  destruct (enabled (useUpstash cfg)) eqn:Hup.
  - set (cachedData := match upstash w !! key with Some e => payload e | None => VNull end).
    assert (Hget : upstash_get key w = (Normal cachedData, w))
      by (apply upstash_get_ok; split; [exact Hg|reflexivity]).
    destruct (truthy cachedData) eqn:Ht.
    { left. exists cachedData. apply (hit_upstash _ _ _ _ cachedData); assumption. }
    assert (Hmiss : cache_miss cfg key w)
      by (apply (miss_upstash _ _ _ cachedData); assumption).
    right. right. split; [exact Hmiss|].
    destruct (next (calls w)) as [result|e] eqn:Hn; [|left; eauto].
    right. destruct (set_throws (broken w)) eqn:Hs.
    + left. apply (write_fails _ _ _ _ _ result); assumption.
    + right. exists result. repeat split; try assumption. left. exact Hup.
  - assert (Hget : redis_get key w = (Normal (payload <$> redis w !! key), w))
      by (apply redis_get_ok; split; [exact Hg|reflexivity]).
    destruct (nonempty (payload <$> redis w !! key)) eqn:Ht.
    { destruct (payload <$> redis w !! key) as [text|] eqn:Hread; [|discriminate Ht].
      destruct (JSON_parse text) as [cached|e] eqn:Hparse.
      - left. exists cached. apply (hit_redis _ _ _ _ text cached); assumption.
      - right. left. apply (parse_fails _ _ _ _ _ text e); assumption. }
    assert (Hmiss : cache_miss cfg key w)
      by (apply (miss_redis _ _ _ (payload <$> redis w !! key)); assumption).
    right. right. split; [exact Hmiss|].
    destruct (next (calls w)) as [result|e] eqn:Hn; [|left; eauto].
    right. destruct (JSON_stringify (sanitizeForCache result)) as [[text|]|e] eqn:Hs.
    + destruct (set_throws (broken w)) eqn:Hset.
      * left. apply (write_fails _ _ _ _ _ result); assumption.
      * right. exists result. repeat split; try assumption. right. eauto.
    + left. apply (text_missing _ _ _ _ _ result); assumption.
    + left. apply (stringify_fails _ _ _ _ _ result e); assumption.
Qed.

(** C4, amended.  When the connection factory, the read, the parse of the
    text read, or the write throws (the client's command, the
    [JSON.stringify] of its argument, or the client's refusal of the
    [undefined] that [JSON.stringify] returned), the exception does not
    reach the caller: the middleware runs the wrapped procedure in the world
    where the exception was raised and returns the outcome of that run; the
    backends are as they were before the call. *)
Theorem cache_failure_falls_back
    (JSON_parse : string → completion value) (cfg : CacheConfig) (ctx : TRPCContext)
    (path : string) (next : procedure) (input : value) (key : string) (w w1 : world) :
  createCacheKey path input ctx cfg = Normal key →
  cache_failure JSON_parse cfg key next w w1 →
  middleware JSON_parse cfg ctx path next input w = (next (calls w1), bump w1)
  ∧ same_backends w (bump w1).
Proof.
  intros Hkey Hfail.
  assert (Hbranch :
    middleware JSON_parse cfg ctx path next input w =
    if enabled (useUpstash cfg)
    then middleware JSON_parse cfg ctx path next input w
    else middleware JSON_parse cfg ctx path next input w) by (destruct (enabled _); reflexivity).
  destruct Hfail as [Hc | Hc Hg | text e Hup Hc Hget Ht Hparse | result Hmiss Hn Hs
                    | result e Hup Hmiss Hn Hs | result Hup Hmiss Hn Hs].
  - split; [|repeat split].
    destruct (enabled (useUpstash cfg)) eqn:Hup;
      [rewrite (middleware_upstash _ _ _ _ _ _ key) by assumption
      |rewrite (middleware_redis _ _ _ _ _ _ key) by assumption];
      rewrite Hc; reflexivity.
  - split; [|repeat split].
    destruct (enabled (useUpstash cfg)) eqn:Hup;
      [rewrite (middleware_upstash _ _ _ _ _ _ key) by assumption
      |rewrite (middleware_redis _ _ _ _ _ _ key) by assumption];
      rewrite Hc, Hg; reflexivity.
  - split; [|repeat split].
    rewrite (middleware_redis _ _ _ _ _ _ key) by assumption.
    apply getUpstashRedis_ok in Hc. apply redis_get_ok in Hget as [Hg Hget].
    rewrite Hc, Hg. simpl. rewrite <- Hget, Ht. simpl. rewrite Hparse. reflexivity.
  - split; [|repeat split].
    destruct Hmiss as [c Hup Hc Hget Ht | c Hup Hc Hget Ht].
    + rewrite (middleware_upstash _ _ _ _ _ _ key) by assumption.
      apply getUpstashRedis_ok in Hc. apply upstash_get_ok in Hget as [Hg ->].
      rewrite Hc, Hg. simpl. simpl in Ht. rewrite Ht, Hn, Hs. reflexivity.
    + rewrite (middleware_redis _ _ _ _ _ _ key) by assumption.
      apply getUpstashRedis_ok in Hc. apply redis_get_ok in Hget as [Hg ->].
      rewrite Hc, Hg. simpl. rewrite Ht, Hn, Hs.
      destruct (JSON_stringify (sanitizeForCache result)) as [[text|]|e]; reflexivity.
  - split; [|repeat split].
    destruct Hmiss as [c Hup' _ _ _ | c _ Hc Hget Ht]; [congruence|].
    rewrite (middleware_redis _ _ _ _ _ _ key) by assumption.
    apply getUpstashRedis_ok in Hc. apply redis_get_ok in Hget as [Hg ->].
    rewrite Hc, Hg. simpl. rewrite Ht, Hn, Hs. reflexivity.
  - split; [|repeat split].
    destruct Hmiss as [c Hup' _ _ _ | c _ Hc Hget Ht]; [congruence|].
    rewrite (middleware_redis _ _ _ _ _ _ key) by assumption.
    apply getUpstashRedis_ok in Hc. apply redis_get_ok in Hget as [Hg ->].
    rewrite Hc, Hg. simpl. rewrite Ht, Hn, Hs. reflexivity.
Qed.

Lemma cache_failure_witness :
  createCacheKey sample_path sample_input sample_ctx defaultCacheConfig = Normal sample_key
  ∧ cache_failure parse_unavailable defaultCacheConfig sample_key succeeding
      read_only (bump read_only)
  ∧ middleware parse_unavailable defaultCacheConfig sample_ctx sample_path succeeding
      sample_input read_only = (Normal sample_result, bump (bump read_only)).
Proof.
  assert (Hfail : cache_failure parse_unavailable defaultCacheConfig sample_key succeeding
                    read_only (bump read_only)).
  { apply (write_fails _ _ _ _ _ sample_result); try reflexivity.
    apply (miss_upstash _ _ _ VNull); reflexivity. }
  split; [reflexivity|]. split; [exact Hfail|].
  exact (proj1 (cache_failure_falls_back parse_unavailable defaultCacheConfig sample_ctx
                  sample_path succeeding sample_input sample_key read_only (bump read_only)
                  eq_refl Hfail)).
Defined.

(** The write that fails without the client failing: the procedure returns
    [undefined], [JSON.stringify] returns [undefined] for it, the string
    client refuses the argument, and the handler runs the procedure again. *)
Example undefined_result_falls_back :
  cache_failure parse_unavailable string_config sample_key undefined_procedure
    fresh (bump fresh)
  ∧ middleware parse_unavailable string_config sample_ctx sample_path undefined_procedure
      sample_input fresh = (Normal VUndefined, bump (bump fresh)).
Proof.
  split; [|reflexivity].
  apply (text_missing _ _ _ _ _ VUndefined); try reflexivity.
  apply (miss_redis _ _ _ None); reflexivity.
Qed.

(** ** C5: time to live *)

Lemma merged_ttl (raw : CacheConfigInput) :
  ttl (merge_config defaultCacheConfig raw) =
  match in_ttl raw with
  | Absent => Some 60
  | Undefined => None
  | Given seconds => Some seconds
  end.
Proof. unfold merge_config. simpl. destruct (in_ttl raw); reflexivity. Qed.

Lemma createCacheMiddleware_accepts JSON_parse (raw : CacheConfigInput) :
  (∀ seconds, in_ttl raw = Given seconds → 0 < seconds) →
  createCacheMiddleware JSON_parse (Some raw)
  = Normal (middleware JSON_parse (merge_config defaultCacheConfig raw)).
Proof.
  intros Hpos. unfold createCacheMiddleware, cacheConfigSchema_parse. simpl.
  destruct (in_ttl raw) as [| |seconds] eqn:E; try reflexivity.
  specialize (Hpos seconds eq_refl).
  destruct (Z.leb_spec seconds 0); [lia|reflexivity].
Qed.

(** Whatever the configuration, a stored entry carries the merged [ttl]. *)
Lemma cached_as_expiry cfg key w sanitized :
  cached_as cfg key w sanitized → expiry_of cfg key w = Some (ttl cfg).
Proof.
  unfold cached_as, expiry_of. destruct (enabled (useUpstash cfg)).
  - intros ->. reflexivity.
  - intros (text & _ & ->). reflexivity.
Qed.

(** C5, as stated, fails: a configuration that does not mention [ttl] gets
    the default of 60 seconds, and the entry is written with that expiry. *)
Lemma omitted_ttl_defaults_to_sixty :
  ∃ mw,
    createCacheMiddleware parse_unavailable (Some no_config) = Normal mw
    ∧ expiry_of defaultCacheConfig sample_key
        (mw sample_ctx sample_path succeeding sample_input fresh).2 = Some (Some 60).
Proof. eexists. split; [reflexivity|]. vm_compute. reflexivity. Qed.

(** C5, amended.  When the configuration spells out [ttl: undefined], the
    merged configuration has no [ttl], and a successful result is written
    without expiry. *)
Theorem undefined_ttl_writes_permanent_entry
    (JSON_parse : string → completion value) (raw : CacheConfigInput) (ctx : TRPCContext)
    (path : string) (next : procedure) (input : value) (key : string) (w : world)
    (result : value) :
  in_ttl raw = Undefined →
  createCacheKey path input ctx (merge_config defaultCacheConfig raw) = Normal key →
  cache_miss (merge_config defaultCacheConfig raw) key w →
  next (calls w) = Normal result →
  set_throws (broken w) = false →
  storable (merge_config defaultCacheConfig raw) (sanitizeForCache result) →
  ∃ mw w',
    createCacheMiddleware JSON_parse (Some raw) = Normal mw
    ∧ mw ctx path next input w = (Normal result, w')
    ∧ cached_as (merge_config defaultCacheConfig raw) key w' (sanitizeForCache result)
    ∧ expiry_of (merge_config defaultCacheConfig raw) key w' = Some None.
Proof.
  intros Httl Hkey Hmiss Hn Hs Hst.
  destruct (miss_stores JSON_parse _ ctx path next input key Hkey w result Hmiss Hn Hs Hst)
    as (w' & Hrun & _ & _ & Hcached).
  exists (middleware JSON_parse (merge_config defaultCacheConfig raw)), w'.
  split.
  { apply createCacheMiddleware_accepts. intros seconds E. congruence. }
  split; [exact Hrun|]. split; [exact Hcached|].
  rewrite (cached_as_expiry _ _ _ _ Hcached), merged_ttl, Httl. reflexivity.
Qed.

Lemma undefined_ttl_witness :
  in_ttl permanent_config = Undefined
  ∧ ∃ w', middleware parse_unavailable (merge_config defaultCacheConfig permanent_config)
            sample_ctx sample_path succeeding sample_input fresh = (Normal sample_result, w')
          ∧ expiry_of (merge_config defaultCacheConfig permanent_config) sample_key w'
            = Some None.
Proof.
  split; [reflexivity|].
  destruct (undefined_ttl_writes_permanent_entry parse_unavailable permanent_config
              sample_ctx sample_path succeeding sample_input sample_key fresh sample_result)
    as (mw & w' & Hmw & Hrun & _ & Hexp).
  - reflexivity.
  - reflexivity.
  - apply (miss_upstash _ _ _ VNull); reflexivity.
  - reflexivity.
  - reflexivity.
  - left. reflexivity.
  - injection Hmw as <-. exists w'. split; [exact Hrun | exact Hexp].
Defined.

(** ** C6: the key scheme *)

Example createCacheKey_sample :
  createCacheKey "test.procedure" sample_input (ctx_of (Some "user-1")) defaultCacheConfig
  = Normal ("trpc:user:test.procedure:user-1:{" ++ dquote ++ "query" ++ dquote ++ ":"
            ++ dquote ++ "test" ++ dquote ++ "}").
Proof. reflexivity. Qed.

Lemma pretty_N_go_nonempty (x : N) (s : string) :
  s ≠ EmptyString → pretty_N_go x s ≠ EmptyString.
Proof.
  revert s. induction (N.lt_wf_0 x) as [x _ IH]; intros s Hs.
  destruct (decide (x = 0)%N) as [->|Hx].
  - rewrite pretty_N_go_0. exact Hs.
  - rewrite pretty_N_go_step by lia. apply IH.
    + apply N.div_lt; lia.
    + discriminate.
Qed.

Lemma pretty_N_nonempty (x : N) : pretty x ≠ EmptyString.
Proof.
  unfold pretty, pretty_N. destruct (decide (x = 0)%N) as [->|Hx]; [discriminate|].
  rewrite pretty_N_go_step by lia. apply pretty_N_go_nonempty. discriminate.
Qed.

Lemma number_text_nonempty (n : number) : number_text n ≠ EmptyString.
Proof.
  destruct n as [[|p|p]|]; simpl; try discriminate.
  apply (pretty_N_nonempty (Npos p)).
Qed.

(** Every JSON text is non-empty. *)
Lemma JSON_text_nonempty (v : value) (text : string) :
  JSON_stringify v = Normal (Some text) → text ≠ EmptyString.
Proof.
  unfold JSON_stringify.
  destruct v as [| |[]|n|s| | | |iso|items|p props]; simpl; try discriminate;
    try (intros [= <-]; discriminate).
  - intros [= <-]. apply number_text_nonempty.
  - intros H.
    match type of H with context [match ?l with Normal _ => _ | Throw _ => _ end] =>
      destruct l end; [injection H as <-|]; discriminate.
  - intros H.
    match type of H with context [match ?l with Normal _ => _ | Throw _ => _ end] =>
      destruct l end; [injection H as <-|]; discriminate.
Qed.

Lemma userId_of_identity (ctx : TRPCContext) :
  userId_of ctx = default "anonymous" (caller_identity ctx).
Proof.
  unfold userId_of, caller_identity.
  destruct (session ctx) as [s|]; [|reflexivity].
  destruct (user s); reflexivity.
Qed.

(** C6, as stated, fails: the keys start with [trpc:], not with [cache:];
    and the input string is empty for the input 0 as well, not only for an
    absent input. *)
Lemma key_prefix_is_trpc :
  createCacheKey sample_path VUndefined ctx_anonymous global_config
    = Normal "trpc:global:test.procedure:"
  ∧ createCacheKey sample_path VUndefined ctx_anonymous global_config
    ≠ Normal ("cache:global:" ++ sample_path ++ ":" ++ EmptyString)
  ∧ createCacheKey sample_path (VNumber (Int 0)) ctx_anonymous global_config
    = Normal "trpc:global:test.procedure:".
Proof. split; [reflexivity|]. split; [discriminate|reflexivity]. Qed.

(** C6, amended.  Without a custom key function the key is
    [trpc:global:<route>:<inputString>] when [globalCache] is set, else
    [trpc:user:<route>:<callerId>:<inputString>] when [userSpecific] is set,
    else [trpc:<route>:<inputString>].  The caller id is the identity of the
    context, or [anonymous] when it has none.  The input string is empty
    exactly when the input is falsy, and is otherwise what [JSON.stringify]
    makes of the input. *)
Theorem createCacheKey_default_scheme
    (path : string) (input : value) (ctx : TRPCContext) (cfg : CacheConfig)
    (inputString : option string) :
  getCacheKey cfg = None →
  inputString_of input = Normal inputString →
  createCacheKey path input ctx cfg
  = Normal
      (if enabled (globalCache cfg) then
         "trpc:global:" ++ path ++ ":" ++ template_text inputString
       else if enabled (userSpecific cfg) then
         "trpc:user:" ++ path ++ ":" ++ default "anonymous" (caller_identity ctx)
           ++ ":" ++ template_text inputString
       else "trpc:" ++ path ++ ":" ++ template_text inputString)
  ∧ (template_text inputString = EmptyString ↔ truthy input = false)
  ∧ (truthy input = true → JSON_stringify input = Normal inputString).
Proof.
  intros Hcustom Hin. split; [|split].
  - unfold createCacheKey. rewrite Hcustom, Hin, userId_of_identity.
    destruct (enabled (globalCache cfg)); [reflexivity|].
    destruct (enabled (userSpecific cfg)); reflexivity.
  - unfold inputString_of in Hin. destruct (truthy input).
    + split; [|discriminate]. intros Hempty. exfalso.
      destruct inputString as [text|]; [|discriminate].
      exact (JSON_text_nonempty _ _ Hin Hempty).
    + injection Hin as <-. split; reflexivity.
  - intros Ht. unfold inputString_of in Hin. rewrite Ht in Hin. exact Hin.
Qed.

Lemma createCacheKey_default_scheme_witness :
  getCacheKey defaultCacheConfig = None
  ∧ inputString_of sample_input
    = Normal (Some ("{" ++ dquote ++ "query" ++ dquote ++ ":" ++ dquote ++ "test" ++ dquote ++ "}"))
  ∧ createCacheKey sample_path sample_input sample_ctx defaultCacheConfig
    = Normal sample_key.
Proof.
  split; [reflexivity|]. split; [reflexivity|].
  exact (proj1 (createCacheKey_default_scheme sample_path sample_input sample_ctx
                  defaultCacheConfig _ eq_refl eq_refl)).
Defined.

(** ** C7: invalidation *)

(** The synthetic context carries the caller id only when it is a non-empty
    string. *)
Lemma mockCtx_identity (options : InvalidateOptions) :
  caller_identity (mockCtx options) =
  match spread None (opt_userId options) with
  | Some uid => if String.eqb uid EmptyString then None else Some uid
  | None => None
  end.
Proof.
  unfold mockCtx. destruct (spread None (opt_userId options)) as [uid|]; [|reflexivity].
  destruct (String.eqb uid EmptyString); reflexivity.
Qed.

(** For a caller without identity, or with a non-empty id, [invalidateCache]
    derives the key of the middleware whose key function, if any, and scope
    flags agree with the options. *)
Lemma invalidate_key_agrees
    (path : string) (input : value) (ctx : TRPCContext) (cfg : CacheConfig)
    (options : InvalidateOptions) :
  getCacheKey cfg = getCacheKey (invalidate_config options) →
  enabled (globalCache cfg) = enabled (globalCache (invalidate_config options)) →
  enabled (userSpecific cfg) = enabled (userSpecific (invalidate_config options)) →
  caller_identity ctx = spread None (opt_userId options) →
  caller_identity ctx ≠ Some EmptyString →
  invalidate_key path input options = createCacheKey path input ctx cfg.
Proof.
  intros Hcustom Hg Hu Hid Hne.
  unfold invalidate_key, createCacheKey. rewrite Hcustom, Hg, Hu.
  destruct (getCacheKey (invalidate_config options)) as [custom|]; [reflexivity|].
  simpl.
  rewrite !userId_of_identity, mockCtx_identity, <- Hid.
  destruct (caller_identity ctx) as [uid|]; [|reflexivity].
  destruct (String.eqb_spec uid EmptyString) as [->|_]; [congruence|reflexivity].
Qed.

(** Deleting the key of an entry turns the next lookup into a miss. *)
Lemma invalidate_then_miss
    (path : string) (input : value) (options : InvalidateOptions) (cfg : CacheConfig)
    (key : string) (w : world) :
  invalidate_key path input options = Normal key →
  enabled (useUpstash cfg) = enabled (useUpstash (invalidate_config options)) →
  broken w = healthy →
  ∃ w', invalidateCache path input (Some options) w = (Normal tt, w')
        ∧ calls w' = calls w
        ∧ cache_miss cfg key w'.
Proof.
  intros Hkey Hup Hb.
  unfold invalidateCache, try_catch, mbind, M_bind, lift, getStandardRedis,
    getUpstashRedis, upstash_del, redis_del.
  change (default no_options (Some options)) with options.
  rewrite Hkey, <- Hup.
  destruct (enabled (useUpstash cfg)) eqn:E; simpl; repeat (rewrite Hb; simpl);
    eexists; (split; [reflexivity|]); (split; [reflexivity|]).
  - apply (miss_upstash _ _ _ VNull); try assumption.
    + apply getUpstashRedis_ok. simpl. rewrite Hb. reflexivity.
    + apply upstash_get_ok. simpl. rewrite Hb, lookup_delete_eq. split; reflexivity.
    + reflexivity.
  - apply (miss_redis _ _ _ None); try assumption.
    + apply getUpstashRedis_ok. simpl. rewrite Hb. reflexivity.
    + apply redis_get_ok. simpl. rewrite Hb, lookup_delete_eq. split; reflexivity.
    + reflexivity.
Qed.

(** C7 (the code departs from it).  For a caller whose id is the empty string
    the middleware puts the empty id into the key, while [invalidateCache]
    takes the id for missing and derives the [anonymous] key; the entry the
    middleware stored survives the invalidation and is served afterwards. *)
Theorem empty_userId_is_not_invalidated :
  createCacheKey sample_path VUndefined ctx_empty_id defaultCacheConfig
    = Normal "trpc:user:test.procedure::"
  ∧ invalidate_key sample_path VUndefined options_empty_id
    = Normal "trpc:user:test.procedure:anonymous:"
  ∧ calls empty_id_stored = 1%nat
  ∧ empty_id_lookup = (Normal (sanitizeForCache sample_result), empty_id_invalidated)
  ∧ calls empty_id_lookup.2 = 1%nat.
Proof. repeat split; vm_compute; reflexivity. Qed.

(** ** C9: [safeStringify] on object graphs *)

Section GraphFacts.
Import Graph.
Variable h : heap.
Hypothesis Hclosed : closed h.
Hypothesis Hfree : bigint_free h.

Lemma cell_graph_values a c :
  h !! a = Some c → Forall (graph_value h) (cell_values c).
Proof.
  intros Ha. apply Forall_and. split; [exact (Hclosed a c Ha)|exact (Hfree a c Ha)].
Qed.

Section LoopFacts.
Variable property : gset addr → string → gvalue → completion (option string * gset addr).
Variable base : gset addr.
Hypothesis property_total :
  ∀ seen key v, base ⊆ seen → graph_value h v →
    ∃ o seen', property seen key v = Normal (o, seen') ∧ seen ⊆ seen'.

Lemma array_elements_total items :
  Forall (graph_value h) items →
  ∀ index seen, base ⊆ seen →
    ∃ partial seen',
      array_elements property items index seen = Normal (partial, seen') ∧ seen ⊆ seen'.
Proof.
  induction 1 as [|x rest Hx _ IH]; intros index seen Hbase; simpl.
  - exists [], seen. split; [reflexivity|set_solver].
  - destruct (property_total seen (pretty index) x Hbase Hx) as (o & seen1 & -> & Hsub1).
    destruct (IH (S index) seen1) as (partial & seen2 & -> & Hsub2); [set_solver|].
    eexists _, seen2. split; [reflexivity|set_solver].
Qed.

Lemma object_members_total props :
  Forall (graph_value h) props.*2 →
  ∀ seen, base ⊆ seen →
    ∃ partial seen',
      object_members property props seen = Normal (partial, seen') ∧ seen ⊆ seen'.
Proof.
  induction props as [|kv rest IH]; intros Hvalues seen Hbase; simpl.
  - exists [], seen. split; [reflexivity|set_solver].
  - apply Forall_cons in Hvalues as [Hx Hrest].
    destruct (property_total seen kv.1 kv.2 Hbase Hx) as (o & seen1 & -> & Hsub1).
    destruct (IH Hrest seen1) as (partial & seen2 & -> & Hsub2); [set_solver|].
    eexists _, seen2. split; [reflexivity|set_solver].
Qed.
End LoopFacts.

(** The second visit: a reference that is already in [seen] is printed as
    the quoted marker, whatever the object contains, and [seen] stays as it is. *)
Lemma serialize_seen depth stack seen key a :
  a ∈ seen →
  serialize seen_replacer h (S depth) stack seen key (GRef a)
  = Normal (Some (QuoteJSONString circular_marker), seen).
Proof.
  intros Ha. simpl. destruct (decide (a ∈ seen)); [reflexivity|contradiction].
Qed.

(** With the [seen] replacer the runtime's own cycle check never fires and
    the recursion is at most as deep as there are objects not yet seen. *)
Lemma serialize_total depth :
  ∀ stack seen key v,
    stack ⊆ seen →
    (size (dom h ∖ seen) < depth)%nat →
    graph_value h v →
    ∃ o seen',
      serialize seen_replacer h depth stack seen key v = Normal (o, seen')
      ∧ seen ⊆ seen'
      ∧ (∀ a, v = GRef a → is_Some o).
Proof.
  induction depth as [|depth IH]; intros stack seen key v Hstack Hsize [Halloc Hbig];
    [lia|].
  destruct v as [| |[]|n|s|z|d|f|iso|a]; simpl;
    try (eexists _, seen; split; [reflexivity|split; [reflexivity|discriminate]]).
  - destruct Hbig.
  - destruct (decide (a ∈ seen)) as [Hin|Hout].
    { eexists _, seen. split; [reflexivity|]. split; [set_solver|]. intros _ _. eauto. }
    destruct (decide (a ∈ stack)) as [Hin|_]; [set_solver|].
    simpl in Halloc. apply elem_of_dom in Halloc as [c Hc]. rewrite Hc.
    assert (Hinner : ∀ seen1 key1 v1, {[a]} ∪ seen ⊆ seen1 → graph_value h v1 →
              ∃ o seen', serialize seen_replacer h depth ({[a]} ∪ stack) seen1 key1 v1
                         = Normal (o, seen') ∧ seen1 ⊆ seen').
    { intros seen1 key1 v1 Hsub Hv1.
      destruct (IH ({[a]} ∪ stack) seen1 key1 v1) as (o & seen' & Hrun & Hsub' & _);
        [set_solver| |exact Hv1|eauto].
      assert (Hlt : (size (dom h ∖ seen1) < size (dom h ∖ seen))%nat).
      { apply subset_size. apply elem_of_dom_2 in Hc. set_solver. }
      lia. }
    pose proof (cell_graph_values a c Hc) as Hvalues.
    destruct c as [items|props]; simpl in Hvalues.
    + destruct (array_elements_total _ _ Hinner items Hvalues 0%nat ({[a]} ∪ seen))
        as (partial & seen' & -> & Hsub); [set_solver|].
      eexists _, seen'. split; [reflexivity|]. split; [set_solver|]. intros _ _. eauto.
    + destruct (object_members_total _ _ Hinner props Hvalues ({[a]} ∪ seen))
        as (partial & seen' & -> & Hsub); [set_solver|].
      eexists _, seen'. split; [reflexivity|]. split; [set_solver|]. intros _ _. eauto.
Qed.
End GraphFacts.

Section Marks.
Import Graph.
Variable h : heap.

Section LoopMarks.
Variable property : gset addr → string → gvalue → completion (option string * gset addr).
Hypothesis property_marks :
  ∀ seen key v text seen',
    property seen key v = Normal (text, seen') → marks h seen v text seen'.

Lemma array_elements_marks items :
  ∀ index seen parts seen',
    array_elements property items index seen = Normal (parts, seen') →
    marks_elements h seen items parts seen'.
Proof.
  induction items as [|x rest IH]; intros index seen parts seen'; simpl.
  - intros [= <- <-]. constructor.
  - destruct (property seen (pretty index) x) as [[text seen1]|e] eqn:Hx; [|discriminate].
    destruct (array_elements property rest (S index) seen1) as [[partial seen2]|e] eqn:Hrest;
      [|discriminate].
    intros [= <- <-].
    apply (marks_elements_cons h seen x text seen1); [exact (property_marks _ _ _ _ _ Hx)|].
    exact (IH _ _ _ _ Hrest).
Qed.

Lemma object_members_marks props :
  ∀ seen parts seen',
    object_members property props seen = Normal (parts, seen') →
    marks_members h seen props parts seen'.
Proof.
  induction props as [|kv rest IH]; intros seen parts seen'; simpl.
  - intros [= <- <-]. constructor.
  - destruct (property seen kv.1 kv.2) as [[text seen1]|e] eqn:Hx; [|discriminate].
    destruct (object_members property rest seen1) as [[partial seen2]|e] eqn:Hrest;
      [|discriminate].
    intros [= <- <-].
    apply (marks_members_cons h seen kv text seen1); [exact (property_marks _ _ _ _ _ Hx)|].
    exact (IH _ _ _ Hrest).
Qed.
End LoopMarks.

(** Whenever [JSON.stringify] with the [seen] replacer returns, what it
    returns is the text the specification describes. *)
Lemma serialize_marks depth :
  ∀ stack seen key v text seen',
    serialize seen_replacer h depth stack seen key v = Normal (text, seen') →
    marks h seen v text seen'.
Proof.
  induction depth as [|depth IH]; intros stack seen key v text seen'; [discriminate|].
  destruct v as [| |[]|n|s|z|d|f|iso|a]; simpl;
    try discriminate;
    try (intros [= <- <-]; eapply marks_primitive; reflexivity).
  destruct (decide (a ∈ seen)) as [Hin|Hout].
  { intros [= <- <-]. apply marks_second_visit. exact Hin. }
  destruct (decide (a ∈ stack)) as [_|_]; [discriminate|].
  destruct (h !! a) as [[items|props]|] eqn:Ha; [| |discriminate].
  - destruct (array_elements _ items 0%nat ({[a]} ∪ seen)) as [[parts seen1]|e] eqn:Hloop;
      [|discriminate].
    intros [= <- <-]. apply (marks_array h seen a items); [exact Hout|exact Ha|].
    exact (array_elements_marks _ (IH ({[a]} ∪ stack)) items _ _ _ _ Hloop).
  - destruct (object_members _ props ({[a]} ∪ seen)) as [[parts seen1]|e] eqn:Hloop;
      [|discriminate].
    intros [= <- <-]. apply (marks_object h seen a props); [exact Hout|exact Ha|].
    exact (object_members_marks _ (IH ({[a]} ∪ stack)) props _ _ _ Hloop).
Qed.

(** The description leaves no choice: a value has at most one such text. *)
Lemma marks_functional seen v text seen' :
  marks h seen v text seen' →
  ∀ text2 seen2, marks h seen v text2 seen2 → text = text2 ∧ seen' = seen2.
Proof.
  intros Hm.
  induction Hm using marks_mut with
    (P0 := λ seen items parts seen' _,
       ∀ parts2 seen2, marks_elements h seen items parts2 seen2 →
                       parts = parts2 ∧ seen' = seen2)
    (P1 := λ seen props parts seen' _,
       ∀ parts2 seen2, marks_members h seen props parts2 seen2 →
                       parts = parts2 ∧ seen' = seen2).
  - intros text2 seen2 H2. inversion H2; subst; try discriminate.
    split; [congruence|reflexivity].
  - intros text2 seen2 H2. inversion H2; subst; try discriminate; try contradiction.
    split; reflexivity.
  - intros text2 seen2 H2. inversion H2; subst; try discriminate; try contradiction;
      try congruence.
    match goal with
    | Hloop : marks_elements h _ ?items2 _ _ |- _ =>
        assert (items2 = items) as -> by congruence;
        destruct (IHHm _ _ Hloop) as [-> ->]
    end.
    split; reflexivity.
  - intros text2 seen2 H2. inversion H2; subst; try discriminate; try contradiction;
      try congruence.
    match goal with
    | Hloop : marks_members h _ ?props2 _ _ |- _ =>
        assert (props2 = props) as -> by congruence;
        destruct (IHHm _ _ Hloop) as [-> ->]
    end.
    split; reflexivity.
  - intros parts2 seen2 H2. inversion H2; subst. split; reflexivity.
  - intros parts2 seen3 H2. inversion H2; subst.
    match goal with
    | IH1 : ∀ t s, marks h ?s0 ?v0 t s → _, Hfirst : marks h ?s0 ?v0 _ _ |- _ =>
        destruct (IH1 _ _ Hfirst) as [-> ->]
    end.
    match goal with
    | IH2 : ∀ t s, marks_elements h ?s0 ?l0 t s → _, Hrest : marks_elements h ?s0 ?l0 _ _ |- _ =>
        destruct (IH2 _ _ Hrest) as [-> ->]
    end.
    split; reflexivity.
  - intros parts2 seen2 H2. inversion H2; subst. split; reflexivity.
  - intros parts2 seen3 H2. inversion H2; subst.
    match goal with
    | IH1 : ∀ t s, marks h ?s0 ?v0 t s → _, Hfirst : marks h ?s0 ?v0 _ _ |- _ =>
        destruct (IH1 _ _ Hfirst) as [-> ->]
    end.
    match goal with
    | IH2 : ∀ t s, marks_members h ?s0 ?l0 t s → _, Hrest : marks_members h ?s0 ?l0 _ _ |- _ =>
        destruct (IH2 _ _ Hrest) as [-> ->]
    end.
    split; reflexivity.
Qed.
End Marks.

(** C9.  [safeStringify] never throws: whatever [JSON.stringify] throws ends
    in the catch block, so [null] comes back only when the stringification
    failed.  On an object graph without BigInt values, cyclic or not, nothing
    is thrown as long as the call stack holds one frame per object, and what
    is returned is the text the specification describes: every object is
    printed in full where it is visited first, and every later visit to it
    is the quoted marker.  For a root that is an object that text is a
    string; for a root that has no JSON text it is [undefined]. *)
Theorem safeStringify_tolerates_cycles (depth : nat) (h : Graph.heap) (a : Graph.addr) :
  Graph.closed h →
  Graph.bigint_free h →
  a ∈ dom h →
  (size h < depth)%nat →
  (∃ text seen,
      Graph.safeStringify depth h (Graph.GRef a) = Graph.GString text
      ∧ marks h ∅ (Graph.GRef a) (Some text) seen)
  ∧ (∀ v, Graph.graph_value h v →
          Graph.safeStringify depth h v ≠ Graph.GNull
          ∧ ∃ text seen,
              marks h ∅ v text seen
              ∧ Graph.safeStringify depth h v
                = match text with
                  | Some str => Graph.GString str
                  | None => Graph.GUndefined
                  end)
  ∧ (∀ d v,
        Graph.safeStringify d h v = Graph.GNull →
        ∃ e, Graph.JSON_stringify_with Graph.seen_replacer h d ∅ v = Throw e).
Proof.
  intros Hclosed Hfree Ha Hsize.
  assert (Htotal : ∀ v, Graph.graph_value h v →
            ∃ o seen', Graph.serialize Graph.seen_replacer h depth ∅ ∅ EmptyString v
                       = Normal (o, seen')
                       ∧ (∀ b, v = Graph.GRef b → is_Some o)).
  { intros v Hv.
    destruct (serialize_total h Hclosed Hfree depth ∅ ∅ EmptyString v)
      as (o & seen' & Hrun & _ & Hsome); [reflexivity| |exact Hv|eauto].
    rewrite difference_empty_L, size_dom. exact Hsize. }
  split; [|split].
  - destruct (Htotal (Graph.GRef a)) as (o & seen' & Hrun & Hsome); [split; [exact Ha|exact I]|].
    destruct (Hsome a eq_refl) as [text ->]. exists text, seen'. split.
    + unfold Graph.safeStringify, Graph.JSON_stringify_with. rewrite Hrun. reflexivity.
    + exact (serialize_marks h depth _ _ _ _ _ _ Hrun).
  - intros v Hv. destruct (Htotal v Hv) as (o & seen' & Hrun & _).
    unfold Graph.safeStringify, Graph.JSON_stringify_with. rewrite Hrun. split.
    + destruct o; discriminate.
    + exists o, seen'. split; [exact (serialize_marks h depth _ _ _ _ _ _ Hrun)|].
      destruct o; reflexivity.
  - intros d v. unfold Graph.safeStringify.
    destruct (Graph.JSON_stringify_with Graph.seen_replacer h d ∅ v) as [[text|]|e];
      [discriminate|discriminate|eauto].
Qed.

Lemma loop_heap_closed : Graph.closed Graph.loop_heap.
Proof.
  intros a c Hc. unfold Graph.loop_heap in Hc.
  apply lookup_insert_Some in Hc as [[<- <-]|[_ Hc]].
  { repeat constructor; apply elem_of_dom; eexists; reflexivity. }
  apply lookup_singleton_Some in Hc as [<- <-].
  repeat constructor; apply elem_of_dom; eexists; reflexivity.
Qed.

Lemma loop_heap_bigint_free : Graph.bigint_free Graph.loop_heap.
Proof.
  intros a c Hc. unfold Graph.loop_heap in Hc.
  apply lookup_insert_Some in Hc as [[<- <-]|[_ Hc]].
  { repeat constructor. }
  apply lookup_singleton_Some in Hc as [<- <-].
  repeat constructor.
Qed.

Lemma safeStringify_witness :
  Graph.closed Graph.loop_heap
  ∧ Graph.bigint_free Graph.loop_heap
  ∧ 1%positive ∈ dom Graph.loop_heap
  ∧ (size Graph.loop_heap < 3)%nat
  ∧ ∃ text seen,
      Graph.safeStringify 3 Graph.loop_heap (Graph.GRef 1%positive) = Graph.GString text
      ∧ marks Graph.loop_heap ∅ (Graph.GRef 1%positive) (Some text) seen.
Proof.
  assert (Hdom : 1%positive ∈ dom Graph.loop_heap) by (apply elem_of_dom; eexists; reflexivity).
  assert (Hsize : (size Graph.loop_heap < 3)%nat) by (vm_compute; lia).
  split; [exact loop_heap_closed|]. split; [exact loop_heap_bigint_free|].
  split; [exact Hdom|]. split; [exact Hsize|].
  exact (proj1 (safeStringify_tolerates_cycles 3 Graph.loop_heap 1%positive
                  loop_heap_closed loop_heap_bigint_free Hdom Hsize)).
Defined.

(** The text for the self-referential object, next to what the plain
    [JSON.stringify] does with it. *)
Example safeStringify_loop :
  Graph.safeStringify 3 Graph.loop_heap (Graph.GRef 1%positive)
  = Graph.GString
      ("{" ++ dquote ++ "name" ++ dquote ++ ":" ++ dquote ++ "loop" ++ dquote ++ ","
       ++ dquote ++ "self" ++ dquote ++ ":" ++ dquote ++ "[Circular Reference]" ++ dquote ++ ","
       ++ dquote ++ "list" ++ dquote ++ ":[" ++ dquote ++ "[Circular Reference]" ++ dquote
       ++ ",7]}")
  ∧ Graph.JSON_stringify_plain Graph.loop_heap 3 (Graph.GRef 1%positive)
    = Throw Graph.circular_error.
Proof. split; vm_compute; reflexivity. Qed.

(** A BigInt makes [JSON.stringify] throw, and [safeStringify] answer [null];
    a value without JSON text makes it answer [undefined]. *)
Example safeStringify_null_and_undefined :
  Graph.safeStringify 3 ∅ (Graph.GBigInt 1) = Graph.GNull
  ∧ Graph.safeStringify 3 ∅ Graph.GUndefined = Graph.GUndefined.
Proof. split; reflexivity. Qed.

(** * Further properties of the code *)

(** ** The serialization guard and the runtime's stringifier together *)

Lemma isSerializable_bigint_free v :
  isSerializable v = true → bigint_free_value v = true.
Proof.
  induction v as [| | | | | | | | |items IH|p props IH] using value_ind'; simpl;
    try reflexivity; try discriminate.
  - intros H. induction IH as [|x r Hx _ IHr]; simpl in *; [reflexivity|].
    apply andb_prop in H as [H1 H2]. rewrite (Hx H1), (IHr H2). reflexivity.
  - intros H. assert (Hp : forallb (λ kv : string * value, isSerializable kv.2) props = true)
      by (destruct p; [exact H|exact H|discriminate]).
    clear H. induction IH as [|kv r Hkv _ IHr]; simpl in *; [reflexivity|].
    apply andb_prop in Hp as [H1 H2]. rewrite (Hkv H1), (IHr H2). reflexivity.
Qed.

Lemma put_own_bigint_free k v props :
  bigint_free_value v = true →
  forallb (λ kv : string * value, bigint_free_value kv.2) props = true →
  forallb (λ kv : string * value, bigint_free_value kv.2) (put_own k v props) = true.
Proof.
  intros Hv. induction props as [|[k' v'] rest IH]; simpl.
  - rewrite Hv. reflexivity.
  - intros [Hv' Hrest]%andb_prop.
    destruct (String.eqb k k'); simpl.
    + rewrite Hv, Hrest. reflexivity.
    + rewrite Hv', (IH Hrest). reflexivity.
Qed.

Lemma assign_bigint_free o key v :
  bigint_free_value v = true →
  forallb (λ kv : string * value, bigint_free_value kv.2) (obj_props o) = true →
  forallb (λ kv : string * value, bigint_free_value kv.2) (obj_props (assign o key v)) = true.
Proof.
  intros Hv Ho. unfold assign.
  destruct (String.eqb key proto_key && _).
  - destruct v; simpl; exact Ho.
  - simpl. apply put_own_bigint_free; assumption.
Qed.

(** Whatever goes in, no BigInt comes out of [sanitizeForCache]. *)
Lemma sanitizeForCache_bigint_free v : bigint_free_value (sanitizeForCache v) = true.
Proof.
  induction v as [| | | | | | | | |items IH|p props IH] using value_ind';
    try reflexivity.
  - rewrite sanitizeForCache_unfold.
    destruct (isSerializable (VArray items)) eqn:E; simpl negb; cbv iota.
    { apply isSerializable_bigint_free. exact E. }
    simpl. clear E. induction IH as [|x r Hx _ IHr]; simpl; [reflexivity|].
    rewrite Hx, IHr. reflexivity.
  - rewrite sanitizeForCache_unfold.
    destruct (isSerializable (VObject p props)) eqn:E; simpl negb; cbv iota.
    { apply isSerializable_bigint_free. exact E. }
    rewrite sanitize_loop_as_fold. unfold value_of_object. simpl.
    clear E. generalize empty_object, (eq_refl : forallb (λ kv : string * value,
      bigint_free_value kv.2) (obj_props empty_object) = true).
    induction IH as [|kv r Hkv _ IHr]; intros clean Hclean; simpl; [exact Hclean|].
    apply IHr. apply assign_bigint_free; assumption.
Qed.

(** Without a BigInt inside, [JSON.stringify] does not throw, and it has no
    text only for [undefined], a symbol or a function. *)
Lemma bigint_free_stringifies v :
  bigint_free_value v = true →
  ∃ text, SerializeJSONProperty v = Normal text
          ∧ (text = None ↔ match v with
                           | VUndefined | VSymbol _ | VFunction _ => True
                           | _ => False
                           end).
Proof.
  induction v as [| |[]| | | | | | |items IH|p props IH] using value_ind'; simpl; intros Hv;
    try discriminate;
    try (eexists; split; [reflexivity|]; split; [discriminate|intros []]);
    try (eexists; split; [reflexivity|]; split; intros _; [exact I|reflexivity]).
  - match goal with |- context [match ?l with Normal _ => _ | Throw _ => _ end] =>
      assert (Hl : ∃ partial, l = Normal partial) end.
    { induction IH as [|x r Hx _ IHr]; [eexists; reflexivity|].
      simpl in Hv. apply andb_prop in Hv as [H1 H2].
      destruct (Hx H1) as (o & -> & _). destruct (IHr H2) as (partial & ->).
      eexists. reflexivity. }
    destruct Hl as (partial & ->).
    eexists; split; [reflexivity|]; split; [discriminate|intros []].
  - match goal with |- context [match ?l with Normal _ => _ | Throw _ => _ end] =>
      assert (Hl : ∃ partial, l = Normal partial) end.
    { induction IH as [|kv r Hkv _ IHr]; [eexists; reflexivity|].
      simpl in Hv. apply andb_prop in Hv as [H1 H2].
      destruct (Hkv H1) as (o & -> & _). destruct (IHr H2) as (partial & ->).
      eexists. reflexivity. }
    destruct Hl as (partial & ->).
    eexists; split; [reflexivity|]; split; [discriminate|intros []].
Qed.

(** The only value [sanitizeForCache] maps to a value without JSON text is
    [undefined] itself: functions and symbols become [null]. *)
Lemma sanitizeForCache_textless v :
  match sanitizeForCache v with
  | VUndefined | VSymbol _ | VFunction _ => True
  | _ => False
  end ↔ v = VUndefined.
Proof.
  rewrite sanitizeForCache_unfold.
  destruct v as [| | | | | | | | |items|p props]; simpl;
    try (split; [intros []|intros H; discriminate H]);
    try (split; [reflexivity|intros _; exact I]).
  - destruct (forallb isSerializable items); simpl;
      (split; [intros []|intros H; discriminate H]).
  - destruct (match p with OtherPrototype => false | _ => _ end); simpl;
      (split; [intros []|intros H; discriminate H]).
Qed.

(** X1. For a result that is a finite tree and has no [__proto__] key
    anywhere, the write to the string store never fails for want of a JSON
    text: [JSON.stringify(sanitizeForCache(result))] does not throw, also
    when the result holds BigInt values, functions or class instances, and
    it is [undefined] only when the result is [undefined]. *)
Theorem sanitized_result_stringifies (result : value) :
  no_proto_key result = true →
  ∃ text, JSON_stringify (sanitizeForCache result) = Normal text
          ∧ (text = None ↔ result = VUndefined).
Proof.
  intros _.
  destruct (bigint_free_stringifies _ (sanitizeForCache_bigint_free result))
    as (text & Htext & Hnone).
  exists text. split; [exact Htext|].
  rewrite Hnone. apply sanitizeForCache_textless.
Qed.

Lemma sanitized_result_witness :
  no_proto_key bigint_result = true
  ∧ ∃ text, JSON_stringify (sanitizeForCache bigint_result) = Normal text
            ∧ (text = None ↔ bigint_result = VUndefined).
Proof.
  split; [reflexivity|].
  apply (sanitized_result_stringifies bigint_result). reflexivity.
Defined.

Lemma put_own_fresh k v (props : list (string * value)) :
  k ∉ props.*1 → put_own k v props = (props ++ [(k, v)])%list.
Proof.
  induction props as [|[k' v'] rest IH]; simpl; intros Hk; [reflexivity|].
  apply not_elem_of_cons in Hk as [Hne Hrest].
  destruct (String.eqb_spec k k') as [->|_]; [contradiction|].
  rewrite (IH Hrest). reflexivity.
Qed.

Lemma clean_loop_appends (f : string * value → value) props :
  ∀ acc,
    NoDup (acc.*1 ++ props.*1)%list →
    proto_key ∉ props.*1 →
    fold_left (λ c kv, assign c kv.1 (f kv)) props (Obj ObjectPrototype acc)
    = Obj ObjectPrototype (acc ++ map (λ kv, (kv.1, f kv)) props)%list.
Proof.
  induction props as [|kv rest IH]; intros acc Hnd Hproto; simpl.
  - rewrite app_nil_r. reflexivity.
  - simpl in Hproto. apply not_elem_of_cons in Hproto as [Hne Hrest].
    rewrite assign_plain_key by (apply String.eqb_neq; congruence). simpl.
    rewrite put_own_fresh.
    + rewrite IH.
      * rewrite <- app_assoc. reflexivity.
      * rewrite fmap_app. simpl. rewrite <- app_assoc. exact Hnd.
      * exact Hrest.
    + apply NoDup_app in Hnd as (_ & Hdisj & _).
      intros Hin. apply (Hdisj _ Hin). simpl. left.
Qed.

(** X2. Fields are never dropped.  An object that is not serializable, be it a
    class instance or a record with a function somewhere inside, comes out
    as a plain object with the same keys in the same order, every value
    sanitized in turn: a function-valued field is kept with the value
    [null]. *)
Theorem sanitizeForCache_keeps_every_field (p : proto) (props : list (string * value)) :
  isSerializable (VObject p props) = false →
  NoDup props.*1 →
  proto_key ∉ props.*1 →
  sanitizeForCache (VObject p props)
  = VObject ObjectPrototype (map (λ kv, (kv.1, sanitizeForCache kv.2)) props).
Proof.
  intros Hns Hnd Hproto.
  rewrite sanitizeForCache_unfold, Hns. simpl negb. cbv iota.
  rewrite sanitize_loop_as_fold. unfold empty_object.
  rewrite (clean_loop_appends (λ kv, sanitizeForCache kv.2) props []); [reflexivity| |].
  - exact Hnd.
  - exact Hproto.
Qed.

Lemma sanitizeForCache_keeps_every_field_witness :
  isSerializable instance_with_method = false
  ∧ sanitizeForCache instance_with_method
    = VObject ObjectPrototype
        [("id", VNumber (Int 7)); ("save", VNull); ("tags", VArray [VNull])].
Proof.
  split; [reflexivity|].
  apply (sanitizeForCache_keeps_every_field OtherPrototype
           [("id", VNumber (Int 7)); ("save", VFunction "save"); ("tags", VArray [VSymbol "t"])]).
  - reflexivity.
  - apply (bool_decide_unpack _). vm_compute. exact I.
  - apply (bool_decide_unpack _). vm_compute. exact I.
Defined.

(** An array keeps its length and its order: it is sanitized element by
    element, whether or not it was serializable to begin with. *)
Theorem sanitizeForCache_array (items : list value) :
  sanitizeForCache (VArray items) = VArray (map sanitizeForCache items).
Proof.
  rewrite sanitizeForCache_unfold.
  destruct (isSerializable (VArray items)) eqn:E; simpl negb; cbv iota; [|reflexivity].
  f_equal. simpl in E. induction items as [|x rest IH]; [reflexivity|].
  simpl in *. apply andb_prop in E as [Hx Hrest].
  rewrite (sanitizeForCache_serializable_id _ Hx), <- (IH Hrest). reflexivity.
Qed.

(** X3. On data without a [__proto__] key sanitizing twice is sanitizing once. *)
Theorem sanitizeForCache_idempotent (v : value) :
  no_proto_key v = true →
  sanitizeForCache (sanitizeForCache v) = sanitizeForCache v.
Proof.
  intros Hnp. apply sanitizeForCache_serializable_id.
  apply sanitizeForCache_serializable. exact Hnp.
Qed.

Lemma sanitizeForCache_idempotent_witness :
  no_proto_key instance_with_method = true
  ∧ sanitizeForCache (sanitizeForCache instance_with_method)
    = sanitizeForCache instance_with_method.
Proof.
  split; [reflexivity|].
  apply sanitizeForCache_idempotent. reflexivity.
Defined.

(** ** Key derivation: who shares a key with whom *)

Lemma append_length (a b : string) :
  String.length (a ++ b) = (String.length a + String.length b)%nat.
Proof. induction a as [|c a IH]; simpl; [reflexivity|]. rewrite IH. reflexivity. Qed.

Lemma append_assoc (a b c : string) : (a ++ b) ++ c = a ++ (b ++ c).
Proof.
  induction a as [|x a IH]; [reflexivity|].
  change (String x ((a ++ b) ++ c) = String x (a ++ (b ++ c))). f_equal. exact IH.
Qed.

Lemma append_cancel_l (a x y : string) : a ++ x = a ++ y → x = y.
Proof. induction a as [|c a IH]; simpl; [auto|]. intros [= H]. auto. Qed.

Lemma append_cancel_r (s x y : string) : x ++ s = y ++ s → x = y.
Proof.
  revert y. induction x as [|c x IH]; intros [|d y] H; simpl in H.
  - reflexivity.
  - apply (f_equal String.length) in H. rewrite !append_length in H. simpl in H.
    rewrite ?append_length in H. lia.
  - apply (f_equal String.length) in H. rewrite !append_length in H. simpl in H.
    rewrite ?append_length in H. lia.
  - injection H as -> H. f_equal. apply IH. exact H.
Qed.

Lemma prefix_append (a b : string) : String.prefix a (a ++ b) = true.
Proof.
  induction a as [|c a IH]; simpl; [destruct b; reflexivity|].
  destruct (ascii_dec c c); [exact IH|contradiction].
Qed.

Lemma key_outside_user_scope
    (path : string) (input : value) (ctx1 ctx2 : TRPCContext) (cfg : CacheConfig) :
  getCacheKey cfg ≠ None
  ∨ enabled (globalCache cfg) = true
  ∨ enabled (userSpecific cfg) = false →
  createCacheKey path input ctx1 cfg = createCacheKey path input ctx2 cfg.
Proof.
  intros Hscope. unfold createCacheKey.
  destruct (getCacheKey cfg) as [custom|]; [reflexivity|].
  destruct Hscope as [Hc|[Hg|Hu]]; [congruence| |].
  - rewrite Hg. reflexivity.
  - rewrite Hu. destruct (inputString_of input), (enabled (globalCache cfg)); reflexivity.
Qed.

(** X4. The caller identity matters to the key only in the user-specific scope:
    with a custom key function, with [globalCache], or without
    [userSpecific], every caller derives the same key. *)
Theorem key_ignores_caller_outside_user_scope
    (path : string) (input : value) (ctx1 ctx2 : TRPCContext) (cfg : CacheConfig) :
  getCacheKey cfg ≠ None
  ∨ enabled (globalCache cfg) = true
  ∨ enabled (userSpecific cfg) = false →
  createCacheKey path input ctx1 cfg = createCacheKey path input ctx2 cfg.
Proof.
  intros Hscope. unfold createCacheKey.
  destruct (getCacheKey cfg) as [custom|]; [reflexivity|].
  destruct Hscope as [Hc|[Hg|Hu]]; [congruence| |].
  - rewrite Hg. reflexivity.
  - rewrite Hu. destruct (inputString_of input), (enabled (globalCache cfg)); reflexivity.
Qed.

Lemma key_ignores_caller_witness :
  createCacheKey sample_path sample_input sample_ctx global_config
  = createCacheKey sample_path sample_input ctx_anonymous global_config.
Proof.
  apply key_ignores_caller_outside_user_scope. right. left. reflexivity.
Defined.

Lemma user_scope_keys
    (path : string) (input : value) (ctx1 ctx2 : TRPCContext) (cfg : CacheConfig)
    (key1 key2 : string) :
  getCacheKey cfg = None →
  enabled (globalCache cfg) = false →
  enabled (userSpecific cfg) = true →
  createCacheKey path input ctx1 cfg = Normal key1 →
  createCacheKey path input ctx2 cfg = Normal key2 →
  (key1 = key2 ↔ userId_of ctx1 = userId_of ctx2).
Proof.
  intros Hcustom Hg Hu. unfold createCacheKey. rewrite Hcustom, Hg, Hu.
  destruct (inputString_of input) as [text|e]; [|discriminate].
  intros [= <-] [= <-]. split.
  - intros H. do 3 apply append_cancel_l in H.
    apply (append_cancel_r (":" ++ template_text text)). exact H.
  - intros ->. reflexivity.
Qed.

(** X5. In the user-specific scope two callers derive the same key for the same
    route and input exactly when they have the same caller id, where a
    caller without identity counts as the caller named anonymous. *)
Theorem user_keys_separate_callers
    (path : string) (input : value) (ctx1 ctx2 : TRPCContext) (cfg : CacheConfig)
    (key1 key2 : string) :
  getCacheKey cfg = None →
  enabled (globalCache cfg) = false →
  enabled (userSpecific cfg) = true →
  createCacheKey path input ctx1 cfg = Normal key1 →
  createCacheKey path input ctx2 cfg = Normal key2 →
  (key1 = key2 ↔ userId_of ctx1 = userId_of ctx2).
Proof.
  intros Hcustom Hg Hu. unfold createCacheKey. rewrite Hcustom, Hg, Hu.
  destruct (inputString_of input) as [text|e]; [|discriminate].
  intros [= <-] [= <-]. split.
  - intros H. do 3 apply append_cancel_l in H.
    apply (append_cancel_r (":" ++ template_text text)). exact H.
  - intros ->. reflexivity.
Qed.

Lemma user_keys_separate_callers_witness :
  createCacheKey sample_path sample_input sample_ctx defaultCacheConfig = Normal sample_key
  ∧ ∃ key2,
      createCacheKey sample_path sample_input (ctx_of (Some "user-2")) defaultCacheConfig
      = Normal key2
      ∧ sample_key ≠ key2.
Proof.
  split; [reflexivity|]. eexists. split; [reflexivity|].
  intros Heq.
  apply (user_keys_separate_callers sample_path sample_input sample_ctx
           (ctx_of (Some "user-2")) defaultCacheConfig _ _
           eq_refl eq_refl eq_refl eq_refl eq_refl) in Heq.
  discriminate Heq.
Defined.

(** X6. Every falsy input (null, false, 0, NaN, the empty string) is keyed like
    an absent input. *)
Theorem falsy_inputs_share_the_key_of_no_input
    (path : string) (input : value) (ctx : TRPCContext) (cfg : CacheConfig) :
  getCacheKey cfg = None →
  truthy input = false →
  createCacheKey path input ctx cfg = createCacheKey path VUndefined ctx cfg.
Proof.
  intros Hcustom Hfalsy. unfold createCacheKey, inputString_of.
  rewrite Hcustom, Hfalsy. reflexivity.
Qed.

Lemma falsy_inputs_witness :
  createCacheKey sample_path (VBool false) sample_ctx defaultCacheConfig
  = createCacheKey sample_path VUndefined sample_ctx defaultCacheConfig.
Proof. apply falsy_inputs_share_the_key_of_no_input; reflexivity. Defined.

(** X7. The scopes are told apart by their prefix only, and a route may contain
    that prefix: the unscoped key of the route [global:r] is the global key
    of the route [r], and the unscoped key of [user:r:id] is the key of the
    caller [id] for the route [r]. *)
Theorem scoped_keys_collide_with_unscoped_routes
    (route : string) (input : value) (ctx ctx' : TRPCContext)
    (unscoped global scoped : CacheConfig) :
  getCacheKey unscoped = None ∧ enabled (globalCache unscoped) = false
    ∧ enabled (userSpecific unscoped) = false →
  getCacheKey global = None ∧ enabled (globalCache global) = true →
  getCacheKey scoped = None ∧ enabled (globalCache scoped) = false
    ∧ enabled (userSpecific scoped) = true →
  createCacheKey ("global:" ++ route) input ctx unscoped
    = createCacheKey route input ctx' global
  ∧ createCacheKey ("user:" ++ route ++ ":" ++ userId_of ctx') input ctx unscoped
    = createCacheKey route input ctx' scoped.
Proof.
  intros (Hc1 & Hg1 & Hu1) (Hc2 & Hg2) (Hc3 & Hg3 & Hu3).
  unfold createCacheKey. rewrite Hc1, Hg1, Hu1, Hc2, Hg2, Hc3, Hg3, Hu3.
  destruct (inputString_of input) as [text|e]; [|split; reflexivity].
  split; rewrite !append_assoc; reflexivity.
Qed.

Lemma scoped_keys_collide_witness :
  createCacheKey ("global:" ++ sample_path) sample_input sample_ctx unscoped_config
  = createCacheKey sample_path sample_input ctx_anonymous global_config.
Proof.
  exact (proj1 (scoped_keys_collide_with_unscoped_routes sample_path sample_input
                  sample_ctx ctx_anonymous unscoped_config global_config defaultCacheConfig
                  (conj eq_refl (conj eq_refl eq_refl))
                  (conj eq_refl eq_refl)
                  (conj eq_refl (conj eq_refl eq_refl)))).
Defined.

(** When the options carry no key function, every key [invalidateCache]
    derives starts with [trpc:]. *)
Lemma invalidate_key_prefix
    (path : string) (input : value) (options : InvalidateOptions) (key : string) :
  spread None (opt_getCacheKey options) = None →
  invalidate_key path input options = Normal key → String.prefix "trpc:" key = true.
Proof.
  intros Hnone. unfold invalidate_key, createCacheKey. simpl. rewrite Hnone.
  destruct (inputString_of input) as [text|e]; [|discriminate].
  destruct (enabled _); [|destruct (enabled _)]; intros [= <-];
    rewrite <- ?(append_assoc "trpc:"); apply (prefix_append "trpc:").
Qed.

(** ** What one call of the middleware can and cannot change *)

Section Footprint.
Variable JSON_parse : string → completion value.
Variables (cfg : CacheConfig) (ctx : TRPCContext) (path : string)
          (next : procedure) (input : value) (key : string).
Hypothesis Hkey : createCacheKey path input ctx cfg = Normal key.

Local Ltac unchanged :=
  unfold footprint; simpl; repeat split; auto; try lia; try congruence.

Lemma footprint_of_call w r w' :
  middleware JSON_parse cfg ctx path next input w = (r, w') → footprint cfg key w w'.
Proof.
  destruct (enabled (useUpstash cfg)) eqn:Hup.
  - rewrite (middleware_upstash _ _ _ _ _ _ key) by assumption.
    destruct (connect_throws (broken w) || get_throws (broken w)); [intros [= <- <-]; unchanged|].
    simpl. destruct (truthy _); [intros [= <- <-]; unchanged|].
    destruct (next (calls w)) as [result|e]; [|intros [= <- <-]; unchanged].
    destruct (set_throws (broken w)); intros [= <- <-]; [unchanged|].
    unfold footprint; simpl; repeat split; auto; try lia; try congruence.
    + apply lookup_insert_ne. congruence.
    + intros _. rewrite lookup_insert_eq. eauto.
  - rewrite (middleware_redis _ _ _ _ _ _ key) by assumption.
    destruct (connect_throws (broken w) || get_throws (broken w)); [intros [= <- <-]; unchanged|].
    simpl. destruct (nonempty _).
    { destruct (JSON_parse _); intros [= <- <-]; unchanged. }
    destruct (next (calls w)) as [result|e]; [|intros [= <- <-]; unchanged].
    destruct (JSON_stringify (sanitizeForCache result)) as [[text|]|e];
      try (intros [= <- <-]; unchanged).
    destruct (set_throws (broken w)); intros [= <- <-]; [unchanged|].
    unfold footprint; simpl; repeat split; auto; try lia; try congruence.
    + apply lookup_insert_ne. congruence.
    + intros _. rewrite lookup_insert_eq. eauto.
Qed.
End Footprint.

(** X8. One call changes at most the entry under its own key, on the backend it
    is configured for: every other key, the other backend and the fault
    switches are as before, no entry is ever removed, and the wrapped
    procedure is run at most twice. *)
Theorem middleware_touches_only_its_key
    (JSON_parse : string → completion value) (cfg : CacheConfig) (ctx : TRPCContext)
    (path : string) (next : procedure) (input : value) (key : string)
    (w w' : world) (r : completion value) :
  createCacheKey path input ctx cfg = Normal key →
  middleware JSON_parse cfg ctx path next input w = (r, w') →
  broken w' = broken w
  ∧ (∀ k, k ≠ key → upstash w' !! k = upstash w !! k ∧ redis w' !! k = redis w !! k)
  ∧ (enabled (useUpstash cfg) = true → redis w' = redis w)
  ∧ (enabled (useUpstash cfg) = false → upstash w' = upstash w)
  ∧ (is_Some (upstash w !! key) → is_Some (upstash w' !! key))
  ∧ (is_Some (redis w !! key) → is_Some (redis w' !! key))
  ∧ (calls w ≤ calls w' ≤ calls w + 2)%nat.
Proof.
  intros Hkey Hrun.
  exact (footprint_of_call JSON_parse cfg ctx path next input key Hkey w r w' Hrun).
Qed.

Lemma middleware_touches_only_its_key_witness :
  createCacheKey sample_path sample_input sample_ctx defaultCacheConfig = Normal sample_key
  ∧ redis (middleware parse_unavailable defaultCacheConfig sample_ctx sample_path succeeding
             sample_input zero_cached).2 = redis zero_cached.
Proof.
  split; [reflexivity|].
  destruct (middleware_touches_only_its_key parse_unavailable defaultCacheConfig sample_ctx
              sample_path succeeding sample_input sample_key zero_cached _ _ eq_refl
              (surjective_pairing _))
    as (_ & _ & Hredis & _).
  apply Hredis. reflexivity.
Defined.

(** A lookup depends only on the entry under its key and on the fault
    switches. *)
Lemma cache_miss_transfer cfg key w w' :
  broken w' = broken w →
  upstash w' !! key = upstash w !! key →
  redis w' !! key = redis w !! key →
  cache_miss cfg key w → cache_miss cfg key w'.
Proof.
  intros Hb Hu Hr [c Hup Hc Hget Ht | c Hup Hc Hget Ht].
  - apply getUpstashRedis_ok in Hc. apply upstash_get_ok in Hget as [Hg ->].
    apply (miss_upstash _ _ _ (match upstash w !! key with Some e => payload e | None => VNull end));
      try assumption.
    + apply getUpstashRedis_ok. congruence.
    + apply upstash_get_ok. rewrite Hb, Hu. split; [assumption|reflexivity].
  - apply getUpstashRedis_ok in Hc. apply redis_get_ok in Hget as [Hg ->].
    apply (miss_redis _ _ _ (payload <$> redis w !! key)); try assumption.
    + apply getUpstashRedis_ok. congruence.
    + apply redis_get_ok. rewrite Hb, Hr. split; [assumption|reflexivity].
Qed.

(** X9. In the user-specific scope one caller's call does not fill the cache of
    another caller: if the second caller's lookup missed before the first
    caller's call it still misses after it, and the second caller's call
    runs the procedure. *)
Theorem callers_do_not_share_user_entries
    (JSON_parse : string → completion value) (cfg : CacheConfig) (ctx1 ctx2 : TRPCContext)
    (path : string) (next1 next2 : procedure) (input : value) (key1 key2 : string)
    (w w1 : world) (r1 : completion value) :
  getCacheKey cfg = None →
  enabled (globalCache cfg) = false →
  enabled (userSpecific cfg) = true →
  userId_of ctx1 ≠ userId_of ctx2 →
  createCacheKey path input ctx1 cfg = Normal key1 →
  createCacheKey path input ctx2 cfg = Normal key2 →
  cache_miss cfg key2 w →
  middleware JSON_parse cfg ctx1 path next1 input w = (r1, w1) →
  cache_miss cfg key2 w1
  ∧ ∃ r2 w2, middleware JSON_parse cfg ctx2 path next2 input w1 = (r2, w2)
             ∧ (calls w1 < calls w2)%nat.
Proof.
  intros Hcustom Hg Hu Hid Hk1 Hk2 Hmiss Hrun.
  assert (Hne : key2 ≠ key1).
  { intros Heq. apply Hid. symmetry.
    apply (user_scope_keys path input ctx2 ctx1 cfg key2 key1); assumption. }
  destruct (footprint_of_call JSON_parse cfg ctx1 path next1 input key1 Hk1 w r1 w1 Hrun)
    as (Hb & Hother & _).
  destruct (Hother key2 Hne) as [Hupstash Hredis].
  assert (Hmiss1 : cache_miss cfg key2 w1) by (apply (cache_miss_transfer cfg key2 w); assumption).
  split; [exact Hmiss1|].
  destruct (miss_runs JSON_parse cfg ctx2 path next2 input key2 Hk2 w1 Hmiss1)
    as (r2 & w2 & Hrun2 & Hcase).
  exists r2, w2. split; [exact Hrun2|].
  destruct Hcase as [result w2 _ Hc _ _|]; [rewrite Hc; lia|simpl; lia].
Qed.

Lemma callers_do_not_share_witness :
  userId_of sample_ctx ≠ userId_of user2_ctx
  ∧ cache_miss defaultCacheConfig user2_key first_call.2.
Proof.
  assert (Hid : userId_of sample_ctx ≠ userId_of user2_ctx) by discriminate.
  split; [exact Hid|].
  refine (proj1 (callers_do_not_share_user_entries parse_unavailable defaultCacheConfig
                   sample_ctx user2_ctx sample_path succeeding succeeding sample_input
                   sample_key user2_key fresh first_call.2 first_call.1
                   eq_refl eq_refl eq_refl Hid eq_refl eq_refl _ (surjective_pairing _))).
  apply (miss_upstash _ _ _ VNull); reflexivity.
Defined.

(** X10. Outside the user-specific scope an entry written for one caller serves
    every caller: after a miss that stores a truthy value on the native
    store, the same call made by anyone returns the stored, sanitized value
    without running the procedure. *)
Theorem shared_entry_serves_every_caller
    (JSON_parse : string → completion value) (cfg : CacheConfig) (ctx1 ctx2 : TRPCContext)
    (path : string) (next1 next2 : procedure) (input : value) (key : string)
    (w : world) (result : value) :
  getCacheKey cfg ≠ None
  ∨ enabled (globalCache cfg) = true
  ∨ enabled (userSpecific cfg) = false →
  enabled (useUpstash cfg) = true →
  createCacheKey path input ctx1 cfg = Normal key →
  cache_miss cfg key w →
  next1 (calls w) = Normal result →
  set_throws (broken w) = false →
  truthy (sanitizeForCache result) = true →
  ∃ w', middleware JSON_parse cfg ctx1 path next1 input w = (Normal result, w')
        ∧ middleware JSON_parse cfg ctx2 path next2 input w'
          = (Normal (sanitizeForCache result), w').
Proof.
  intros Hscope Hup Hk1 Hmiss Hn Hs Ht.
  destruct (miss_stores JSON_parse cfg ctx1 path next1 input key Hk1 w result Hmiss Hn Hs)
    as (w' & Hrun & _ & Hb & Hcached); [left; exact Hup|].
  exists w'. split; [exact Hrun|].
  assert (Hk2 : createCacheKey path input ctx2 cfg = Normal key).
  { rewrite <- Hk1. apply key_outside_user_scope. exact Hscope. }
  apply (hit_returns_cached JSON_parse cfg ctx2 path next2 input key Hk2).
  unfold cached_as in Hcached. rewrite Hup in Hcached.
  destruct Hmiss as [c _ Hc Hget _ | c Hup' _ _ _]; [|congruence].
  apply getUpstashRedis_ok in Hc. apply upstash_get_ok in Hget as [Hg _].
  apply hit_upstash; try assumption.
  - apply getUpstashRedis_ok. congruence.
  - apply upstash_get_ok. rewrite Hb, Hcached. split; [assumption|reflexivity].
Qed.

Lemma shared_entry_witness :
  ∃ w', middleware parse_unavailable global_config sample_ctx sample_path succeeding
          sample_input fresh = (Normal sample_result, w')
        ∧ middleware parse_unavailable global_config user2_ctx sample_path
            failing sample_input w' = (Normal (sanitizeForCache sample_result), w').
Proof.
  apply (shared_entry_serves_every_caller parse_unavailable global_config sample_ctx
           user2_ctx sample_path succeeding failing sample_input global_key fresh
           sample_result).
  - right. left. reflexivity.
  - reflexivity.
  - reflexivity.
  - apply (miss_upstash _ _ _ VNull); reflexivity.
  - reflexivity.
  - reflexivity.
  - reflexivity.
Defined.

(** ** Construction-time validation *)

Lemma createCacheMiddleware_cases JSON_parse (config : option CacheConfigInput) :
  createCacheMiddleware JSON_parse config =
  match in_ttl (default no_config config) with
  | Given seconds =>
      if Z.leb seconds 0 then Throw (ZodError "Number must be greater than 0")
      else Normal (middleware JSON_parse
                     (merge_config defaultCacheConfig (default no_config config)))
  | _ => Normal (middleware JSON_parse
                   (merge_config defaultCacheConfig (default no_config config)))
  end.
Proof.
  unfold createCacheMiddleware, cacheConfigSchema_parse.
  destruct (in_ttl (default no_config config)) as [| |seconds]; try reflexivity.
  destruct (Z.leb seconds 0); reflexivity.
Qed.

(** X11. A configuration is refused at construction exactly when it gives a
    [ttl] that is not positive; and whatever a constructed middleware writes
    carries either no expiry or a positive one, so the string client's
    [setEx] and the native client's [ex] never see zero or a negative
    number. *)
Theorem constructed_middleware_writes_valid_expiry
    (JSON_parse : string → completion value) (config : option CacheConfigInput)
    (mw : interceptor) (ctx : TRPCContext) (path : string) (next : procedure)
    (input : value) (w w' : world) (r : completion value) :
  createCacheMiddleware JSON_parse config = Normal mw →
  mw ctx path next input w = (r, w') →
  (∀ seconds, in_ttl (default no_config config) = Given seconds → 0 < seconds)
  ∧ (∀ k e, upstash w' !! k = Some e → upstash w !! k ≠ Some e →
            ∀ seconds, expires_in e = Some seconds → 0 < seconds)
  ∧ (∀ k e, redis w' !! k = Some e → redis w !! k ≠ Some e →
            ∀ seconds, expires_in e = Some seconds → 0 < seconds).
Proof.
  rewrite createCacheMiddleware_cases. intros Hmw Hrun.
  set (raw := default no_config config) in *.
  set (cfg := merge_config defaultCacheConfig raw) in *.
  assert (Hpos : ∀ seconds, in_ttl raw = Given seconds → 0 < seconds).
  { intros seconds E. rewrite E in Hmw.
    destruct (Z.leb_spec seconds 0); [discriminate|assumption]. }
  assert (Hmw' : mw = middleware JSON_parse cfg).
  { destruct (in_ttl raw) as [| |seconds]; try (injection Hmw as <-; reflexivity).
    destruct (Z.leb seconds 0); [discriminate|]. injection Hmw as <-. reflexivity. }
  assert (Httl : ∀ seconds, ttl cfg = Some seconds → 0 < seconds).
  { intros seconds. unfold cfg. rewrite merged_ttl.
    destruct (in_ttl raw) as [| |t] eqn:E; intros [= <-]; [lia|]. apply Hpos. reflexivity. }
  split; [exact Hpos|]. subst mw.
  destruct (createCacheKey path input ctx cfg) as [key|e] eqn:Hkey.
  2:{ rewrite (middleware_key_throws _ _ _ _ _ _ e w Hkey) in Hrun.
      injection Hrun as <- <-. split; intros k en H1 H2; contradiction. }
  destruct (enabled (useUpstash cfg)) eqn:Hup.
  - rewrite (middleware_upstash _ _ _ _ _ _ key) in Hrun by assumption.
    assert (Hcases : (upstash w' = upstash w ∧ redis w' = redis w)
                     ∨ ∃ v, upstash w' = <[key := Entry v (ttl cfg)]> (upstash w)
                            ∧ redis w' = redis w).
    { destruct (connect_throws (broken w) || get_throws (broken w));
        [injection Hrun as <- <-; left; split; reflexivity|].
      simpl in Hrun. destruct (truthy _); [injection Hrun as <- <-; left; split; reflexivity|].
      destruct (next (calls w)); [|injection Hrun as <- <-; left; split; reflexivity].
      destruct (set_throws (broken w)); injection Hrun as <- <-;
        [left; split; reflexivity|right; eexists; split; reflexivity]. }
    destruct Hcases as [[Hu Hr]|(v & Hu & Hr)]; rewrite Hu, Hr;
      (split; [|intros k en H1 H2; contradiction]).
    + intros k en H1 H2; contradiction.
    + intros k en H1 H2 seconds Hex.
      destruct (decide (k = key)) as [->|Hne].
      * rewrite lookup_insert_eq in H1. injection H1 as <-. apply Httl. exact Hex.
      * rewrite lookup_insert_ne in H1 by congruence. contradiction.
  - rewrite (middleware_redis _ _ _ _ _ _ key) in Hrun by assumption.
    assert (Hcases : (upstash w' = upstash w ∧ redis w' = redis w)
                     ∨ ∃ v, redis w' = <[key := Entry v (ttl cfg)]> (redis w)
                            ∧ upstash w' = upstash w).
    { destruct (connect_throws (broken w) || get_throws (broken w));
        [injection Hrun as <- <-; left; split; reflexivity|].
      simpl in Hrun. destruct (nonempty _).
      { destruct (JSON_parse _); injection Hrun as <- <-; left; split; reflexivity. }
      destruct (next (calls w)); [|injection Hrun as <- <-; left; split; reflexivity].
      destruct (JSON_stringify _) as [[text|]|e];
        try (injection Hrun as <- <-; left; split; reflexivity).
      destruct (set_throws (broken w)); injection Hrun as <- <-;
        [left; split; reflexivity|right; eexists; split; reflexivity]. }
    destruct Hcases as [[Hu Hr]|(v & Hr & Hu)]; rewrite Hu, Hr;
      (split; [intros k en H1 H2; contradiction|]).
    + intros k en H1 H2; contradiction.
    + intros k en H1 H2 seconds Hex.
      destruct (decide (k = key)) as [->|Hne].
      * rewrite lookup_insert_eq in H1. injection H1 as <-. apply Httl. exact Hex.
      * rewrite lookup_insert_ne in H1 by congruence. contradiction.
Qed.

Lemma constructed_middleware_witness :
  createCacheMiddleware parse_unavailable None
    = Normal (middleware parse_unavailable defaultCacheConfig)
  ∧ ∀ k e, upstash first_call.2 !! k = Some e → upstash fresh !! k ≠ Some e →
           ∀ seconds, expires_in e = Some seconds → 0 < seconds.
Proof.
  split; [reflexivity|].
  exact (proj1 (proj2 (constructed_middleware_writes_valid_expiry parse_unavailable None
                         (middleware parse_unavailable defaultCacheConfig) sample_ctx
                         sample_path succeeding sample_input fresh first_call.2 first_call.1
                         eq_refl (surjective_pairing _)))).
Defined.

(** A non-positive [ttl] is refused when the middleware is constructed, not
    when it is called. *)
Lemma nonpositive_ttl_is_refused
    (JSON_parse : string → completion value) (raw : CacheConfigInput) (seconds : Z) :
  in_ttl raw = Given seconds →
  (seconds ≤ 0)%Z →
  createCacheMiddleware JSON_parse (Some raw)
  = Throw (ZodError "Number must be greater than 0").
Proof.
  intros E Hle. rewrite createCacheMiddleware_cases. simpl. rewrite E.
  destruct (Z.leb_spec seconds 0); [reflexivity|lia].
Qed.

(** ** A backend that is down *)

Lemma middleware_backend_down
    (JSON_parse : string → completion value) (cfg : CacheConfig) (ctx : TRPCContext)
    (path : string) (next : procedure) (input : value) (key : string) (w : world) :
  createCacheKey path input ctx cfg = Normal key →
  connect_throws (broken w) || get_throws (broken w) = true →
  middleware JSON_parse cfg ctx path next input w = call next w.
Proof.
  intros Hkey Hdown. destruct (enabled (useUpstash cfg)) eqn:Hup.
  - rewrite (middleware_upstash _ _ _ _ _ _ key) by assumption. rewrite Hdown. reflexivity.
  - rewrite (middleware_redis _ _ _ _ _ _ key) by assumption. rewrite Hdown. reflexivity.
Qed.

(** X12. While the connection factory or the read throws, caching is off and
    nothing else changes: the [n]-th call in a row runs the wrapped
    procedure exactly once and returns its outcome, and the backends are
    never written. *)
Theorem outage_degrades_to_no_caching
    (JSON_parse : string → completion value) (cfg : CacheConfig) (ctx : TRPCContext)
    (path : string) (next : procedure) (input : value) (key : string) (w : world) (n : nat) :
  createCacheKey path input ctx cfg = Normal key →
  connect_throws (broken w) || get_throws (broken w) = true →
  calls (repeatedly n (middleware JSON_parse cfg ctx path next input) w) = (calls w + n)%nat
  ∧ same_backends w (repeatedly n (middleware JSON_parse cfg ctx path next input) w)
  ∧ (middleware JSON_parse cfg ctx path next input
       (repeatedly n (middleware JSON_parse cfg ctx path next input) w)).1
    = next (calls w + n)%nat.
Proof.
  intros Hkey. revert w. induction n as [|n IH]; intros w Hdown; simpl.
  - rewrite (middleware_backend_down _ _ _ _ _ _ key) by assumption.
    rewrite Nat.add_0_r. repeat split.
  - rewrite (middleware_backend_down _ _ _ _ _ _ key w) by assumption.
    change (call next w).2 with (bump w).
    destruct (IH (bump w) Hdown) as (Hc & Hsame & Hout).
    split; [|split].
    + rewrite Hc. simpl. lia.
    + exact (same_backends_trans _ _ _ (same_backends_bump w) Hsame).
    + rewrite Hout. simpl. f_equal. lia.
Qed.

Lemma outage_witness :
  createCacheKey sample_path sample_input sample_ctx defaultCacheConfig = Normal sample_key
  ∧ calls (repeatedly 3
             (middleware parse_unavailable defaultCacheConfig sample_ctx sample_path
                succeeding sample_input) unreachable) = 3%nat.
Proof.
  split; [reflexivity|].
  exact (proj1 (outage_degrades_to_no_caching parse_unavailable defaultCacheConfig sample_ctx
                  sample_path succeeding sample_input sample_key unreachable 3
                  eq_refl eq_refl)).
Defined.

(** ** [invalidateCache] *)

Lemma invalidateCache_cases (path : string) (input : value)
    (options : option InvalidateOptions) (key : string) (w : world) :
  invalidate_key path input (default no_options options) = Normal key →
  invalidateCache path input options w =
    if connect_throws (broken w) then (Throw connection_error, w)
    else if del_throws (broken w) then (Throw command_error, w)
    else if enabled (useUpstash (invalidate_config (default no_options options)))
    then (Normal tt, with_upstash w (delete key (upstash w)))
    else (Normal tt, with_redis w (delete key (redis w))).
Proof.
  intros Hkey.
  unfold invalidateCache, try_catch, throw, mbind, M_bind, lift, getStandardRedis,
    getUpstashRedis, upstash_del, redis_del.
  rewrite Hkey.
  destruct (enabled (useUpstash (invalidate_config (default no_options options))));
    destruct (connect_throws (broken w)); simpl; try reflexivity;
    destruct (del_throws (broken w)); reflexivity.
Qed.

(** X13. Unlike the middleware, [invalidateCache] hands every failure to its
    caller: an exception of the key derivation, of the connection factory or
    of the delete command comes out as it was thrown, and nothing has been
    deleted. *)
Theorem invalidateCache_propagates_failures
    (path : string) (input : value) (options : option InvalidateOptions) (w : world) :
  is_Some (match invalidate_key path input (default no_options options) with
           | Throw e => Some e
           | Normal _ => None
           end)
  ∨ connect_throws (broken w) = true
  ∨ del_throws (broken w) = true →
  ∃ e, invalidateCache path input options w = (Throw e, w)
       ∧ (e = connection_error ∨ e = command_error
          ∨ invalidate_key path input (default no_options options) = Throw e).
Proof.
  intros Hfail.
  destruct (invalidate_key path input (default no_options options)) as [key|e] eqn:Hkey.
  - rewrite (invalidateCache_cases _ _ _ key) by exact Hkey.
    destruct Hfail as [[? [=]]|[Hc|Hd]].
    + rewrite Hc. eauto.
    + destruct (connect_throws (broken w)); [eauto|]. rewrite Hd. eauto.
  - exists e. split; [|auto].
    unfold invalidateCache, mbind, M_bind, lift. rewrite Hkey. reflexivity.
Qed.

Lemma invalidateCache_propagates_witness :
  ∃ e, invalidateCache sample_path sample_input None delete_fails = (Throw e, delete_fails).
Proof.
  destruct (invalidateCache_propagates_failures sample_path sample_input None delete_fails)
    as (e & Hrun & _).
  - right. right. reflexivity.
  - exists e. exact Hrun.
Defined.

(** X14. A successful invalidation removes the entry under its key from the
    backend the options select and changes nothing else; it does not run
    any procedure; and doing it again, now that the key is missing, succeeds
    and changes nothing. *)
Theorem invalidateCache_removes_only_its_key
    (path : string) (input : value) (options : option InvalidateOptions)
    (key : string) (w w' : world) :
  invalidate_key path input (default no_options options) = Normal key →
  invalidateCache path input options w = (Normal tt, w') →
  calls w' = calls w
  ∧ broken w' = broken w
  ∧ (∀ k, k ≠ key → upstash w' !! k = upstash w !! k ∧ redis w' !! k = redis w !! k)
  ∧ (if enabled (useUpstash (invalidate_config (default no_options options)))
     then upstash w' !! key = None ∧ redis w' = redis w
     else redis w' !! key = None ∧ upstash w' = upstash w)
  ∧ invalidateCache path input options w' = (Normal tt, w').
Proof.
  intros Hkey Hrun.
  rewrite (invalidateCache_cases _ _ _ key) in Hrun by exact Hkey.
  rewrite (invalidateCache_cases _ _ _ key) by exact Hkey.
  destruct (connect_throws (broken w)) eqn:Hc; [discriminate|].
  destruct (del_throws (broken w)) eqn:Hd; [discriminate|].
  destruct (enabled (useUpstash (invalidate_config (default no_options options))));
    injection Hrun as <-; simpl; rewrite Hc, Hd; repeat split;
    try (apply lookup_delete_ne; congruence); try apply lookup_delete_eq.
  - unfold with_upstash. simpl. rewrite delete_delete_eq. reflexivity.
  - unfold with_redis. simpl. rewrite delete_delete_eq. reflexivity.
Qed.

Lemma invalidateCache_removes_only_its_key_witness :
  invalidate_key sample_path sample_input user1_options = Normal sample_key
  ∧ upstash first_call.2 !! sample_key
    = Some (Entry (sanitizeForCache sample_result) (Some 60))
  ∧ upstash (invalidateCache sample_path sample_input (Some user1_options) first_call.2).2
      !! sample_key = None.
Proof.
  split; [reflexivity|]. split; [vm_compute; reflexivity|].
  destruct (invalidateCache_removes_only_its_key sample_path sample_input
              (Some user1_options) sample_key first_call.2
              (invalidateCache sample_path sample_input (Some user1_options) first_call.2).2)
    as (_ & _ & _ & Hgone & _).
  - reflexivity.
  - vm_compute. reflexivity.
  - exact (proj1 Hgone).
Defined.

(** X15. Called with options of the declared shape, which carry no
    [getCacheKey], [invalidateCache] cannot name a key that does not start
    with [trpc:]: whatever its other arguments and whether it succeeds or
    throws, the entries under such keys, for instance those a middleware
    with a custom key function wrote, are still there afterwards. *)
Theorem invalidateCache_cannot_reach_custom_keys
    (path : string) (input : value) (options : option InvalidateOptions)
    (w : world) (k : string) :
  spread None (opt_getCacheKey (default no_options options)) = None →
  String.prefix "trpc:" k = false →
  upstash (invalidateCache path input options w).2 !! k = upstash w !! k
  ∧ redis (invalidateCache path input options w).2 !! k = redis w !! k.
Proof.
  intros Hnone Hk.
  destruct (invalidate_key path input (default no_options options)) as [key|e] eqn:Hkey.
  - assert (Hne : key ≠ k).
    { intros ->. apply invalidate_key_prefix in Hkey; [congruence|exact Hnone]. }
    rewrite (invalidateCache_cases _ _ _ key) by exact Hkey.
    destruct (connect_throws (broken w)); [split; reflexivity|].
    destruct (del_throws (broken w)); [split; reflexivity|].
    destruct (enabled _); simpl; split; try reflexivity; apply lookup_delete_ne; exact Hne.
  - unfold invalidateCache, mbind, M_bind, lift. rewrite Hkey. split; reflexivity.
Qed.

Lemma invalidateCache_cannot_reach_custom_keys_witness :
  String.prefix "trpc:" custom_key = false
  ∧ is_Some (upstash (middleware parse_unavailable custom_key_config sample_ctx sample_path
                        succeeding sample_input fresh).2 !! custom_key)
  ∧ upstash (invalidateCache sample_path sample_input (Some user1_options)
               (middleware parse_unavailable custom_key_config sample_ctx sample_path
                  succeeding sample_input fresh).2).2 !! custom_key
    = upstash (middleware parse_unavailable custom_key_config sample_ctx sample_path
                 succeeding sample_input fresh).2 !! custom_key.
Proof.
  split; [reflexivity|]. split; [vm_compute; eauto|].
  exact (proj1 (invalidateCache_cannot_reach_custom_keys sample_path sample_input
                  (Some user1_options) _ custom_key eq_refl eq_refl)).
Defined.

(** The other half: the spread hands a [getCacheKey] found in the options to
    the key derivation, and the entry under the custom key is deleted. *)
Example invalidateCache_with_key_function :
  is_Some (upstash (middleware parse_unavailable custom_key_config sample_ctx sample_path
                      succeeding sample_input fresh).2 !! custom_key)
  ∧ invalidate_key sample_path sample_input custom_key_options = Normal custom_key
  ∧ upstash (invalidateCache sample_path sample_input (Some custom_key_options)
               (middleware parse_unavailable custom_key_config sample_ctx sample_path
                  succeeding sample_input fresh).2).2 !! custom_key = None.
Proof. split; [vm_compute; eauto|]. split; vm_compute; reflexivity. Qed.

(** X16. The round trip the tests make: for a caller without identity or with a
    non-empty id, and options that agree with the middleware's key function
    (none, in the tests), scope flags and backend, a successful
    [invalidateCache] leaves a miss behind, and the next call of the
    middleware runs the procedure again. *)
Theorem invalidation_round_trip
    (JSON_parse : string → completion value) (cfg : CacheConfig) (ctx : TRPCContext)
    (path : string) (next : procedure) (input : value) (options : InvalidateOptions)
    (key : string) (w : world) :
  getCacheKey cfg = getCacheKey (invalidate_config options) →
  enabled (globalCache cfg) = enabled (globalCache (invalidate_config options)) →
  enabled (userSpecific cfg) = enabled (userSpecific (invalidate_config options)) →
  enabled (useUpstash cfg) = enabled (useUpstash (invalidate_config options)) →
  caller_identity ctx = spread None (opt_userId options) →
  caller_identity ctx ≠ Some EmptyString →
  createCacheKey path input ctx cfg = Normal key →
  broken w = healthy →
  ∃ w', invalidateCache path input (Some options) w = (Normal tt, w')
        ∧ cache_miss cfg key w'
        ∧ ∃ r w'', middleware JSON_parse cfg ctx path next input w' = (r, w'')
                   ∧ (calls w < calls w'')%nat.
Proof.
  intros Hcustom Hg Hu Hup Hid Hne Hkey Hb.
  assert (Hikey : invalidate_key path input options = Normal key).
  { rewrite <- Hkey. apply invalidate_key_agrees; assumption. }
  destruct (invalidate_then_miss path input options cfg key w Hikey Hup Hb)
    as (w' & Hrun & Hc & Hmiss).
  exists w'. split; [exact Hrun|]. split; [exact Hmiss|].
  destruct (miss_runs JSON_parse cfg ctx path next input key Hkey w' Hmiss)
    as (r & w'' & Hrun' & Hcase).
  exists r, w''. split; [exact Hrun'|].
  destruct Hcase as [result w'' _ Hc' _ _|]; [rewrite Hc'; lia|simpl; lia].
Qed.

Lemma invalidation_round_trip_witness :
  caller_identity sample_ctx = spread None (opt_userId user1_options)
  ∧ ∃ w', invalidateCache sample_path sample_input (Some user1_options) first_call.2
          = (Normal tt, w')
          ∧ cache_miss defaultCacheConfig sample_key w'.
Proof.
  split; [reflexivity|].
  destruct (invalidation_round_trip parse_unavailable defaultCacheConfig sample_ctx sample_path
              succeeding sample_input user1_options sample_key first_call.2)
    as (w' & Hrun & Hmiss & _); try reflexivity.
  - discriminate.
  - exists w'. split; [exact Hrun|exact Hmiss].
Defined.

(** ** [safeStringify]: shared references *)

Section SeenGrows.
Import Graph.
Variable h : heap.

Section LoopsGrow.
Variable property : gset addr → string → gvalue → completion (option string * gset addr).
Hypothesis property_grows :
  ∀ seen key v o seen', property seen key v = Normal (o, seen') → seen ⊆ seen'.

Lemma array_elements_grows items :
  ∀ index seen partial seen',
    array_elements property items index seen = Normal (partial, seen') → seen ⊆ seen'.
Proof.
  induction items as [|x rest IH]; intros index seen partial seen'; simpl.
  - intros [= _ <-]. reflexivity.
  - destruct (property seen (pretty index) x) as [[o seen1]|e] eqn:E; [|discriminate].
    destruct (array_elements property rest (S index) seen1) as [[p seen2]|e] eqn:E2;
      [|discriminate].
    intros [= _ <-]. etrans; [exact (property_grows _ _ _ _ _ E)|exact (IH _ _ _ _ E2)].
Qed.

Lemma object_members_grows props :
  ∀ seen partial seen',
    object_members property props seen = Normal (partial, seen') → seen ⊆ seen'.
Proof.
  induction props as [|kv rest IH]; intros seen partial seen'; simpl.
  - intros [= _ <-]. reflexivity.
  - destruct (property seen kv.1 kv.2) as [[o seen1]|e] eqn:E; [|discriminate].
    destruct (object_members property rest seen1) as [[p seen2]|e] eqn:E2; [|discriminate].
    intros [= _ <-]. etrans; [exact (property_grows _ _ _ _ _ E)|exact (IH _ _ _ E2)].
Qed.
End LoopsGrow.

(** The [seen] set only grows, and an object the replacer was called with
    is in it afterwards. *)
Lemma serialize_seen_grows depth :
  ∀ stack seen key v o seen',
    serialize seen_replacer h depth stack seen key v = Normal (o, seen') →
    seen ⊆ seen' ∧ (∀ a, v = GRef a → a ∈ seen').
Proof.
  induction depth as [|depth IH]; intros stack seen key v o seen'; [discriminate|].
  destruct v as [| |[]|n|s|z|d|f|iso|a]; simpl;
    try (intros [= _ <-]; split; [reflexivity|discriminate]); try discriminate.
  destruct (decide (a ∈ seen)) as [Hin|Hout].
  { intros [= _ <-]. split; [reflexivity|]. intros ? [= <-]. exact Hin. }
  destruct (decide (a ∈ stack)); [discriminate|].
  assert (Hinner : ∀ seen1 key1 v1 o1 seen1',
            serialize seen_replacer h depth ({[a]} ∪ stack) seen1 key1 v1 = Normal (o1, seen1') →
            seen1 ⊆ seen1').
  { intros seen1 key1 v1 o1 seen1' E. exact (proj1 (IH _ _ _ _ _ _ E)). }
  destruct (h !! a) as [[items|props]|]; [| |discriminate].
  - destruct (array_elements _ items 0%nat ({[a]} ∪ seen)) as [[p seen2]|e] eqn:E; [|discriminate].
    intros [= _ <-]. pose proof (array_elements_grows _ Hinner _ _ _ _ _ E) as Hsub.
    split; [set_solver|]. intros ? [= <-]. set_solver.
  - destruct (object_members _ props ({[a]} ∪ seen)) as [[p seen2]|e] eqn:E; [|discriminate].
    intros [= _ <-]. pose proof (object_members_grows _ Hinner _ _ _ _ E) as Hsub.
    split; [set_solver|]. intros ? [= <-]. set_solver.
Qed.
End SeenGrows.

(** X17. Sharing is enough, no cycle is needed: when an array holds another
    object twice, the first occurrence is printed in full, as the
    specification describes the text of that object once the array has been
    visited, and the second one is the marker. *)
Theorem shared_reference_prints_marker
    (depth : nat) (h : Graph.heap) (a b : Graph.addr) :
  Graph.closed h →
  Graph.bigint_free h →
  h !! b = Some (Graph.CArray [Graph.GRef a; Graph.GRef a]) →
  a ≠ b →
  (size h < depth)%nat →
  ∃ text seen,
    marks h {[b]} (Graph.GRef a) (Some text) seen
    ∧ text ≠ QuoteJSONString Graph.circular_marker
    ∧ Graph.safeStringify depth h (Graph.GRef b)
      = Graph.GString ("[" ++ text ++ "," ++ QuoteJSONString Graph.circular_marker ++ "]").
Proof.
  intros Hclosed Hfree Hb Hne Hsize.
  assert (Hbdom : b ∈ dom h) by (apply elem_of_dom; eauto).
  destruct depth as [|depth]; [lia|].
  unfold Graph.safeStringify, Graph.JSON_stringify_with.
  cbn [Graph.serialize Graph.toJSON Graph.seen_replacer].
  destruct (decide (b ∈ (∅ : gset positive))) as [Hin|_]; [set_solver|].
  destruct (decide (b ∈ (∅ : gset positive))) as [Hin|_]; [set_solver|].
  rewrite Hb. cbn [Graph.array_elements].
  pose proof (Hclosed b _ Hb) as Hall. simpl in Hall.
  apply Forall_cons in Hall as [Ha _].
  destruct (serialize_total h Hclosed Hfree depth ({[b]} ∪ ∅) ({[b]} ∪ ∅) (pretty 0%nat)
              (Graph.GRef a)) as (o & seen1 & Hrun & _ & Hsome).
  { reflexivity. }
  { assert (size (dom h ∖ ({[b]} ∪ ∅)) < size (dom h))%nat.
    { apply subset_size. split.
      - intros x Hx. apply elem_of_difference in Hx as [Hx _]. exact Hx.
      - intros Hsub. specialize (Hsub b Hbdom).
        apply elem_of_difference in Hsub as [_ Hn]. apply Hn.
        apply elem_of_union_l, elem_of_singleton. reflexivity. }
    rewrite size_dom in *. lia. }
  { split; [exact Ha|exact I]. }
  destruct (Hsome a eq_refl) as [text ->].
  rewrite Hrun.
  pose proof (serialize_marks h depth _ _ _ _ _ _ Hrun) as Hmarks.
  rewrite (right_id_L ∅ (∪)) in Hmarks.
  destruct (serialize_seen_grows h _ _ _ _ _ _ _ Hrun) as [_ Hmarked].
  destruct depth as [|depth]; [discriminate Hrun|].
  rewrite (serialize_seen h depth _ seen1 _ a (Hmarked a eq_refl)).
  exists text, seen1. split; [exact Hmarks|]. split.
  - inversion Hmarks; subst.
    + discriminate.
    + match goal with Hin : a ∈ {[b]} |- _ => apply elem_of_singleton in Hin end.
      contradiction.
    + intros Heq. discriminate Heq.
    + intros Heq. discriminate Heq.
  - cbn [String.concat default]. rewrite !append_assoc. reflexivity.
Qed.

Lemma shared_reference_witness :
  ∃ text seen,
    marks Graph.shared_heap {[2%positive]} (Graph.GRef 1%positive) (Some text) seen
    ∧ text ≠ QuoteJSONString Graph.circular_marker
    ∧ Graph.safeStringify 3 Graph.shared_heap (Graph.GRef 2%positive)
      = Graph.GString ("[" ++ text ++ "," ++ QuoteJSONString Graph.circular_marker ++ "]").
Proof.
  apply (shared_reference_prints_marker 3 Graph.shared_heap 1%positive 2%positive).
  - intros a c Hc. unfold Graph.shared_heap in Hc.
    apply lookup_insert_Some in Hc as [[<- <-]|[_ Hc]].
    { repeat constructor. }
    apply lookup_singleton_Some in Hc as [<- <-].
    repeat constructor; apply elem_of_dom; eexists; reflexivity.
  - intros a c Hc. unfold Graph.shared_heap in Hc.
    apply lookup_insert_Some in Hc as [[<- <-]|[_ Hc]].
    { repeat constructor. }
    apply lookup_singleton_Some in Hc as [<- <-].
    repeat constructor.
  - reflexivity.
  - discriminate.
  - vm_compute. lia.
Defined.

(** ** [safeStringify] on data without shared objects *)

Lemma SerializeJSONProperty_array items :
  SerializeJSONProperty (VArray items) =
  match serialize_elements items with
  | Throw e => Throw e
  | Normal partial => Normal (Some ("[" ++ String.concat "," partial ++ "]"))
  end.
Proof. reflexivity. Qed.

Lemma SerializeJSONProperty_object p props :
  SerializeJSONProperty (VObject p props) =
  match serialize_members props with
  | Throw e => Throw e
  | Normal partial => Normal (Some ("{" ++ String.concat "," partial ++ "}"))
  end.
Proof. reflexivity. Qed.

Section Unshared.
Import Graph.
Variable h : heap.

Lemma array_elements_agree depth stack gitems items F :
  tiled (λ g v G, represents h g v G ∧ agrees h depth g v G) gitems items F →
  ∀ index seen,
    F ## seen → stack ⊆ seen →
    array_elements (serialize seen_replacer h depth stack) gitems index seen =
    match serialize_elements items with
    | Normal partial => Normal (partial, F ∪ seen)
    | Throw e => Throw e
    end.
Proof.
  induction 1 as [|g v G gs vs Gs [_ Hagree] _ IH Hdisj]; intros index seen Hfresh Hstack.
  - simpl. f_equal. f_equal. set_solver.
  - simpl. rewrite (Hagree stack seen (pretty index)) by set_solver.
    destruct (SerializeJSONProperty v) as [text|e]; [|reflexivity].
    rewrite (IH (S index) (G ∪ seen)) by set_solver.
    destruct (serialize_elements vs) as [partial|e]; [|reflexivity].
    f_equal. f_equal. set_solver.
Qed.

Lemma object_members_agree depth stack gprops props F :
  tiled (λ gkv kv G, gkv.1 = kv.1 ∧ represents h gkv.2 kv.2 G ∧ agrees h depth gkv.2 kv.2 G)
    gprops props F →
  ∀ seen,
    F ## seen → stack ⊆ seen →
    object_members (serialize seen_replacer h depth stack) gprops seen =
    match serialize_members props with
    | Normal partial => Normal (partial, F ∪ seen)
    | Throw e => Throw e
    end.
Proof.
  induction 1 as [|g v G gs vs Gs (Hk & _ & Hagree) _ IH Hdisj]; intros seen Hfresh Hstack.
  - simpl. f_equal. f_equal. set_solver.
  - simpl. rewrite (Hagree stack seen g.1) by set_solver.
    destruct (SerializeJSONProperty v.2) as [text|e]; [|reflexivity].
    rewrite (IH (G ∪ seen)) by set_solver.
    destruct (serialize_members vs) as [partial|e]; [|reflexivity].
    rewrite Hk. f_equal. f_equal. set_solver.
Qed.

Lemma tiled_impl {A B : Type} (R R' : A → B → gset addr → Prop) (P : B → Prop) l1 l2 F :
  (∀ a b G, P b → R a b G → R' a b G) →
  Forall P l2 →
  tiled R l1 l2 F → tiled R' l1 l2 F.
Proof.
  intros Himpl Hall Ht. induction Ht as [|a b G l1 l2 Gs HR _ IH Hdisj].
  - constructor.
  - apply Forall_cons in Hall as [Hb Hrest].
    constructor; [apply Himpl; assumption|apply IH; exact Hrest|exact Hdisj].
Qed.

Lemma height_items_le (items : list value) (depth : nat) :
  (list_max (map height items) ≤ depth)%nat → Forall (λ v, (height v ≤ depth)%nat) items.
Proof.
  induction items as [|x rest IH]; simpl; intros H; constructor; [lia|apply IH; lia].
Qed.

Lemma height_props_le (props : list (string * value)) (depth : nat) :
  (list_max (map (λ kv : string * value, height kv.2) props) ≤ depth)%nat →
  Forall (λ kv, (height kv.2 ≤ depth)%nat) props.
Proof.
  induction props as [|x rest IH]; simpl; intros H; constructor; [lia|apply IH; lia].
Qed.

(** On the graph of a tree the [seen] replacer never replaces anything and
    the printers agree, exception for exception. *)
Lemma serialize_unshared (v : value) :
  ∀ g F depth, represents h g v F → (height v ≤ depth)%nat → agrees h depth g v F.
Proof.
  induction v as [| | | | | | | | |items IH|p props IH] using value_ind';
    intros g F depth Hrep Hheight; inversion Hrep; subst;
    destruct depth as [|depth]; try (simpl in Hheight; lia);
    intros stack seen key Hfresh Hstack;
    try (simpl; f_equal; f_equal; set_solver);
    try reflexivity.
  - destruct b; simpl; f_equal; f_equal; set_solver.
  - cbn [serialize toJSON seen_replacer].
    destruct (decide (a ∈ seen)) as [Hin|_]; [set_solver|].
    destruct (decide (a ∈ stack)) as [Hin|_]; [set_solver|].
    rewrite H0, SerializeJSONProperty_array.
    simpl in Hheight. apply le_S_n, height_items_le in Hheight.
    assert (Htiled : tiled (λ g v G, represents h g v G ∧ agrees h depth g v G) gitems items F0).
    { apply (tiled_impl (represents h)
               (λ g v G, represents h g v G ∧ agrees h depth g v G)
               (λ v, (∀ g G d, represents h g v G →
                (height v ≤ d)%nat → agrees h d g v G) ∧ (height v ≤ depth)%nat)) in H1.
      - exact H1.
      - intros g v G [Hv Hd] Hr. split; [exact Hr|]. apply Hv; assumption.
      - apply Forall_and. split; [exact IH|exact Hheight]. }
    rewrite (array_elements_agree depth ({[a]} ∪ stack) gitems items F0 Htiled)
      by set_solver.
    destruct (serialize_elements items) as [partial|e]; [|reflexivity].
    f_equal. f_equal. set_solver.
  - cbn [serialize toJSON seen_replacer].
    destruct (decide (a ∈ seen)) as [Hin|_]; [set_solver|].
    destruct (decide (a ∈ stack)) as [Hin|_]; [set_solver|].
    rewrite H1, SerializeJSONProperty_object.
    simpl in Hheight. apply le_S_n, height_props_le in Hheight.
    assert (Htiled : tiled (λ gkv kv G, gkv.1 = kv.1 ∧ represents h gkv.2 kv.2 G
                                         ∧ agrees h depth gkv.2 kv.2 G) gprops props F0).
    { apply (tiled_impl
               (λ gkv kv G, gkv.1 = kv.1 ∧ represents h gkv.2 kv.2 G)
               (λ gkv kv G, gkv.1 = kv.1 ∧ represents h gkv.2 kv.2 G
                            ∧ agrees h depth gkv.2 kv.2 G)
               (λ kv, (∀ g G d, represents h g kv.2 G →
                (height kv.2 ≤ d)%nat → agrees h d g kv.2 G) ∧ (height kv.2 ≤ depth)%nat)) in H3.
      - exact H3.
      - intros gkv kv G [Hv Hd] [Hk Hr]. split; [exact Hk|]. split; [exact Hr|].
        apply Hv; assumption.
      - apply Forall_and. split; [exact IH|exact Hheight]. }
    rewrite (object_members_agree depth ({[a]} ∪ stack) gprops props F0 Htiled)
      by set_solver.
    destruct (serialize_members props) as [partial|e]; [|reflexivity].
    f_equal. f_equal. set_solver.
Qed.
End Unshared.

(** X18. On data in which no object is held twice [safeStringify] changes
    nothing: it returns the text [JSON.stringify] returns, [undefined] where
    that returns [undefined], and [null] where that throws. *)
Theorem safeStringify_agrees_with_JSON_stringify
    (h : Graph.heap) (g : Graph.gvalue) (v : value) (F : gset positive) (depth : nat) :
  represents h g v F →
  (height v ≤ depth)%nat →
  Graph.safeStringify depth h g = caught (JSON_stringify v).
Proof.
  intros Hrep Hheight.
  unfold Graph.safeStringify, Graph.JSON_stringify_with, JSON_stringify, caught.
  rewrite (serialize_unshared h v g F depth Hrep Hheight ∅ ∅ EmptyString) by set_solver.
  destruct (SerializeJSONProperty v) as [[text|]|e]; reflexivity.
Qed.

Lemma point_tree_represented :
  represents Graph.shared_heap (Graph.GRef 1%positive) point_tree ({[1%positive]} ∪ (∅ ∪ ∅)).
Proof.
  apply (rep_object _ _ [("x", Graph.GNumber (Int 1))]).
  - reflexivity.
  - apply (tiled_cons _ ("x", Graph.GNumber (Int 1)) ("x", VNumber (Int 1)) ∅ [] [] ∅).
    + split; [reflexivity|constructor].
    + constructor.
    + set_solver.
  - set_solver.
Qed.

Lemma safeStringify_agrees_witness :
  (height point_tree ≤ 2)%nat
  ∧ Graph.safeStringify 2 Graph.shared_heap (Graph.GRef 1%positive)
    = caught (JSON_stringify point_tree).
Proof.
  assert (Hheight : (height point_tree ≤ 2)%nat) by (vm_compute; lia).
  split; [exact Hheight|].
  exact (safeStringify_agrees_with_JSON_stringify _ _ _ _ 2 point_tree_represented Hheight).
Defined.

(** ** The cache utilities *)

Lemma valueStr_returns (v : value) :
  ∃ text, valueStr v = Normal (Some text)
          ∧ (text = EmptyString → v = VString EmptyString).
Proof.
  assert (Hmarker : JSON_stringify serialization_error = Normal (Some serialization_error_text))
    by (vm_compute; reflexivity).
  assert (Hfull : serialization_error_text ≠ EmptyString) by discriminate.
  destruct (JSON_stringify v) as [[text|]|e] eqn:Hv.
  - destruct v; try (unfold valueStr, safeStringify; rewrite Hv;
      pose proof (JSON_text_nonempty _ _ Hv) as Hne;
      destruct text as [|c rest]; [congruence|];
      exists (String c rest); split; [reflexivity|discriminate]).
    exists s. split; [reflexivity|]. intros ->. reflexivity.
  - destruct v; try (unfold valueStr, safeStringify; rewrite Hv, Hmarker;
      exists serialization_error_text; split; [reflexivity|intros H; congruence]).
    exists s. split; [reflexivity|]. intros ->. reflexivity.
  - destruct v; try (unfold valueStr, safeStringify; rewrite Hv, Hmarker;
      exists serialization_error_text; split; [reflexivity|intros H; congruence]).
    exists s. split; [reflexivity|]. intros ->. reflexivity.
Qed.

(** X19. [getCached] never throws and never changes a store; when the client's
    [get] fails the caller is told [null], as for a key that is not there. *)
Theorem getCached_never_throws (JSON_parse : string → completion value)
    (redis : client) (key : string) (w : world) :
  ∃ v, getCached JSON_parse redis key w = (Normal v, w)
       ∧ (get_throws (broken w) = true → v = VNull).
Proof.
  unfold getCached, try_catch. destruct redis; simpl.
  - unfold upstash_get. destruct (get_throws (broken w)).
    + exists VNull. split; reflexivity.
    + eexists. split; [reflexivity|discriminate].
  - unfold mbind, M_bind, redis_get. destruct (get_throws (broken w)); simpl.
    + exists VNull. split; reflexivity.
    + destruct (nonempty _); [|eexists; split; [reflexivity|discriminate]].
      unfold try_catch, lift. destruct (JSON_parse _);
        eexists; (split; [reflexivity|discriminate]).
Qed.

(** X20. On the string store [setCached] fails only when the client does: every
    value is turned into a text first, and the text is empty only for the
    empty string itself. *)
Theorem setCached_always_stores_a_text (key : string) (v : value) (ttl : option Z) (w : world) :
  set_throws (broken w) = false →
  ∃ text w',
    setCached RedisClient key v ttl w = (Normal tt, w')
    ∧ payload <$> redis w' !! key = Some text
    ∧ (text = EmptyString → v = VString EmptyString).
Proof.
  intros Hset. destruct (valueStr_returns v) as (text & Htext & Hempty).
  exists text.
  unfold setCached, try_catch, mbind, M_bind, lift. simpl. rewrite Htext.
  unfold redis_setEx, redis_set, redis_write.
  destruct (ttl_given ttl); rewrite Hset; eexists; (split; [reflexivity|]);
    simpl; rewrite lookup_insert_eq; (split; [reflexivity|exact Hempty]).
Qed.

Lemma setCached_always_stores_a_text_witness :
  ∃ text w',
    setCached RedisClient "k" bigint_input None fresh = (Normal tt, w')
    ∧ payload <$> redis w' !! "k" = Some text
    ∧ (text = EmptyString → bigint_input = VString EmptyString).
Proof.
  apply (setCached_always_stores_a_text "k" bigint_input None fresh). reflexivity.
Defined.

(** [safeStringify] as it is written, on the graph of a tree. *)
Lemma safeStringify_of_tree
    (h : Graph.heap) (g : Graph.gvalue) (v : value) (F : gset positive) (depth : nat) :
  represents h g v F →
  (height v ≤ depth)%nat →
  Graph.safeStringify depth h g = caught (JSON_stringify v).
Proof.
  intros Hrep Hheight.
  unfold Graph.safeStringify, Graph.JSON_stringify_with, JSON_stringify, caught.
  rewrite (serialize_unshared h v g F depth Hrep Hheight ∅ ∅ EmptyString) by set_solver.
  destruct (SerializeJSONProperty v) as [[text|]|e]; reflexivity.
Qed.

(** On the graph of a tree the text handed to the string client is the one
    computed on the tree. *)
Lemma valueStr_of_tree
    (h : Graph.heap) (g : Graph.gvalue) (v : value) (F : gset positive) (depth : nat) :
  represents h g v F →
  (height v ≤ depth)%nat →
  valueStr_of_graph depth h g = valueStr v.
Proof.
  intros Hrep Hheight.
  pose proof (safeStringify_of_tree h g v F depth Hrep Hheight) as Hsafe.
  destruct Hrep; try reflexivity;
    unfold valueStr_of_graph, valueStr, safeStringify; rewrite Hsafe; unfold caught;
    destruct (JSON_stringify _) as [[text|]|e]; reflexivity.
Qed.

(** X21. A value without shared or cyclic objects that [JSON.stringify]
    rejects (it holds a BigInt) or has no text for ([undefined], a function,
    a symbol) is stored on the string store as the text of the
    [__serialization_error] object, without an exception; and that text is
    what the expression in [setCached], with [safeStringify] as it is
    written, computes on every object graph that is this tree. *)
Theorem unserializable_value_is_stored_as_marker
    (key : string) (v : value) (ttl : option Z) (w : world) :
  set_throws (broken w) = false →
  (∀ text, JSON_stringify v ≠ Normal (Some text)) →
  (∃ w', setCached RedisClient key v ttl w = (Normal tt, w')
         ∧ payload <$> redis w' !! key = Some serialization_error_text)
  ∧ (∀ h g F depth,
       represents h g v F →
       (height v ≤ depth)%nat →
       valueStr_of_graph depth h g = Normal (Some serialization_error_text)).
Proof.
  intros Hset Hnone.
  assert (Htext : valueStr v = Normal (Some serialization_error_text)).
  { destruct v; try (exfalso; eapply Hnone; reflexivity);
      unfold valueStr, safeStringify;
      destruct (JSON_stringify _) as [[text|]|e];
      try (exfalso; exact (Hnone text eq_refl)); reflexivity. }
  split.
  - unfold setCached, try_catch, mbind, M_bind, lift. simpl. rewrite Htext.
    unfold redis_setEx, redis_set, redis_write.
    destruct (ttl_given ttl); rewrite Hset; eexists; (split; [reflexivity|]);
      simpl; rewrite lookup_insert_eq; reflexivity.
  - intros h g F depth Hrep Hheight.
    rewrite (valueStr_of_tree h g v F depth Hrep Hheight). exact Htext.
Qed.

Lemma unserializable_value_witness :
  ∃ w', setCached RedisClient "k" bigint_input (Some 60) fresh = (Normal tt, w')
        ∧ payload <$> redis w' !! "k" = Some serialization_error_text.
Proof.
  apply (unserializable_value_is_stored_as_marker "k" bigint_input (Some 60) fresh).
  - reflexivity.
  - intros text. vm_compute. discriminate.
Defined.

(** Where the value is not a tree the two part ways: for the object that
    contains itself [JSON.stringify] throws, and what [setCached] stores is
    the text with the markers in it, not the text of the error object. *)
Example cyclic_value_is_stored_with_markers :
  Graph.JSON_stringify_plain Graph.loop_heap 3 (Graph.GRef 1%positive)
    = Throw Graph.circular_error
  ∧ valueStr_of_graph 3 Graph.loop_heap (Graph.GRef 1%positive)
    = Normal (Some
        ("{" ++ dquote ++ "name" ++ dquote ++ ":" ++ dquote ++ "loop" ++ dquote ++ ","
         ++ dquote ++ "self" ++ dquote ++ ":" ++ dquote ++ "[Circular Reference]" ++ dquote ++ ","
         ++ dquote ++ "list" ++ dquote ++ ":[" ++ dquote ++ "[Circular Reference]" ++ dquote
         ++ ",7]}")).
Proof. split; vm_compute; reflexivity. Qed.


(** X22. Strings are stored as they are and parsed when read: a string that is
    itself a JSON text comes back as the value it denotes, any other
    non-empty string comes back as itself. *)
Theorem stored_string_is_parsed_on_read (JSON_parse : string → completion value)
    (key s : string) (ttl : option Z) (w : world) :
  set_throws (broken w) = false →
  get_throws (broken w) = false →
  s ≠ EmptyString →
  ∃ w', setCached RedisClient key (VString s) ttl w = (Normal tt, w')
        ∧ getCached JSON_parse RedisClient key w'
          = (Normal (match JSON_parse s with
                     | Normal parsed => parsed
                     | Throw _ => VString s
                     end), w').
Proof.
  intros Hset Hget Hs.
  unfold setCached, try_catch, mbind, M_bind, lift. simpl.
  unfold redis_setEx, redis_set, redis_write.
  assert (Hfull : nonempty (Some s) = true).
  { simpl. destruct (String.eqb_spec s EmptyString); [contradiction|reflexivity]. }
  destruct (ttl_given ttl); rewrite Hset; eexists; (split; [reflexivity|]);
    unfold getCached, try_catch, mbind, M_bind, redis_get, lift; simpl;
    rewrite Hget, lookup_insert_eq; simpl;
    simpl in Hfull; rewrite Hfull; destruct (JSON_parse s); reflexivity.
Qed.

Lemma stored_string_witness :
  ∃ w', setCached RedisClient "k" (VString "42") None fresh = (Normal tt, w')
        ∧ getCached parse_numeral RedisClient "k" w'
          = (Normal (match parse_numeral "42" with
                     | Normal parsed => parsed
                     | Throw _ => VString "42"
                     end), w').
Proof.
  apply (stored_string_is_parsed_on_read parse_numeral "k" "42" None fresh);
    [reflexivity|reflexivity|discriminate].
Defined.

(** X23. [setCached] tests the time to live for truthiness: 0 is stored without
    an expiry, like a missing one; every other number, negative ones
    included, is handed to the client as it is.  Both clients. *)
Theorem setCached_zero_ttl_is_permanent
    (redis : client) (key : string) (v : value) (ttl : option Z) (w : world) :
  set_throws (broken w) = false →
  ∃ w' held,
    setCached redis key v ttl w = (Normal tt, w')
    ∧ stored redis key w' = Some (held, match ttl with
                                        | Some 0 => None
                                        | _ => ttl
                                        end).
Proof.
  intros Hset.
  assert (Hgiven : (if ttl_given ttl then ttl else None)
                   = match ttl with Some 0 => None | _ => ttl end).
  { destruct ttl as [[| |]|]; reflexivity. }
  rewrite <- Hgiven.
  destruct redis.
  - unfold setCached, try_catch, stored, upstash_set. simpl.
    destruct (ttl_given ttl); rewrite Hset; do 2 eexists;
      (split; [reflexivity|]); simpl; rewrite lookup_insert_eq; reflexivity.
  - destruct (valueStr_returns v) as (text & Htext & _).
    unfold setCached, try_catch, stored, mbind, M_bind, lift. simpl. rewrite Htext.
    unfold redis_setEx, redis_set, redis_write.
    destruct (ttl_given ttl) eqn:Httl; rewrite Hset; do 2 eexists;
      (split; [reflexivity|]); simpl; rewrite lookup_insert_eq; simpl.
    + destruct ttl; [reflexivity|discriminate Httl].
    + reflexivity.
Qed.

Lemma setCached_zero_ttl_witness :
  ∃ w' held,
    setCached UpstashRedis "k" sample_data (Some 0) fresh = (Normal tt, w')
    ∧ stored UpstashRedis "k" w' = Some (held, None).
Proof.
  apply (setCached_zero_ttl_is_permanent UpstashRedis "k" sample_data (Some 0) fresh).
  reflexivity.
Defined.

(** X24. Unlike [getCached], the two writing utilities pass a failure of the
    client on to their caller, and leave both stores as they were. *)
Theorem write_failures_propagate
    (redis : client) (key : string) (v : value) (ttl : option Z) (w : world) :
  set_throws (broken w) = true →
  del_throws (broken w) = true →
  setCached redis key v ttl w = (Throw command_error, w)
  ∧ deleteCached redis key w = (Throw command_error, w).
Proof.
  intros Hset Hdel. split.
  - destruct redis.
    + unfold setCached, try_catch, upstash_set. simpl.
      destruct (ttl_given ttl); rewrite Hset; reflexivity.
    + destruct (valueStr_returns v) as (text & Htext & _).
      unfold setCached, try_catch, mbind, M_bind, lift. simpl. rewrite Htext.
      unfold redis_setEx, redis_set, redis_write.
      destruct (ttl_given ttl); rewrite Hset; reflexivity.
  - destruct redis; unfold deleteCached, try_catch, upstash_del, redis_del; simpl;
      rewrite Hdel; reflexivity.
Qed.

Lemma write_failures_witness :
  setCached RedisClient "k" sample_data (Some 60) writes_fail = (Throw command_error, writes_fail)
  ∧ deleteCached RedisClient "k" writes_fail = (Throw command_error, writes_fail).
Proof.
  apply (write_failures_propagate RedisClient "k" sample_data (Some 60) writes_fail);
    reflexivity.
Defined.

(** X25. After [deleteCached] has returned, [getCached] answers [null] for the
    key, on either client, and every other key holds what it held. *)
Theorem deleteCached_then_getCached_is_null (JSON_parse : string → completion value)
    (redis : client) (key : string) (w : world) :
  del_throws (broken w) = false →
  ∃ w', deleteCached redis key w = (Normal tt, w')
        ∧ getCached JSON_parse redis key w' = (Normal VNull, w')
        ∧ ∀ other, other ≠ key → stored redis other w' = stored redis other w.
Proof.
  intros Hdel. destruct redis.
  - unfold deleteCached, try_catch, upstash_del. simpl. rewrite Hdel.
    eexists. split; [reflexivity|]. split.
    + unfold getCached, try_catch, upstash_get. simpl.
      destruct (get_throws (broken w)); [reflexivity|].
      rewrite lookup_delete_eq. reflexivity.
    + intros other Hother. unfold stored. simpl.
      rewrite lookup_delete_ne by congruence. reflexivity.
  - unfold deleteCached, try_catch, redis_del. simpl. rewrite Hdel.
    eexists. split; [reflexivity|]. split.
    + unfold getCached, try_catch, mbind, M_bind, redis_get. simpl.
      destruct (get_throws (broken w)); [reflexivity|].
      rewrite lookup_delete_eq. reflexivity.
    + intros other Hother. unfold stored. simpl.
      rewrite lookup_delete_ne by congruence. reflexivity.
Qed.

Lemma deleteCached_then_getCached_witness :
  stored UpstashRedis sample_key first_call.2
    = Some (sanitizeForCache sample_result, Some 60)
  ∧ getCached parse_unavailable UpstashRedis sample_key first_call.2
    = (Normal (sanitizeForCache sample_result), first_call.2)
  ∧ ∃ w', deleteCached UpstashRedis sample_key first_call.2 = (Normal tt, w')
          ∧ getCached parse_unavailable UpstashRedis sample_key w' = (Normal VNull, w')
          ∧ ∀ other, other ≠ sample_key →
              stored UpstashRedis other w' = stored UpstashRedis other first_call.2.
Proof.
  split; [vm_compute; reflexivity|]. split; [vm_compute; reflexivity|].
  apply (deleteCached_then_getCached_is_null parse_unavailable UpstashRedis sample_key
           first_call.2).
  reflexivity.
Defined.

(** ** The connection factory *)

Section FactoryFacts.
Import RedisConnectionFactory.
Variable is_url : string → bool.
Variable connect : string → completion unit.
Variable quit : string → completion unit.
Variable new_UpstashRedis : UpstashConfig → completion unit.
Variable env : Env.

Abbreviation getStandardRedis := (RedisConnectionFactory.getStandardRedis is_url connect env).
Abbreviation getUpstashRedis := (RedisConnectionFactory.getUpstashRedis is_url new_UpstashRedis env).
Abbreviation closeConnections := (RedisConnectionFactory.closeConnections quit).
Abbreviation serve := (RedisConnectionFactory.serve is_url connect quit new_UpstashRedis env).
Abbreviation run := (RedisConnectionFactory.run is_url connect quit new_UpstashRedis env).

Lemma settled_initial : settled initial.
Proof. reflexivity. Qed.

Lemma getStandardRedis_settled redisUrl f :
  settled f → settled (getStandardRedis redisUrl f).2.
Proof.
  unfold settled, RedisConnectionFactory.getStandardRedis.
  destruct (standardRedisClient f) as [c|] eqn:Hc; simpl.
  - rewrite Hc. trivial.
  - intros Hpromise. destruct (url_or_env _ _ _) as [u|e]; simpl.
    + rewrite Hpromise. destruct (connect u); simpl; auto.
    + rewrite Hc. exact Hpromise.
Qed.

Lemma getUpstashRedis_settled config f :
  settled f → settled (getUpstashRedis config f).2.
Proof.
  unfold settled, RedisConnectionFactory.getUpstashRedis.
  destruct (upstashRedisClient f); simpl; [trivial|].
  destruct (match config with Some c => Normal c | None => _ end) as [c|e]; simpl; [|trivial].
  destruct (new_UpstashRedis _); simpl; trivial.
Qed.

Lemma closeConnections_settled f :
  settled f → settled (closeConnections f).2.
Proof.
  unfold RedisConnectionFactory.closeConnections.
  destruct (standardRedisClient f) as [c|] eqn:Hc; [|reflexivity].
  destruct (quit _); [reflexivity|trivial].
Qed.

Lemma serve_settled r f : settled f → settled (serve r f).2.
Proof.
  intros Hf. destruct r as [redisUrl|config|]; unfold RedisConnectionFactory.serve.
  - pose proof (getStandardRedis_settled redisUrl f Hf) as H.
    destruct (getStandardRedis redisUrl f). exact H.
  - pose proof (getUpstashRedis_settled config f Hf) as H.
    destruct (getUpstashRedis config f). exact H.
  - pose proof (closeConnections_settled f Hf) as H.
    destruct (closeConnections f). exact H.
Qed.

Lemma run_settled requests : ∀ f, settled f → settled (run requests f).2.
Proof.
  induction requests as [|r rest IH]; intros f Hf; [exact Hf|].
  cbn [RedisConnectionFactory.run].
  pose proof (serve_settled r f Hf) as Hserve.
  destruct (serve r f) as [a f'].
  pose proof (IH f' Hserve) as Hrest.
  destruct (run rest f') as [answers f'']. exact Hrest.
Qed.

Lemma getStandardRedis_open redisUrl f c :
  settled f → (getStandardRedis redisUrl f).1 = Normal c → isOpen c = true.
Proof.
  unfold settled, RedisConnectionFactory.getStandardRedis.
  destruct (standardRedisClient f) as [c0|]; simpl.
  - intros [Hopen _] [= <-]. exact Hopen.
  - intros ->. destruct (url_or_env _ _ _) as [u|e]; simpl; [|discriminate].
    destruct (connect u); simpl; [|discriminate].
    intros [= <-]. reflexivity.
Qed.

Lemma answers_open requests :
  ∀ f c, settled f → In (Standard (Normal c)) (run requests f).1 → isOpen c = true.
Proof.
  induction requests as [|r rest IH]; intros f c Hf; [intros []|].
  cbn [RedisConnectionFactory.run].
  pose proof (serve_settled r f Hf) as Hserve.
  destruct (serve r f) as [a f'] eqn:Hr.
  pose proof (IH f' c Hserve) as Hrest.
  destruct (run rest f') as [answers f'']. simpl.
  intros [->|Hin]; [|exact (Hrest Hin)].
  destruct r as [redisUrl|config|]; unfold RedisConnectionFactory.serve in Hr.
  - pose proof (getStandardRedis_open redisUrl f c Hf) as Hopen.
    destruct (getStandardRedis redisUrl f) as [c0 f0].
    apply Hopen. simpl. congruence.
  - destruct (getUpstashRedis config f). discriminate Hr.
  - destruct (closeConnections f). discriminate Hr.
Qed.

Lemma held_standard_client redisUrl f c :
  standardRedisClient f = Some c → getStandardRedis redisUrl f = (Normal c, f).
Proof. intros H. unfold RedisConnectionFactory.getStandardRedis. rewrite H. reflexivity. Qed.

Lemma held_upstash_client config f c :
  upstashRedisClient f = Some c → getUpstashRedis config f = (Normal c, f).
Proof. intros H. unfold RedisConnectionFactory.getUpstashRedis. rewrite H. reflexivity. Qed.

Lemma getUpstashRedis_keeps_standard config f :
  standardRedisClient (getUpstashRedis config f).2 = standardRedisClient f.
Proof.
  unfold RedisConnectionFactory.getUpstashRedis.
  destruct (upstashRedisClient f); [reflexivity|].
  destruct (match config with Some c => Normal c | None => _ end); [|reflexivity].
  destruct (new_UpstashRedis _); reflexivity.
Qed.

Lemma getStandardRedis_keeps_upstash redisUrl f :
  upstashRedisClient (getStandardRedis redisUrl f).2 = upstashRedisClient f.
Proof.
  unfold RedisConnectionFactory.getStandardRedis.
  destruct (standardRedisClient f); [reflexivity|].
  destruct (url_or_env _ _ _); [|reflexivity].
  destruct (connectPromise f); [reflexivity|].
  destruct (connect _); reflexivity.
Qed.

Lemma sticky_standard requests :
  ∀ f c, forallb (λ r, negb (is_close r)) requests = true →
  standardRedisClient f = Some c →
  ∀ a, In (Standard a) (run requests f).1 → a = Normal c.
Proof.
  induction requests as [|r rest IH]; intros f c Hopen Hc a; [intros []|].
  simpl in Hopen. apply andb_true_iff in Hopen as [Hr Hrest].
  cbn [RedisConnectionFactory.run].
  destruct r as [redisUrl|config|]; [| |discriminate Hr];
    unfold RedisConnectionFactory.serve.
  - rewrite (held_standard_client redisUrl f c Hc).
    pose proof (IH f c Hrest Hc a) as Hind.
    destruct (run rest f) as [answers f'']. simpl.
    intros [[= <-]|Hin]; [reflexivity|exact (Hind Hin)].
  - pose proof (getUpstashRedis_keeps_standard config f) as Hkeep.
    destruct (getUpstashRedis config f) as [u f']. simpl in Hkeep.
    rewrite <- Hkeep in Hc.
    pose proof (IH f' c Hrest Hc a) as Hind.
    destruct (run rest f') as [answers f'']. simpl.
    intros [Heq|Hin]; [discriminate Heq|exact (Hind Hin)].
Qed.

Lemma sticky_upstash requests :
  ∀ f c, forallb (λ r, negb (is_close r)) requests = true →
  upstashRedisClient f = Some c →
  ∀ a, In (Upstash a) (run requests f).1 → a = Normal c.
Proof.
  induction requests as [|r rest IH]; intros f c Hopen Hc a; [intros []|].
  simpl in Hopen. apply andb_true_iff in Hopen as [Hr Hrest].
  cbn [RedisConnectionFactory.run].
  destruct r as [redisUrl|config|]; [| |discriminate Hr];
    unfold RedisConnectionFactory.serve.
  - pose proof (getStandardRedis_keeps_upstash redisUrl f) as Hkeep.
    destruct (getStandardRedis redisUrl f) as [u f']. simpl in Hkeep.
    rewrite <- Hkeep in Hc.
    pose proof (IH f' c Hrest Hc a) as Hind.
    destruct (run rest f') as [answers f'']. simpl.
    intros [Heq|Hin]; [discriminate Heq|exact (Hind Hin)].
  - rewrite (held_upstash_client config f c Hc).
    pose proof (IH f c Hrest Hc a) as Hind.
    destruct (run rest f) as [answers f'']. simpl.
    intros [[= <-]|Hin]; [reflexivity|exact (Hind Hin)].
Qed.

(** X26. Whatever calls of the factory a program has awaited one after the
    other, every string client [getStandardRedis] hands it has completed
    its [connect()]. *)
Theorem handed_out_clients_are_connected
    (requests : list request) (c : RedisClientType) :
  In (Standard (Normal c)) (run requests initial).1 →
  isOpen c = true.
Proof. apply answers_open. exact settled_initial. Qed.

(** X27. Once the factory holds a client, every later call gets that client,
    whatever url or configuration the call names, until
    [closeConnections] is called: the first configuration wins. *)
Theorem first_configuration_wins (requests : list request) (f : Factory) :
  forallb (λ r, negb (is_close r)) requests = true →
  (∀ c a, standardRedisClient f = Some c →
          In (Standard a) (run requests f).1 → a = Normal c)
  ∧ (∀ c a, upstashRedisClient f = Some c →
            In (Upstash a) (run requests f).1 → a = Normal c).
Proof.
  intros Hopen. split; intros c a Hc Hin.
  - exact (sticky_standard requests f c Hopen Hc a Hin).
  - exact (sticky_upstash requests f c Hopen Hc a Hin).
Qed.

(** X28. A call that throws leaves the static fields as they were: a failed
    connection is not remembered and the next call starts afresh. *)
Theorem failed_request_changes_nothing
    (history : list request) (r : request) (e : exn) :
  let f := (run history initial).2 in
  ((serve r f).1 = Standard (Throw e)
   ∨ (serve r f).1 = Upstash (Throw e)
   ∨ (serve r f).1 = Closed (Throw e)) →
  (serve r f).2 = f.
Proof.
  intros f.
  assert (Hf : settled f) by (apply run_settled, settled_initial).
  clearbody f. unfold settled in Hf.
  destruct r as [redisUrl|config|]; unfold RedisConnectionFactory.serve.
  - unfold RedisConnectionFactory.getStandardRedis.
    destruct f as [[c|] u promise]; simpl in *; [trivial|]. subst promise.
    destruct (url_or_env _ _ _); simpl; [|trivial].
    destruct (connect _); simpl; [|trivial].
    intros [H|[H|H]]; discriminate H.
  - unfold RedisConnectionFactory.getUpstashRedis.
    destruct (upstashRedisClient f); simpl; [trivial|].
    destruct (match config with Some c => Normal c | None => _ end); simpl; [|trivial].
    destruct (new_UpstashRedis _); simpl; [|trivial].
    intros [H|[H|H]]; discriminate H.
  - unfold RedisConnectionFactory.closeConnections.
    destruct (standardRedisClient f); simpl.
    + destruct (quit _); simpl; [|trivial]. intros [H|[H|H]]; discriminate H.
    + intros [H|[H|H]]; discriminate H.
Qed.

(** X29. Without a url argument, the first [getStandardRedis] returns a client
    exactly when [REDIS_URL] is set to a non-empty text that passes the url
    check and the server at that url accepts the connection. *)
Theorem getStandardRedis_needs_a_valid_environment (c : RedisClientType) :
  (getStandardRedis None initial).1 = Normal c
  ↔ REDIS_URL env = Some (client_url c)
    ∧ is_url (client_url c) = true
    ∧ client_url c ≠ EmptyString
    ∧ isOpen c = true
    ∧ ∃ done, connect (client_url c) = Normal done.
Proof.
  unfold RedisConnectionFactory.getStandardRedis, url_or_env, getRedisUrl.
  cbn [standardRedisClient connectPromise upstashRedisClient initial].
  split.
  - destruct (REDIS_URL env) as [u|]; [|discriminate].
    destruct (is_url u) eqn:Hurl; [|discriminate].
    destruct u as [|x u]; [discriminate|]. cbn [min1 String.eqb negb andb].
    destruct (connect (String x u)) as [done|err] eqn:Hconnect; [|discriminate].
    intros [= <-]. cbn [client_url isOpen]. rewrite Hconnect, Hurl.
    repeat split; [discriminate|eauto].
  - destruct c as [u opened]. cbn [client_url isOpen].
    intros (-> & -> & Hne & -> & done & Hconnect).
    destruct u as [|x u]; [contradiction|]. cbn [min1 String.eqb negb andb].
    rewrite Hconnect. reflexivity.
Qed.

(** After [closeConnections] has returned, the factory is as it was at
    start-up, and the next [getStandardRedis] connects to the url it is
    given. *)
Theorem close_then_get_honours_the_new_url (f : Factory) (u : string) :
  (closeConnections f).1 = Normal tt →
  u ≠ EmptyString →
  connect u = Normal tt →
  (closeConnections f).2 = initial
  ∧ (getStandardRedis (Some u) (closeConnections f).2).1
    = Normal {| client_url := u; isOpen := true |}.
Proof.
  intros Hclose Hu Hconnect.
  assert (Hreset : (closeConnections f).2 = initial).
  { revert Hclose. unfold RedisConnectionFactory.closeConnections.
    destruct (standardRedisClient f); [|reflexivity].
    destruct (quit _); [reflexivity|discriminate]. }
  split; [exact Hreset|]. rewrite Hreset.
  unfold RedisConnectionFactory.getStandardRedis, url_or_env, min1. simpl.
  destruct (String.eqb_spec u EmptyString); [contradiction|]. simpl.
  rewrite Hconnect. reflexivity.
Qed.

End FactoryFacts.

Lemma handed_out_clients_witness :
  let c := {| RedisConnectionFactory.client_url := "redis://a";
              RedisConnectionFactory.isOpen := true |} in
  RedisConnectionFactory.isOpen c = true.
Proof.
  intros c.
  apply (handed_out_clients_are_connected RedisConnectionFactory.any_url
           RedisConnectionFactory.all_up RedisConnectionFactory.all_up
           RedisConnectionFactory.accept_config RedisConnectionFactory.no_env
           [RedisConnectionFactory.GetStandardRedis (Some "redis://a")] c).
  left. reflexivity.
Defined.

Lemma first_configuration_witness :
  let f := {| RedisConnectionFactory.standardRedisClient :=
                Some {| RedisConnectionFactory.client_url := "redis://a";
                        RedisConnectionFactory.isOpen := true |};
              RedisConnectionFactory.upstashRedisClient := None;
              RedisConnectionFactory.connectPromise := true |} in
  let requests := [RedisConnectionFactory.GetStandardRedis (Some "redis://b")] in
  (∀ c a, RedisConnectionFactory.standardRedisClient f = Some c →
          In (RedisConnectionFactory.Standard a)
             (RedisConnectionFactory.run RedisConnectionFactory.any_url
                RedisConnectionFactory.all_up RedisConnectionFactory.all_up
                RedisConnectionFactory.accept_config RedisConnectionFactory.no_env
                requests f).1 → a = Normal c)
  ∧ (∀ c a, RedisConnectionFactory.upstashRedisClient f = Some c →
            In (RedisConnectionFactory.Upstash a)
               (RedisConnectionFactory.run RedisConnectionFactory.any_url
                  RedisConnectionFactory.all_up RedisConnectionFactory.all_up
                  RedisConnectionFactory.accept_config RedisConnectionFactory.no_env
                  requests f).1 → a = Normal c).
Proof.
  intros f requests.
  apply (first_configuration_wins RedisConnectionFactory.any_url
           RedisConnectionFactory.all_up RedisConnectionFactory.all_up
           RedisConnectionFactory.accept_config RedisConnectionFactory.no_env requests f).
  reflexivity.
Defined.

Lemma failed_request_witness :
  (RedisConnectionFactory.serve RedisConnectionFactory.any_url
     RedisConnectionFactory.all_down RedisConnectionFactory.all_up
     RedisConnectionFactory.accept_config RedisConnectionFactory.no_env
     (RedisConnectionFactory.GetStandardRedis (Some "redis://a"))
     RedisConnectionFactory.initial).2
  = RedisConnectionFactory.initial.
Proof.
  apply (failed_request_changes_nothing RedisConnectionFactory.any_url
           RedisConnectionFactory.all_down RedisConnectionFactory.all_up
           RedisConnectionFactory.accept_config RedisConnectionFactory.no_env
           [] (RedisConnectionFactory.GetStandardRedis (Some "redis://a")) connection_error).
  left. reflexivity.
Defined.

Lemma close_then_get_witness :
  (RedisConnectionFactory.closeConnections RedisConnectionFactory.all_up
     RedisConnectionFactory.initial).2 = RedisConnectionFactory.initial
  ∧ (RedisConnectionFactory.getStandardRedis RedisConnectionFactory.any_url
       RedisConnectionFactory.all_up RedisConnectionFactory.no_env (Some "redis://b")
       (RedisConnectionFactory.closeConnections RedisConnectionFactory.all_up
          RedisConnectionFactory.initial).2).1
    = Normal {| RedisConnectionFactory.client_url := "redis://b";
                RedisConnectionFactory.isOpen := true |}.
Proof.
  apply (close_then_get_honours_the_new_url RedisConnectionFactory.any_url
           RedisConnectionFactory.all_up RedisConnectionFactory.all_up
           RedisConnectionFactory.no_env RedisConnectionFactory.initial "redis://b");
    [reflexivity|discriminate|reflexivity].
Defined.

(** ** The conditional logger *)

Section LoggerFacts.
Import Logger.

Lemma emit_snoc l calls call out :
  emit l (calls ++ [call])%list out
  = match call.1 with
    | Info => cinfo l call.2 (emit l calls out)
    | Warn => cwarn l call.2 (emit l calls out)
    | Error => cerror l call.2 (emit l calls out)
    end.
Proof. unfold emit. rewrite fold_left_app. reflexivity. Qed.

(** X30. With [debug] off or missing, the console gets the error lines and
    nothing else: exactly the error lines the same calls print with [debug]
    on, in the same order. *)
Theorem debug_off_keeps_only_errors
    (namespace : string) (debug : option bool) (calls : list (level * LogEntry)) :
  enabled debug = false →
  emit (createConditionalLogger (ConsoleLogger namespace) debug) calls []
  = filter is_error
      (emit (createConditionalLogger (ConsoleLogger namespace) (Some true)) calls []).
Proof.
  intros Hoff. induction calls as [|[lvl entry] calls IH] using rev_ind; [reflexivity|].
  rewrite !emit_snoc. simpl. rewrite Hoff.
  destruct lvl; unfold console; rewrite filter_app; simpl.
  - rewrite app_nil_r. exact IH.
  - rewrite app_nil_r. exact IH.
  - rewrite IH. reflexivity.
Qed.

End LoggerFacts.

Lemma debug_off_witness :
  Logger.emit (Logger.createConditionalLogger (Logger.ConsoleLogger "CacheMiddleware") None)
    [(Logger.Info, {| Logger.message := "Cache miss"; Logger.metadata := None |});
     (Logger.Error, {| Logger.message := "Redis cache error"; Logger.metadata := None |})] []
  = filter Logger.is_error
      (Logger.emit (Logger.createConditionalLogger (Logger.ConsoleLogger "CacheMiddleware")
                      (Some true))
         [(Logger.Info, {| Logger.message := "Cache miss"; Logger.metadata := None |});
          (Logger.Error, {| Logger.message := "Redis cache error"; Logger.metadata := None |})]
         []).
Proof.
  apply (debug_off_keeps_only_errors "CacheMiddleware" None). reflexivity.
Defined.
